(** * Content monitor: keyword extraction, clustering, scoring, suggestions

    A shallow embedding of the clustering and scoring core of
    [content-monitor.py] (class [ContentMonitor]) and the proofs of the
    properties stated about it.

    Conventions of the embedding.
    - A Python [str] is a sequence of code points.  Text is a [string] whose
      characters stand for the code points U+0000..U+00FF; the tables of
      [str.lower] and of the regex class [\w] are those of the Unicode
      database on that range.
    - A Python [set] is a [gset], a [dict] used as a map is a [gmap]; the
      [feeds_data] dict, whose iteration order decides the order of the
      entries, is an association list in insertion order.
    - A Python [float] is an IEEE 754 double, a [spec_float] with the
      operations of [SpecFloat] at precision 53 (module [Binary64]); the
      relevance score is computed on doubles, operation by operation.
    - The similarity of two keyword lists is the quotient of two small
      integers; it is kept as the exact rational ([Q]), and the module
      [SimilarityBinary64] evaluates the same division and the comparison
      with [0.15] on doubles.
    - The order in which Python visits a [set] of strings depends on the
      hashes of the strings and on the history of the set, not only on its
      elements; where a loop over a set adds up doubles, the order is an
      argument of the model.
    - [len(x) - 1] is computed in [Z], as Python computes it. *)

From Stdlib Require Import ZArith QArith Qround Ascii String List Lia Permutation.
From Stdlib Require Import Qpower SpecFloat DecimalString.
From stdpp Require Import base option list gmap sets strings sorting.

Local Open Scope string_scope.
Local Open Scope list_scope.

(** ** Characters and the regex of [_extract_keywords] *)

Module Regex.

Definition code (c : ascii) : N := N_of_ascii c.

Definition between (lo hi : N) (c : ascii) : bool :=
  ((lo <=? code c) && (code c <=? hi))%N.

(** [[a-z]] *)
Definition is_az (c : ascii) : bool := between 97 122 c.

(** [\w] on a [str] pattern: alphanumeric code points and the underscore. *)
Definition is_word (c : ascii) : bool :=
  between 48 57 c || between 65 90 c || (code c =? 95)%N || between 97 122 c
  || (code c =? 170)%N || between 178 179 c || (code c =? 181)%N
  || between 185 186 c || between 188 190 c
  || between 192 214 c || between 216 246 c || between 248 255 c.

(** One character of [str.lower()]. *)
Definition lower_char (c : ascii) : ascii :=
  if between 65 90 c then ascii_of_N (code c + 32)
  else if between 192 222 c && negb (code c =? 215)%N then ascii_of_N (code c + 32)
  else c.

Definition lower (s : list ascii) : list ascii := map lower_char s.

Definition is_word_opt (o : option ascii) : bool :=
  match o with Some c => is_word c | None => false end.

(** [\b] between the character before the position ([None] at the start of
    the text) and the character at the position ([None] at the end). *)
Definition word_boundary (prev next : option ascii) : bool :=
  xorb (is_word_opt prev) (is_word_opt next).

(** The longest prefix of [s] in the class [p], with the rest. *)
Fixpoint span (p : ascii -> bool) (s : list ascii) : list ascii * list ascii :=
  match s with
  | [] => ([], [])
  | c :: s' =>
      if p c then let '(r, t) := span p s' in (c :: r, t) else ([], s)
  end.

(** The greedy [{3,}] gives characters back one at a time until the closing
    [\b] holds; [taken] is the part of the run still held, last character
    first, and [rest] is the text after it. *)
Fixpoint backtrack (taken rest : list ascii) : option (list ascii) :=
  match taken with
  | [] => None
  | c :: taken' =>
      if (3 <=? length taken)%nat then
        if word_boundary (Some c) (head rest) then Some (rev taken)
        else backtrack taken' (c :: rest)
      else None
  end.

(** [\b[a-z]{3,}\b] tried at one position: [prev] is the character before it. *)
Definition match_at (prev : option ascii) (s : list ascii) : option (list ascii) :=
  if word_boundary prev (head s) then
    let '(run, rest) := span is_az s in backtrack (rev run) rest
  else None.

(** [re.findall]: positions are tried from left to right and the scan
    resumes at the end of a match; [skip] counts the characters of the last
    match that are still to be passed over. *)
Fixpoint findall_from (prev : option ascii) (skip : nat) (s : list ascii)
  : list (list ascii) :=
  match s with
  | [] => []
  | c :: s' =>
      match skip with
      | S k => findall_from (Some c) k s'
      | O =>
          match match_at prev s with
          | Some tok => tok :: findall_from (Some c) (length tok - 1) s'
          | None => findall_from (Some c) 0 s'
          end
      end
  end.

Definition findall (s : list ascii) : list (list ascii) := findall_from None 0 s.

End Regex.

(** ** Keyword extractor *)

Definition stop_words : gset string :=
  list_to_set
    ["the"; "a"; "an"; "and"; "or"; "but"; "in"; "on"; "at"; "to"; "for";
     "of"; "with"; "by"; "from"; "as"; "is"; "was"; "are"; "were"; "been";
     "be"; "have"; "has"; "had"; "do"; "does"; "did"; "will"; "would"; "should";
     "could"; "may"; "might"; "can"; "this"; "that"; "these"; "those"; "i"; "you";
     "he"; "she"; "it"; "we"; "they"; "what"; "which"; "who"; "when"; "where";
     "why"; "how"; "all"; "each"; "every"; "both"; "few"; "more"; "most"; "other";
     "some"; "such"; "no"; "nor"; "not"; "only"; "own"; "same"; "so"; "than"; "too";
     "very"; "just"; "now"; "new"].

Definition _extract_keywords (text : string) : list string :=
  let words :=
    map string_of_list_ascii
        (Regex.findall (Regex.lower (list_ascii_of_string text))) in
  filter (fun w => w ∉ stop_words) words.

(** ** Containers of the standard library used by the code *)

(** [collections.Counter]: a dict from token to count; a dict keeps its keys in
    the order of their first insertion, which [most_common] uses for ties. *)
Definition Counter := list (string * nat).

Fixpoint counter_incr (w : string) (c : Counter) : Counter :=
  match c with
  | [] => [(w, 1%nat)]
  | (k, n) :: c' =>
      if decide (k = w) then (k, S n) :: c' else (k, n) :: counter_incr w c'
  end.

(** [Counter.update(iterable)], and [Counter(iterable)] from the empty one. *)
Definition counter_update (c : Counter) (ws : list string) : Counter :=
  fold_left (fun acc w => counter_incr w acc) ws c.

Definition counter_of (ws : list string) : Counter := counter_update [] ws.

(** A stable sort: [list.sort] and [sorted] guarantee stability, and a stable
    sort has one possible result.  [before x y] says that [x] may stand
    before [y]; elements are inserted from the right, each in front of the
    first element it may stand before. *)
Section StableSort.
Context {A : Type} (before : A -> A -> bool).

Fixpoint insert_sorted (x : A) (l : list A) : list A :=
  match l with
  | [] => [x]
  | y :: l' => if before x y then x :: l else y :: insert_sorted x l'
  end.

Fixpoint stable_sort (l : list A) : list A :=
  match l with
  | [] => []
  | x :: l' => insert_sorted x (stable_sort l')
  end.
End StableSort.

(** [Counter.most_common(n)]: highest counts first, ties in insertion order. *)
Definition most_common (n : nat) (c : Counter) : list (string * nat) :=
  take n (stable_sort (fun a b => (snd b <=? snd a)%nat) c).

(** [sorted(set_of_str)]: ascending, strings compared code point by code point. *)
Definition sorted_strings (s : gset string) : list string :=
  stable_sort String.leb (elements s).

(** [enumerate(l, k)] *)
Fixpoint enumerate_from {A : Type} (k : nat) (l : list A) : list (nat * A) :=
  match l with
  | [] => []
  | x :: l' => (k, x) :: enumerate_from (S k) l'
  end.

(** The integer nearest to [x], an exact tie going to the even one. *)
Definition round_half_even (x : Q) : Z :=
  let f := Qfloor x in
  match (x - inject_Z f ?= 1 # 2)%Q with
  | Lt => f
  | Gt => (f + 1)%Z
  | Eq => if Z.even f then f else (f + 1)%Z
  end.

(** ** The arithmetic on IEEE 754 doubles *)

Module Binary64.

Definition prec : Z := 53.
Definition emax : Z := 1024.

(** [float(z)] of an [int]. *)
Definition of_Z (z : Z) : spec_float := binary_normalize prec emax z 0 false.
Definition add : spec_float -> spec_float -> spec_float := SFadd prec emax.
Definition mul : spec_float -> spec_float -> spec_float := SFmul prec emax.
Definition div : spec_float -> spec_float -> spec_float := SFdiv prec emax.

(** The double of a decimal literal: [0.3] is [lit 3 10], the double nearest
    to 3/10. *)
Definition lit (n d : Z) : spec_float := div (of_Z n) (of_Z d).

(** The absolute value of a finite double, exactly. *)
Definition abs_value (x : spec_float) : Q :=
  match x with
  | S754_finite _ m e => (inject_Z (Z.pos m) * Qpower 2 e)%Q
  | _ => 0%Q
  end.

(** The double nearest to [n / d], with the sign [s], for [n >= 0] and
    [d > 0] of any size. *)
Definition nearest (s : bool) (n d : Z) : spec_float :=
  match n with
  | Z.pos _ =>
      let '(q, e, l) := SFdiv_core_binary prec emax n 0 d 0 in
      binary_round_aux prec emax s q e l
  | _ => S754_zero s
  end.

(** [round(x, 2)] on a double: the exact value of [x] is rounded to a
    multiple of 0.01, an exact tie to the even one, and the double nearest to
    that decimal is returned, with the sign of [x]; zeros, infinities and NaN
    are returned as they are. *)
Definition round2 (x : spec_float) : spec_float :=
  match x with
  | S754_finite s _ _ => nearest s (round_half_even (abs_value x * 100)) 100
  | _ => x
  end.

(** The doubles that are not negative: [0.0], a positive finite double or
    plus infinity. *)
Definition not_negative (x : spec_float) : Prop :=
  match x with
  | S754_zero false | S754_infinity false | S754_finite false _ _ => True
  | _ => False
  end.

(** [0 <= w] *)
Definition zero_le (w : spec_float) : Prop := SFleb (S754_zero false) w = true.

(** The doubles that are finite and positive, with their binary order of
    magnitude between [lo] and [hi]. *)
Definition positive_finite (lo hi : Z) (x : spec_float) : Prop :=
  match x with
  | S754_finite false m e => (lo <= Zdigits2 (Z.pos m) + e <= hi)%Z
  | _ => False
  end.

End Binary64.

(** ** Data model *)

(** An entry record of a feed, as the fetcher stores it. *)
Record RawEntry := {
  raw_title : string;
  raw_link : string;
  raw_summary : string;
  raw_published : string
}.

Record FeedData := {
  f_entries : list RawEntry;
  f_topics : list string;
  f_category : string
}.

(** [feeds_data]: feed name to feed, in the dict's order. *)
Definition FeedsData := list (string * FeedData).

(** An element of [all_entries]. *)
Record Entry := {
  title : string;
  link : string;
  summary : string;
  published : string;
  source : string;
  source_topics : list string;
  keywords : list string
}.

(** A cluster.  [c_entries] holds references to dicts of [all_entries]; two
    entries with equal fields are still two objects, so [c_refs] records,
    for each element of [c_entries], its position in [all_entries]. *)
Record Cluster := {
  c_entries : list Entry;
  c_refs : list nat;
  c_keywords : Counter;
  c_sources : gset string;
  c_topics : gset string
}.

Record Suggestion := {
  score : spec_float;
  headline : string;
  s_sources : list string;
  s_topics : list string;
  angle : string;
  s_entries : list Entry
}.

(** ** Similarity scorer *)

Definition is_nil {A : Type} (l : list A) : bool :=
  match l with [] => true | _ => false end.

Definition _calculate_similarity (keywords1 keywords2 : list string) : Q :=
  if is_nil keywords1 || is_nil keywords2 then 0%Q
  else
    let set1 : gset string := list_to_set keywords1 in
    let set2 : gset string := list_to_set keywords2 in
    let intersection := size (set1 ∩ set2) in
    let union := size (set1 ∪ set2) in
    if (0 <? union)%nat
    then (inject_Z (Z.of_nat intersection) / inject_Z (Z.of_nat union))%Q
    else 0%Q.

(** ** Clusterer *)

Definition collect_feed (feed : string * FeedData) : list Entry :=
  let '(feed_name, feed_data) := feed in
  map (fun entry =>
         {| title := raw_title entry;
            link := raw_link entry;
            summary := raw_summary entry;
            published := raw_published entry;
            source := feed_name;
            source_topics := f_topics feed_data;
            keywords :=
              _extract_keywords (raw_title entry ++ " " ++ raw_summary entry) |})
      (f_entries feed_data).

Definition collect_entries (feeds_data : FeedsData) : list Entry :=
  concat (map collect_feed feeds_data).

Definition new_cluster (i : nat) (entry : Entry) : Cluster :=
  {| c_entries := [entry];
     c_refs := [i];
     c_keywords := counter_of (keywords entry);
     c_sources := {[ source entry ]};
     c_topics := list_to_set (source_topics entry) |}.

Definition add_entry (cluster : Cluster) (j : nat) (other : Entry) : Cluster :=
  {| c_entries := c_entries cluster ++ [other];
     c_refs := c_refs cluster ++ [j];
     c_keywords := counter_update (c_keywords cluster) (keywords other);
     c_sources := c_sources cluster ∪ {[ source other ]};
     c_topics := c_topics cluster ∪ list_to_set (source_topics other) |}.

(** [similarity > 0.15] *)
Definition similar (entry other : Entry) : bool :=
  negb (Qle_bool (_calculate_similarity (keywords entry) (keywords other)) 0.15%Q).

(** One turn of the inner loop, over [(j, other)]. *)
Definition scan_step (entry : Entry) (st : Cluster * gset nat) (jo : nat * Entry)
  : Cluster * gset nat :=
  let '(cluster, used) := st in
  let '(j, other) := jo in
  if decide (j ∈ used) then st
  else if similar entry other then (add_entry cluster j other, used ∪ {[ j ]})
  else st.

(** One turn of the outer loop, over [(i, entry)]. *)
Definition cluster_step (all_entries : list Entry)
    (st : list Cluster * gset nat) (ie : nat * Entry) : list Cluster * gset nat :=
  let '(clusters, used) := st in
  let '(i, entry) := ie in
  if decide (i ∈ used) then st
  else
    let '(cluster, used') :=
      fold_left (scan_step entry)
                (enumerate_from (S i) (drop (S i) all_entries))
                (new_cluster i entry, used ∪ {[ i ]}) in
    (clusters ++ [cluster], used').

Definition cluster_entries (all_entries : list Entry) : list Cluster :=
  fst (fold_left (cluster_step all_entries) (enumerate_from 0 all_entries) ([], ∅)).

Definition cluster_topics (feeds_data : FeedsData) : list Cluster :=
  cluster_entries (collect_entries feeds_data).

(** ** Relevance scorer *)

(** [self.topic_weights.get(topic, 0.3)] *)
Definition topic_weight (topic_weights : gmap string spec_float) (topic : string)
  : spec_float :=
  default (Binary64.lit 3 10) (topic_weights !! topic).

(** [1.0 + (len(cluster["sources"]) - 1) * 0.3] *)
Definition source_multiplier (cluster : Cluster) : spec_float :=
  Binary64.add (Binary64.of_Z 1)
    (Binary64.mul (Binary64.of_Z (Z.of_nat (size (c_sources cluster)) - 1))
                  (Binary64.lit 3 10)).

(** [1.0 + (len(cluster["entries"]) - 1) * 0.1] *)
Definition entry_multiplier (cluster : Cluster) : spec_float :=
  Binary64.add (Binary64.of_Z 1)
    (Binary64.mul (Binary64.of_Z (Z.of_nat (length (c_entries cluster)) - 1))
                  (Binary64.lit 1 10)).

(** [iteration] is the order in which [for topic in cluster["topics"]] visits
    the set: the weights are added up in that order, starting from [0.0],
    with one rounding after each addition.  A weight is a double; a weight
    that the configuration gives as an [int] is converted when it is added,
    and stands here as its double. *)
Definition score_cluster (topic_weights : gmap string spec_float)
    (iteration : list string) (cluster : Cluster) : spec_float :=
  let topic_score :=
    fold_left (fun acc topic => Binary64.add acc (topic_weight topic_weights topic))
              iteration (Binary64.of_Z 0) in
  let topic_score :=
    if decide (c_topics cluster = ∅) then Binary64.lit 3 10
    else Binary64.div topic_score
                      (Binary64.of_Z (Z.of_nat (size (c_topics cluster)))) in
  Binary64.round2
    (Binary64.mul (Binary64.mul topic_score (source_multiplier cluster))
                  (entry_multiplier cluster)).

(** A list or a set of CPython holds at most [sys.maxsize] elements. *)
Definition max_size : Z := 2 ^ 63 - 1.

Definition sized (cluster : Cluster) : Prop :=
  (Z.of_nat (length (c_entries cluster)) <= max_size)%Z
  /\ (Z.of_nat (size (c_sources cluster)) <= max_size)%Z
  /\ (Z.of_nat (size (c_topics cluster)) <= max_size)%Z.

(** ** Suggestion builder *)

Definition angle_telecom_ai : string :=
  "Connect this to vCon and AI-powered voice intelligence in telecom".
Definition angle_voip : string :=
  "How this impacts the VoIP/UCaaS industry and vCon adoption".
Definition angle_dev_tools : string :=
  "Developer perspective: practical applications and tooling".
Definition angle_ai_bridge : string :=
  "Bridge this AI development with telecom/voice applications".
Definition angle_general : string :=
  "Industry implications and practical takeaways for technical leaders".

Definition _generate_angle (cluster : Cluster) : string :=
  let topics := c_topics cluster in
  if existsb (fun t => bool_decide (t ∈ topics))
             ["voip"; "telecom"; "vcon"; "voice-intelligence"]
  then
    if decide ("ai" ∈ topics) then angle_telecom_ai else angle_voip
  else if bool_decide ("ai" ∈ topics) || bool_decide ("llm" ∈ topics)
          || bool_decide ("ai-agents" ∈ topics)
  then
    if decide ("dev-tools" ∈ topics) then angle_dev_tools else angle_ai_bridge
  else angle_general.

(** [" ".join(l)] *)
Fixpoint join_space (l : list string) : string :=
  match l with
  | [] => ""
  | [w] => w
  | w :: l' => w ++ " " ++ join_space l'
  end.

Section Suggestions.
(** [str.title] of the Python library; no property below depends on what
    it returns. *)
Variable str_title : string -> string.

Variable topic_weights : gmap string spec_float.

Definition _generate_headline (cluster : Cluster) (keywords : list string) : string :=
  match c_entries cluster with
  | entry :: _ => title entry
  | [] => str_title (join_space (take 3 keywords))
  end.

(** The suggestion of a cluster whose topics are visited in the order
    [iteration] when it is scored. *)
Definition suggestion_of (iteration : list string) (cluster : Cluster) : Suggestion :=
  let top_keywords := map fst (most_common 5 (c_keywords cluster)) in
  {| score := score_cluster topic_weights iteration cluster;
     headline := _generate_headline cluster top_keywords;
     s_sources := sorted_strings (c_sources cluster);
     s_topics := sorted_strings (c_topics cluster);
     angle := _generate_angle cluster;
     s_entries := c_entries cluster |}.

(** [x] may stand before [y] when sorting by score with [reverse=True]: the
    sort compares the scores with [<], and leaves [x] before [y] unless
    [score x < score y].  Scores that are not NaN are totally preordered,
    and the stable sort has one possible result. *)
Definition score_before (x y : Suggestion) : bool := negb (SFltb (score x) (score y)).

(** [iterations i] is the order in which the topics of the cluster at index
    [i] are visited. *)
Definition generate_suggestions (iterations : nat -> list string)
    (clusters : list Cluster) : list Suggestion :=
  let suggestions :=
    imap (fun i cluster => suggestion_of (iterations i) cluster) clusters in
  take 5 (stable_sort score_before suggestions).

End Suggestions.

(** ** The two-entry scenario *)

Module Scenario.

Definition feeds_data : FeedsData :=
  [ ("A", {| f_entries :=
               [ {| raw_title := "AI voice agents rise"; raw_link := "";
                    raw_summary := "AI agents transform telecom";
                    raw_published := "" |} ];
             f_topics := ["ai"; "telecom"]; f_category := "" |});
    ("B", {| f_entries :=
               [ {| raw_title := "New AI agent tools"; raw_link := "";
                    raw_summary := "AI agents transform telecom";
                    raw_published := "" |} ];
             f_topics := ["ai"; "dev-tools"]; f_category := "" |}) ].

Definition topic_weights : gmap string spec_float := ∅.

End Scenario.

(** ** Reference definitions for the keyword extractor *)

Module KeywordSpec.
Import Regex.

Definition emit (cur : list ascii) : list (list ascii) :=
  if is_nil cur then [] else [rev cur].

(** The maximal runs of characters of the class [p], in order of
    occurrence; [cur] is the run being read, last character first. *)
Fixpoint runs_from (p : ascii -> bool) (cur s : list ascii) : list (list ascii) :=
  match s with
  | [] => emit cur
  | c :: s' =>
      if p c then runs_from p (c :: cur) s' else emit cur ++ runs_from p [] s'
  end.

Definition runs (p : ascii -> bool) (s : list ascii) : list (list ascii) :=
  runs_from p [] s.

Definition long_enough (r : list ascii) : bool := (3 <=? length r)%nat.

Definition letters_only (r : list ascii) : bool := forallb is_az r.

Definition drop_stop_words (tokens : list (list ascii)) : list string :=
  filter (fun w => w ∉ stop_words) (map string_of_list_ascii tokens).

(** The extractor in the words of the specification: the maximal runs of
    ASCII letters of length at least 3 of the lowercased text. *)
Definition letter_run_keywords (text : string) : list string :=
  drop_stop_words
    (List.filter long_enough (runs is_az (lower (list_ascii_of_string text)))).

(** The extractor as the regex reads: the words of the lowercased text
    (maximal runs of [\w] characters) that are made of the letters a to z
    only and have length at least 3. *)
Definition whole_word_keywords (text : string) : list string :=
  drop_stop_words
    (List.filter (fun r => letters_only r && long_enough r)
                 (runs is_word (lower (list_ascii_of_string text)))).

(** The character before the position reached after reading [l]. *)
Definition after (prev : option ascii) (l : list ascii) : option ascii :=
  fold_left (fun _ c => Some c) l prev.

Definition non_word_next (t : list ascii) : Prop :=
  is_word_opt (head t) = false.

(** A token that the extractor can return. *)
Definition keyword (w : string) : Prop :=
  forallb is_az (list_ascii_of_string w) = true
  /\ (3 <= String.length w)%nat /\ (w ∉ stop_words).

End KeywordSpec.

(** ** Reference definitions for the relevance scorer *)

Module ScoreSpec.

(** The sum of [weight(topic, default = 0.3)] over the topics, taken in the
    order of the list. *)
Definition sum_weights (topic_weights : gmap string spec_float) (topics : list string)
  : spec_float :=
  fold_left Binary64.add (map (topic_weight topic_weights) topics) (Binary64.of_Z 0).

(** The mean weight of the topics, [0.3] for no topic. *)
Definition topic_score (topic_weights : gmap string spec_float) (topics : list string)
  : spec_float :=
  match topics with
  | [] => Binary64.lit 3 10
  | _ => Binary64.div (sum_weights topic_weights topics)
                      (Binary64.of_Z (Z.of_nat (length topics)))
  end.

(** [1.0 + (n - 1) * step] *)
Definition multiplier (n : Z) (step : spec_float) : spec_float :=
  Binary64.add (Binary64.of_Z 1) (Binary64.mul (Binary64.of_Z (n - 1)) step).

(** The score in the words of the specification, for the topics in the order
    in which they are added up, [n_sources] sources and [n_entries] entries. *)
Definition score (topic_weights : gmap string spec_float) (topics : list string)
    (n_sources n_entries : Z) : spec_float :=
  Binary64.round2
    (Binary64.mul
       (Binary64.mul (topic_score topic_weights topics)
                     (multiplier n_sources (Binary64.lit 3 10)))
       (multiplier n_entries (Binary64.lit 1 10))).

(** The product that [score_cluster] rounds. *)
Definition product (tw : gmap string spec_float) (iteration : list string)
    (c : Cluster) : spec_float :=
  let topic_score :=
    if decide (c_topics c = ∅) then Binary64.lit 3 10
    else Binary64.div
           (fold_left (fun acc topic => Binary64.add acc (topic_weight tw topic))
                      iteration (Binary64.of_Z 0))
           (Binary64.of_Z (Z.of_nat (size (c_topics c)))) in
  Binary64.mul (Binary64.mul topic_score (source_multiplier c)) (entry_multiplier c).

(** Every configured weight [w] has [0 <= w]. *)
Definition non_negative (topic_weights : gmap string spec_float) : Prop :=
  map_Forall (fun _ w => Binary64.zero_le w) topic_weights.

End ScoreSpec.

(** ** Reference definitions for the clusterer *)

Module ClusterSpec.

(** The candidates of the scan of the seed at position [i]:
    [enumerate(all_entries[i+1:], i+1)]. *)
Definition candidates (all_entries : list Entry) (i : nat) : list (nat * Entry) :=
  enumerate_from (S i) (drop (S i) all_entries).

(** The candidates that a scan adds, given the positions used before it. *)
Definition picked (seed : Entry) (used : gset nat) (items : list (nat * Entry))
  : list (nat * Entry) :=
  List.filter (fun jo => negb (bool_decide (fst jo ∈ used)) && similar seed (snd jo))
              items.

Definition grow (cluster : Cluster) (ps : list (nat * Entry)) : Cluster :=
  fold_left (fun c jo => add_entry c (fst jo) (snd jo)) ps cluster.

(** The positions held by a list of clusters. *)
Definition used_by (cs : list Cluster) : gset nat :=
  list_to_set (concat (map c_refs cs)).

(** The cluster seeded at position [s] when the positions [earlier] are used. *)
Definition cluster_at (all_entries : list Entry) (earlier : gset nat)
    (s : nat) (seed : Entry) : Cluster :=
  grow (new_cluster s seed) (picked seed earlier (candidates all_entries s)).

Definition seeded (all_entries : list Entry) (earlier : gset nat)
    (c : Cluster) (s : nat) (seed : Entry) : Prop :=
  all_entries !! s = Some seed /\ (s ∉ earlier) /\
  (forall j, (j < s)%nat -> j ∈ earlier) /\
  c = cluster_at all_entries earlier s seed.

(** The state of the outer loop when it reaches position [i]. *)
Definition inv (all_entries : list Entry) (i : nat)
    (st : list Cluster * gset nat) : Prop :=
  snd st = used_by (fst st) /\
  (forall j, (j < i)%nat -> j ∈ snd st) /\
  (forall k c, (fst st) !! k = Some c ->
     exists s seed, (s < i)%nat /\
       seeded all_entries (used_by (take k (fst st))) c s seed).

(** The cluster at index [k] of a run is formed from its seed alone: it holds
    the seed at some position [s], and then, in input order, exactly the
    later entries that no earlier cluster holds and whose similarity to the
    seed exceeds 0.15; its fields are those of the seed extended with each
    added entry. *)
Definition formed_from_seed (all_entries : list Entry) (clusters : list Cluster)
    (k : nat) (c : Cluster) : Prop :=
  exists s seed,
    all_entries !! s = Some seed /\
    let earlier := used_by (take k clusters) in
    let added :=
      picked seed earlier (candidates all_entries s) in
    (s ∉ earlier) /\
    (forall j other,
        In (j, other) added <->
        (s < j)%nat /\ all_entries !! j = Some other /\ (j ∉ earlier) /\
        (0.15 < _calculate_similarity (keywords seed) (keywords other))%Q) /\
    c_refs c = s :: map fst added /\
    c_entries c = seed :: map snd added /\
    c_keywords c
    = counter_update (counter_of (keywords seed))
                     (concat (map (fun p => keywords (snd p)) added)) /\
    c_sources c = {[ source seed ]} ∪ list_to_set (map (fun p => source (snd p)) added) /\
    c_topics c
    = list_to_set (source_topics seed)
      ∪ list_to_set (concat (map (fun p => source_topics (snd p)) added)).

End ClusterSpec.

(** ** Reference definition for the similarity scorer *)

(** The Jaccard index of two sets of tokens. *)
Definition jaccard (s1 s2 : gset string) : Q :=
  (inject_Z (Z.of_nat (size (s1 ∩ s2))) / inject_Z (Z.of_nat (size (s1 ∪ s2))))%Q.

(** ** The similarity scorer on IEEE 754 doubles *)

Module SimilarityBinary64.
Import Binary64.

Definition _calculate_similarity (keywords1 keywords2 : list string) : spec_float :=
  if is_nil keywords1 || is_nil keywords2 then of_Z 0
  else
    let set1 : gset string := list_to_set keywords1 in
    let set2 : gset string := list_to_set keywords2 in
    let intersection := size (set1 ∩ set2) in
    let union := size (set1 ∪ set2) in
    if (0 <? union)%nat
    then div (of_Z (Z.of_nat intersection)) (of_Z (Z.of_nat union))
    else of_Z 0.

Definition similar (entry other : Entry) : bool :=
  SFltb (lit 15 100) (_calculate_similarity (keywords entry) (keywords other)).

End SimilarityBinary64.

(** ** Feed collection *)

(** A Python [dict] with string keys, in insertion order: assigning to a key
    that is present replaces its value in place, assigning to a new key
    appends it.  [FeedsData] is such a dict. *)
Definition Dict (V : Type) := list (string * V).

Fixpoint dict_get {V : Type} (d : Dict V) (k : string) : option V :=
  match d with
  | [] => None
  | (k', v) :: d' => if decide (k' = k) then Some v else dict_get d' k
  end.

Fixpoint dict_set {V : Type} (d : Dict V) (k : string) (v : V) : Dict V :=
  match d with
  | [] => [(k, v)]
  | (k', v') :: d' =>
      if decide (k' = k) then (k, v) :: d' else (k', v') :: dict_set d' k v
  end.

(** A source of the configuration: a JSON object in which the keys "name",
    "feed" and "topics" may be absent. *)
Record Source := {
  src_name : option string;
  src_feed : option string;
  src_topics : option (list string)
}.

(** An element of [self.feeds]. *)
Record FeedInfo := {
  fi_name : string;
  fi_feed : string;
  fi_topics : list string;
  fi_category : string
}.

(** The outcome of code that may raise [KeyError]. *)
Inductive Outcome (A : Type) : Type :=
| Returned (a : A)
| KeyError (key : string).
Arguments Returned {A} a.
Arguments KeyError {A} key.

(** The body of the inner loop of [_collect_feeds]: [sources] from its
    position on, [feeds] the list built so far. *)
Fixpoint collect_sources (category : string) (sources : list Source)
    (feeds : list FeedInfo) : Outcome (list FeedInfo) :=
  match sources with
  | [] => Returned feeds
  | source :: rest =>
      match src_feed source with
      | Some feed =>
          match src_name source with
          | None => KeyError "name"
          | Some name =>
              collect_sources category rest
                (feeds ++ [ {| fi_name := name; fi_feed := feed;
                               fi_topics := default [] (src_topics source);
                               fi_category := category |} ])
          end
      | None => collect_sources category rest feeds
      end
  end.

Fixpoint collect_categories (config_sources : Dict (list Source))
    (feeds : list FeedInfo) : Outcome (list FeedInfo) :=
  match config_sources with
  | [] => Returned feeds
  | (category, sources) :: rest =>
      match collect_sources category sources feeds with
      | Returned feeds' => collect_categories rest feeds'
      | KeyError key => KeyError key
      end
  end.

(** [config_sources] is [self.config.get("sources")], [None] when the key is
    absent. *)
Definition _collect_feeds (config_sources : option (Dict (list Source)))
  : Outcome (list FeedInfo) :=
  collect_categories (default [] config_sources) [].

(** The cache file as [json.load] reads it: the keys "timestamp" and "feeds"
    may be absent. *)
Record CacheFile := {
  cf_timestamp : option string;
  cf_feeds : option FeedsData
}.

(** The state of the cache file: [None] when it does not exist, [Some None]
    when reading it as JSON raises, [Some (Some c)] when it holds [c]. *)
Definition FileState := option (option CacheFile).

(** The instants returned by the three calls of [datetime.now()] in one
    [fetch_feeds], in microseconds. *)
Record Clock := {
  now_load : Z;
  now_cutoff : Z;
  now_save : Z
}.

Section Fetch.
(** The library and the network, as they answer: the [struct_time] values of
    feedparser with their conversion [datetime( *t[:6])] ([None] when it
    raises), [isoformat] and [fromisoformat] ([None] when it raises), and the
    download and parse of the feed at position [i] of [self.feeds] from its
    URL ([None] when [requests.get], [raise_for_status] or the parser raises).
    A [datetime] is its number of microseconds since a fixed origin. *)
Variable StructTime : Type.

(** An entry of a parsed feed: [published_parsed] and [updated_parsed] (absent
    or false as [None]), and the keys "title", "link" and "summary". *)
Record ParsedEntry := {
  published_parsed : option StructTime;
  updated_parsed : option StructTime;
  entry_title : option string;
  entry_link : option string;
  entry_summary : option string
}.

Variable to_datetime : StructTime -> option Z.
Variable isoformat : Z -> string.
Variable fromisoformat : string -> option Z.
Variable download : nat -> string -> option (list ParsedEntry).

Variable days : Z.
Variable cache_hours : Z.
Variable feeds : list FeedInfo.

(** [_load_cache] *)
Definition _load_cache (now : Z) (file : FileState) : FeedsData :=
  match file with
  | None => []
  | Some None => []
  | Some (Some cache) =>
      match fromisoformat (default "2000-01-01" (cf_timestamp cache)) with
      | None => []
      | Some cache_time =>
          if (now - cache_time <? cache_hours * 3600000000)%Z
          then default [] (cf_feeds cache)
          else []
      end
  end.

(** [_save_cache]: the file after [json.dump], which [json.load] reads back
    as it was written.  A run in which writing the file raises is not
    modelled. *)
Definition _save_cache (now : Z) (feeds_data : FeedsData) : FileState :=
  Some (Some {| cf_timestamp := Some (isoformat now); cf_feeds := Some feeds_data |}).

(** The publication date of an entry: [None] when the conversion raises,
    [Some None] when the entry has no date. *)
Definition pub_date (entry : ParsedEntry) : option (option Z) :=
  match published_parsed entry with
  | Some t => option_map Some (to_datetime t)
  | None =>
      match updated_parsed entry with
      | Some t => option_map Some (to_datetime t)
      | None => Some None
      end
  end.

(** The loop over [feed.entries]; [None] when an exception leaves it. *)
Fixpoint recent_entries (cutoff : Z) (parsed : list ParsedEntry)
    (entries : list RawEntry) : option (list RawEntry) :=
  match parsed with
  | [] => Some entries
  | entry :: rest =>
      match pub_date entry with
      | None => None
      | Some None => recent_entries cutoff rest entries
      | Some (Some date) =>
          if (cutoff <=? date)%Z
          then recent_entries cutoff rest
                 (entries ++ [ {| raw_title := default "" (entry_title entry);
                                  raw_link := default "" (entry_link entry);
                                  raw_summary := default "" (entry_summary entry);
                                  raw_published := isoformat date |} ])
          else recent_entries cutoff rest entries
      end
  end.

Definition failed_feed (feed_info : FeedInfo) : FeedData :=
  {| f_entries := []; f_topics := fi_topics feed_info;
     f_category := fi_category feed_info |}.

(** The [try] block of [fetch_feeds] with its [except] branch. *)
Definition fetch_one (cutoff : Z) (i : nat) (feed_info : FeedInfo) : FeedData :=
  match download i (fi_feed feed_info) with
  | None => failed_feed feed_info
  | Some parsed =>
      match recent_entries cutoff parsed [] with
      | None => failed_feed feed_info
      | Some entries =>
          {| f_entries := entries; f_topics := fi_topics feed_info;
             f_category := fi_category feed_info |}
      end
  end.

(** One turn of the loop over [self.feeds]. *)
Definition fetch_step (cache : FeedsData) (cutoff : Z) (feeds_data : FeedsData)
    (item : nat * FeedInfo) : FeedsData :=
  let '(i, feed_info) := item in
  let name := fi_name feed_info in
  match dict_get cache name with
  | Some cached => dict_set feeds_data name cached
  | None => dict_set feeds_data name (fetch_one cutoff i feed_info)
  end.

(** [fetch_feeds]: the feeds returned and the cache file written. *)
Definition fetch_feeds (clock : Clock) (file : FileState) : FeedsData * FileState :=
  let cache := _load_cache (now_load clock) file in
  let cutoff := (now_cutoff clock - days * 86400000000)%Z in
  let feeds_data :=
    fold_left (fetch_step cache cutoff) (enumerate_from 0 feeds) [] in
  (feeds_data, _save_cache (now_save clock) feeds_data).

End Fetch.

(** ** Reference definitions for the feed collection *)

Module FeedSpec.

(** The feed that [_collect_feeds] lists for a source, if any. *)
Definition listed (category : string) (source : Source) : option FeedInfo :=
  match src_feed source, src_name source with
  | Some feed, Some name =>
      Some {| fi_name := name; fi_feed := feed;
              fi_topics := default [] (src_topics source);
              fi_category := category |}
  | _, _ => None
  end.

(** A source that has a feed but no name. *)
Definition nameless (source : Source) : Prop :=
  is_Some (src_feed source) /\ src_name source = None.

Definition all_sources (config_sources : option (Dict (list Source))) : list Source :=
  concat (map snd (default [] config_sources)).

(** The keys that a dict has after assignments to [names] in turn. *)
Definition keys_after (names : list string) (keys : list string) : list string :=
  fold_left (fun ks n => if decide (n ∈ ks) then ks else ks ++ [n]) names keys.

(** The name of the feed of a turn of the loop of [fetch_feeds]. *)
Definition item_name (item : nat * FeedInfo) : string := fi_name (snd item).

End FeedSpec.

(** ** Reading a counter *)

(** [counter[w]]: the count of [w], 0 for a token that is not a key. *)
Fixpoint counter_get (c : Counter) (w : string) : nat :=
  match c with
  | [] => 0%nat
  | (k, n) :: c' => if decide (k = w) then n else counter_get c' w
  end.

(** ** Further inputs *)

(** Three entries on unrelated subjects. *)
Module Unrelated.

Definition feeds_data : FeedsData :=
  [ ("A", {| f_entries :=
               [ {| raw_title := "Quantum chips"; raw_link := "";
                    raw_summary := "Faster qubits"; raw_published := "" |};
                 {| raw_title := "Voice agents"; raw_link := "";
                    raw_summary := "Calls answered"; raw_published := "" |} ];
             f_topics := ["ai"]; f_category := "" |});
    ("B", {| f_entries :=
               [ {| raw_title := "Rust compilers"; raw_link := "";
                    raw_summary := "Shorter builds"; raw_published := "" |} ];
             f_topics := ["ai"]; f_category := "" |}) ].

End Unrelated.

(** Six feeds with one entry each, on unrelated subjects and with different
    topics. *)
Module SixFeeds.

Definition feed (name title : string) (topics : list string) : string * FeedData :=
  (name, {| f_entries := [ {| raw_title := title; raw_link := "";
                              raw_summary := ""; raw_published := "" |} ];
            f_topics := topics; f_category := "" |}).

Definition feeds_data : FeedsData :=
  [ feed "A" "Quantum chips" ["hardware"];
    feed "B" "Voice agents" ["ai"; "telecom"];
    feed "C" "Rust compilers" ["dev-tools"];
    feed "D" "Solar farms" [];
    feed "E" "Carrier mergers" ["telecom"];
    feed "F" "Database sharding" ["dev-tools"; "ai"] ].

Definition topic_weights : gmap string spec_float :=
  {[ "ai" := Binary64.lit 9 10; "telecom" := Binary64.lit 8 10;
     "hardware" := Binary64.lit 2 10 ]}.

(** The topics of the cluster at index [i], in the order of [elements]. *)
Definition iterations (i : nat) : list string :=
  from_option (fun c => elements (c_topics c)) [] (cluster_topics feeds_data !! i).

End SixFeeds.

(** The entries of the two-entry scenario, published by one feed under
    another topic. *)
Module Retagged.

Definition feeds_data : FeedsData :=
  [ ("C", {| f_entries :=
               [ {| raw_title := "AI voice agents rise"; raw_link := "";
                    raw_summary := "AI agents transform telecom";
                    raw_published := "" |};
                 {| raw_title := "New AI agent tools"; raw_link := "";
                    raw_summary := "AI agents transform telecom";
                    raw_published := "" |} ];
             f_topics := ["rust"]; f_category := "" |}) ].

End Retagged.

(** ** A configuration and a network for the feed collection *)

Module SampleFetch.

Definition config_sources : option (Dict (list Source)) :=
  Some [ ("ai",
          [ {| src_name := Some "Alpha"; src_feed := Some "https://alpha.example/feed";
               src_topics := Some ["ai"] |};
            {| src_name := Some "Person"; src_feed := None; src_topics := None |} ]);
         ("telecom",
          [ {| src_name := Some "Beta"; src_feed := Some "https://beta.example/rss";
               src_topics := None |} ]) ].

Definition alpha : FeedInfo :=
  {| fi_name := "Alpha"; fi_feed := "https://alpha.example/feed";
     fi_topics := ["ai"]; fi_category := "ai" |}.

Definition beta : FeedInfo :=
  {| fi_name := "Beta"; fi_feed := "https://beta.example/rss";
     fi_topics := []; fi_category := "telecom" |}.

Definition feeds : list FeedInfo := [alpha; beta].

(** Dates in seconds, converted to microseconds; time stamps written and read
    as decimal numbers. *)
Definition to_datetime (t : Z) : option Z := Some (t * 1000000)%Z.

Definition isoformat (t : Z) : string := NilZero.string_of_int (Z.to_int t).

Definition fromisoformat (s : string) : option Z :=
  option_map Z.of_int (NilZero.int_of_string s).

(** The first feed answers with a recent and an old entry, the second one
    fails. *)
Definition download (i : nat) (url : string) : option (list (ParsedEntry Z)) :=
  match i with
  | O =>
      Some [ {| published_parsed := Some 150000%Z; updated_parsed := None;
                entry_title := Some "Voice agents rise"; entry_link := None;
                entry_summary := Some "Agents answer calls" |};
             {| published_parsed := None; updated_parsed := Some 100000%Z;
                entry_title := Some "Old news"; entry_link := None;
                entry_summary := None |} ]
  | _ => None
  end.

(** A network that answers nothing. *)
Definition offline (i : nat) (url : string) : option (list (ParsedEntry Z)) := None.

Definition days : Z := 1.
Definition cache_hours : Z := 6.

Definition clock : Clock :=
  {| now_load := 200000000000; now_cutoff := 200000000001;
     now_save := 200000000002 |}.

(** One hour later. *)
Definition later : Clock :=
  {| now_load := 203600000000; now_cutoff := 203600000001;
     now_save := 203600000002 |}.

Definition fetch (network : nat -> string -> option (list (ParsedEntry Z)))
    (c : Clock) (file : FileState) : FeedsData * FileState :=
  fetch_feeds Z to_datetime isoformat fromisoformat network days cache_hours feeds
              c file.

End SampleFetch.

(** ** Inputs and statements used by the properties *)

(** The number of entries of the input. *)
Definition total_entries (feeds_data : FeedsData) : nat :=
  sum_list_with (fun feed => length (f_entries (snd feed))) feeds_data.

(** The extractor read as the extraction of letter runs. *)
Definition letter_runs_reading (text : string) : Prop :=
  _extract_keywords text = KeywordSpec.letter_run_keywords text.

(** An empty summary read as leaving the entry without keywords and alone in
    its cluster. *)
Definition empty_summary_reading (feeds_data : FeedsData) : Prop :=
  forall i e,
    collect_entries feeds_data !! i = Some e -> summary e = "" ->
    keywords e = [] /\ exists k, cluster_topics feeds_data !! k = Some (new_cluster i e).

(** Two entries from one feed, both with an empty summary. *)
Module EmptySummaries.

Definition feeds_data : FeedsData :=
  [ ("A", {| f_entries :=
               [ {| raw_title := "Voice agents rise"; raw_link := "";
                    raw_summary := ""; raw_published := "" |};
                 {| raw_title := "Voice agents fall"; raw_link := "";
                    raw_summary := ""; raw_published := "" |} ];
             f_topics := ["ai"]; f_category := "" |}) ].

End EmptySummaries.

(** Two entries, the first without any keyword in its title and summary. *)
Module NoKeywords.

Definition feeds_data : FeedsData :=
  [ ("A", {| f_entries :=
               [ {| raw_title := "AI 2.0"; raw_link := "";
                    raw_summary := ""; raw_published := "" |};
                 {| raw_title := "AI"; raw_link := "";
                    raw_summary := "AI 2.0 is out"; raw_published := "" |} ];
             f_topics := ["ai"]; f_category := "" |}) ].

End NoKeywords.

(** Three entries, the first and the last with the same tokens. *)
Module SameTokens.

Definition feeds_data : FeedsData :=
  [ ("A", {| f_entries :=
               [ {| raw_title := "Voice agents"; raw_link := "";
                    raw_summary := "agents for voice"; raw_published := "" |};
                 {| raw_title := "Quantum chips"; raw_link := "";
                    raw_summary := ""; raw_published := "" |} ];
             f_topics := ["ai"]; f_category := "" |});
    ("B", {| f_entries :=
               [ {| raw_title := "Agents"; raw_link := "";
                    raw_summary := "The voice"; raw_published := "" |} ];
             f_topics := ["voip"]; f_category := "" |}) ].

End SameTokens.

(** * Properties *)

Example extract_demo :
  _extract_keywords "New AI agent tools AI agents transform telecom"
  = ["agent"; "tools"; "agents"; "transform"; "telecom"].
Proof. vm_compute. reflexivity. Qed.

Example extract_demo_digits :
  _extract_keywords "gpt4 model abc_def foo-bar x86 the cat"
  = ["model"; "foo"; "bar"; "cat"].
Proof. vm_compute. reflexivity. Qed.

(** ** Keyword extractor *)

Module KeywordProofs.
Import Regex KeywordSpec.

Lemma is_az_word c : is_az c = true -> is_word c = true.
Proof.
  unfold is_az, is_word. intros ->.
  repeat (rewrite ?orb_true_r, ?orb_true_l). reflexivity.
Qed.

Lemma span_spec p s r t :
  span p s = (r, t) ->
  s = r ++ t /\ forallb p r = true /\
  (match t with [] => True | d :: _ => p d = false end).
Proof.
  revert r t. induction s as [|c s IH]; intros r t; simpl.
  - intros [= <- <-]. auto.
  - destruct (p c) eqn:Hc.
    + destruct (span p s) as [r' t'] eqn:Hs. intros [= <- <-].
      destruct (IH _ _ eq_refl) as (-> & Hr & Ht).
      simpl. rewrite Hc, Hr. auto.
    + intros [= <- <-]. simpl. rewrite Hc. auto.
Qed.

Lemma span_all p r t :
  forallb p r = true ->
  (match t with [] => True | d :: _ => p d = false end) ->
  span p (r ++ t) = (r, t).
Proof.
  intros Hr Ht. induction r as [|c r IH]; simpl in *.
  - destruct t as [|d t]; [reflexivity|]. simpl. rewrite Ht. reflexivity.
  - apply andb_true_iff in Hr as [Hc Hr]. rewrite Hc, (IH Hr). reflexivity.
Qed.

(** The two equations of [runs]. *)
Lemma runs_from_app p cur r t :
  forallb p r = true -> runs_from p cur (r ++ t) = runs_from p (rev r ++ cur) t.
Proof.
  revert cur. induction r as [|c r IH]; intros cur Hr; simpl in *; [reflexivity|].
  apply andb_true_iff in Hr as [Hc Hr]. rewrite Hc, (IH _ Hr).
  rewrite <- app_assoc. reflexivity.
Qed.

Lemma runs_skip p c s : p c = false -> runs p (c :: s) = runs p s.
Proof. unfold runs. simpl. intros ->. reflexivity. Qed.

Lemma emit_rev_cons c r : emit (rev (c :: r)) = [c :: r].
Proof.
  unfold emit. destruct (rev (c :: r)) eqn:E.
  - simpl in E. destruct (rev r); discriminate.
  - cbn [is_nil]. rewrite <- E, rev_involutive. reflexivity.
Qed.

Lemma runs_word p c r t :
  span p (c :: r ++ t) = (c :: r, t) ->
  runs p (c :: r ++ t) = (c :: r) :: runs p t.
Proof.
  intros Hs. apply span_spec in Hs as (_ & Hr & Ht).
  unfold runs. change (c :: r ++ t) with ((c :: r) ++ t).
  rewrite (runs_from_app p [] (c :: r) t Hr), app_nil_r.
  destruct t as [|d t]; cbn [runs_from].
  - apply emit_rev_cons.
  - rewrite Ht, emit_rev_cons. reflexivity.
Qed.

Lemma backtrack_none taken rest :
  forallb is_word taken = true -> is_word_opt (head rest) = true ->
  backtrack taken rest = None.
Proof.
  revert rest. induction taken as [|c taken IH]; intros rest Ht Hr; [reflexivity|].
  simpl in Ht. apply andb_true_iff in Ht as [Hc Ht].
  cbn [backtrack]. destruct (3 <=? _)%nat; [|reflexivity].
  unfold word_boundary. cbn [is_word_opt]. rewrite Hc, Hr. cbn [xorb].
  apply IH; [exact Ht | exact Hc].
Qed.

Lemma forallb_az_word r : forallb is_az r = true -> forallb is_word r = true.
Proof.
  induction r as [|c r IH]; simpl; [reflexivity|].
  intros H. apply andb_true_iff in H as [Hc Hr].
  rewrite (is_az_word _ Hc), (IH Hr). reflexivity.
Qed.

Lemma after_word prev l :
  is_word_opt prev = true -> forallb is_word l = true ->
  is_word_opt (after prev l) = true.
Proof.
  revert prev. induction l as [|c l IH]; intros prev Hp Hl; simpl in *; [exact Hp|].
  apply andb_true_iff in Hl as [Hc Hl]. apply IH; assumption.
Qed.

Lemma findall_skip l : forall prev t,
  findall_from prev (length l) (l ++ t) = findall_from (after prev l) 0 t.
Proof.
  induction l as [|c l IH]; intros prev t; simpl.
  - destruct t; reflexivity.
  - apply IH.
Qed.

Lemma findall_inside_word l : forall prev t,
  is_word_opt prev = true -> forallb is_word l = true ->
  findall_from prev 0 (l ++ t) = findall_from (after prev l) 0 t.
Proof.
  induction l as [|c l IH]; intros prev t Hp Hl; simpl in *; [reflexivity|].
  apply andb_true_iff in Hl as [Hc Hl].
  unfold match_at, word_boundary. cbn [head is_word_opt]. rewrite Hp, Hc. cbn [xorb].
  apply IH; assumption.
Qed.

Lemma findall_non_word prev c s :
  is_word c = false -> findall_from prev 0 (c :: s) = findall_from (Some c) 0 s.
Proof.
  intros Hc. cbn [findall_from].
  assert (match_at prev (c :: s) = None) as ->; [|reflexivity].
  unfold match_at. destruct (word_boundary _ _); [|reflexivity].
  cbn [span]. destruct (is_az c) eqn:Haz.
  - apply is_az_word in Haz. congruence.
  - reflexivity.
Qed.

Lemma span_not_all p w t :
  forallb p w = false ->
  exists r d w2, span p (w ++ t) = (r, d :: w2 ++ t) /\ w = r ++ d :: w2.
Proof.
  induction w as [|c w IH]; simpl; [discriminate|].
  destruct (p c) eqn:Hc; simpl.
  - intros Hw. destruct (IH Hw) as (r & d & w2 & -> & ->).
    exists (c :: r), d, w2. auto.
  - intros _. exists [], c, w. auto.
Qed.

(** The regex tried at the first character of a word [w] matches the whole
    word or nothing. *)
Lemma match_at_word_start prev w t :
  is_word_opt prev = false -> w <> [] -> forallb is_word w = true ->
  non_word_next t ->
  match_at prev (w ++ t)
  = if letters_only w && long_enough w then Some w else None.
Proof.
  intros Hp Hne Hw Ht. unfold match_at, word_boundary.
  assert (is_word_opt (head (w ++ t)) = true) as ->.
  { destruct w as [|c w]; [congruence|]. simpl in *.
    apply andb_true_iff in Hw as [Hc _]. exact Hc. }
  rewrite Hp. cbn [xorb].
  destruct (letters_only w) eqn:Hl; cbn [andb].
  - unfold letters_only in Hl. rewrite (span_all is_az w t Hl).
    2:{ destruct t as [|d t]; [exact I|]. unfold non_word_next in Ht. simpl in Ht.
        destruct (is_az d) eqn:Hd; [|reflexivity].
        apply is_az_word in Hd. congruence. }
    destruct (rev w) as [|x taken] eqn:E.
    { apply (f_equal (@length ascii)) in E. rewrite length_rev in E.
      destruct w; [congruence|discriminate]. }
    cbn [backtrack]. unfold long_enough.
    replace (length (x :: taken)) with (length w)
      by (rewrite <- E, length_rev; reflexivity).
    destruct (3 <=? length w)%nat; [|reflexivity].
    assert (is_word x = true) as Hx.
    { assert (forallb is_word (rev w) = true) as Hr.
      { apply forallb_forall. intros y Hy. apply in_rev in Hy.
        exact (proj1 (forallb_forall _ _) Hw y Hy). }
      rewrite E in Hr. simpl in Hr. apply andb_true_iff in Hr as [Hx _]. exact Hx. }
    unfold word_boundary. cbn [is_word_opt]. rewrite Hx, Ht. cbn [xorb].
    rewrite <- E, rev_involutive. reflexivity.
  - destruct (span_not_all is_az w t Hl) as (r & d & w2 & Hs & Hw2).
    rewrite Hs. apply backtrack_none.
    + apply forallb_forall. intros y Hy. apply in_rev in Hy.
      assert (In y w) as Hyw by (rewrite Hw2; apply in_or_app; auto).
      exact (proj1 (forallb_forall _ _) Hw y Hyw).
    + simpl. assert (In d w) as Hdw by (rewrite Hw2; apply in_or_app; simpl; auto).
      exact (proj1 (forallb_forall _ _) Hw d Hdw).
Qed.

Lemma span_cons_word c s :
  is_word c = true ->
  exists r t, span is_word (c :: s) = (c :: r, t) /\ s = r ++ t
              /\ forallb is_word r = true /\ non_word_next t.
Proof.
  intros Hc. destruct (span is_word s) as [r t] eqn:Hs.
  exists r, t. simpl. rewrite Hc, Hs.
  apply span_spec in Hs as (-> & Hr & Ht).
  repeat split; auto. unfold non_word_next. destruct t; simpl; auto.
Qed.

(** [findall] yields the words that are letters only and long enough. *)
Lemma findall_from_runs n : forall s prev,
  (length s <= n)%nat ->
  is_word_opt prev = false \/ non_word_next s ->
  findall_from prev 0 s
  = List.filter (fun r => letters_only r && long_enough r) (runs is_word s).
Proof.
  induction n as [|n IH]; intros s prev Hlen Hb.
  { destruct s; [reflexivity | simpl in Hlen; lia]. }
  destruct s as [|c s]; [reflexivity|].
  destruct (is_word c) eqn:Hc.
  - destruct Hb as [Hp | Hb]; [|unfold non_word_next in Hb; simpl in Hb; congruence].
    destruct (span_cons_word c s Hc) as (r & t & Hs & -> & Hr & Ht).
    rewrite (runs_word is_word c r t Hs).
    assert (forallb is_word (c :: r) = true) as Hw by (simpl; rewrite Hc, Hr; reflexivity).
    pose proof (match_at_word_start prev (c :: r) t Hp ltac:(discriminate) Hw Ht) as Hm.
    assert (length t <= n)%nat as Hlt.
    { simpl in Hlen. rewrite length_app in Hlen. lia. }
    cbn [findall_from List.filter]. change (c :: r ++ t) with ((c :: r) ++ t).
    rewrite Hm. destruct (letters_only (c :: r) && long_enough (c :: r)).
    + f_equal. replace (length (c :: r) - 1)%nat with (length r) by (simpl; lia).
      rewrite findall_skip. apply IH; auto.
    + rewrite findall_inside_word by assumption. apply IH; auto.
  - rewrite findall_non_word by assumption. rewrite runs_skip by assumption.
    apply IH; [simpl in Hlen; lia | left; exact Hc].
Qed.

Lemma findall_runs s :
  findall s = List.filter (fun r => letters_only r && long_enough r) (runs is_word s).
Proof. apply (findall_from_runs (length s)); [lia | left; reflexivity]. Qed.

Lemma extract_whole_words text : _extract_keywords text = whole_word_keywords text.
Proof.
  unfold _extract_keywords, whole_word_keywords, drop_stop_words.
  rewrite findall_runs. reflexivity.
Qed.

End KeywordProofs.

(** ** Similarity scorer *)

Module SimilarityProofs.

Lemma list_to_set_nil_iff (l : list string) :
  list_to_set (C := gset string) l = ∅ <-> l = [].
Proof.
  split; [|intros ->; reflexivity].
  destruct l as [|x l]; [reflexivity|]. simpl. intros H.
  assert (x ∈ (∅ : gset string)) as Hx.
  { rewrite <- H. apply elem_of_union_l, elem_of_singleton. reflexivity. }
  apply not_elem_of_empty in Hx. contradiction.
Qed.

Lemma inter_comm (s1 s2 : gset string) : s1 ∩ s2 = s2 ∩ s1.
Proof. apply set_eq. intros x. rewrite !elem_of_intersection. tauto. Qed.

Lemma union_comm (s1 s2 : gset string) : s1 ∪ s2 = s2 ∪ s1.
Proof. apply set_eq. intros x. rewrite !elem_of_union. tauto. Qed.

Lemma inter_idemp (s : gset string) : s ∩ s = s.
Proof. apply set_eq. intros x. rewrite !elem_of_intersection. tauto. Qed.

Lemma union_idemp (s : gset string) : s ∪ s = s.
Proof. apply set_eq. intros x. rewrite !elem_of_union. tauto. Qed.

Lemma is_nil_set (l : list string) :
  is_nil l = bool_decide (list_to_set (C := gset string) l = ∅).
Proof.
  destruct l as [|x l]; simpl.
  - symmetry. apply bool_decide_eq_true. reflexivity.
  - symmetry. apply bool_decide_eq_false. intros H.
    apply (list_to_set_nil_iff (x :: l)) in H. discriminate.
Qed.

Lemma union_size_pos (a b : list string) :
  a <> [] -> (0 < size (list_to_set (C := gset string) a ∪ list_to_set b))%nat.
Proof.
  intros Ha. destruct a as [|x a]; [congruence|].
  assert (size (list_to_set (C := gset string) (x :: a) ∪ list_to_set b) ≠ 0)%nat;
    [|lia].
  apply size_non_empty_iff. intros H.
  apply (not_elem_of_empty (C := gset string) x). rewrite <- H.
  apply elem_of_union_l. simpl. apply elem_of_union_l, elem_of_singleton. reflexivity.
Qed.

Lemma inter_le_union (s1 s2 : gset string) : (size (s1 ∩ s2) <= size (s1 ∪ s2))%nat.
Proof.
  apply subseteq_size. intros x. rewrite elem_of_intersection, elem_of_union. tauto.
Qed.

Lemma ratio_range (a b : nat) :
  (a <= b)%nat -> (0 < b)%nat ->
  (0 <= inject_Z (Z.of_nat a) / inject_Z (Z.of_nat b)
   /\ inject_Z (Z.of_nat a) / inject_Z (Z.of_nat b) <= 1)%Q.
Proof.
  intros Hab Hb.
  assert (0 < inject_Z (Z.of_nat b))%Q as Hpos.
  { change 0%Q with (inject_Z 0). rewrite <- Zlt_Qlt. lia. }
  split.
  - apply Qle_shift_div_l; [exact Hpos|]. rewrite Qmult_0_l.
    change 0%Q with (inject_Z 0). rewrite <- Zle_Qle. lia.
  - apply Qle_shift_div_r; [exact Hpos|]. rewrite Qmult_1_l.
    rewrite <- Zle_Qle. lia.
Qed.

(** The value on non-empty lists. *)
Lemma similarity_nonempty (a b : list string) :
  a <> [] -> b <> [] ->
  _calculate_similarity a b
  = (inject_Z (Z.of_nat (size (list_to_set (C := gset string) a ∩ list_to_set b)))
     / inject_Z (Z.of_nat (size (list_to_set (C := gset string) a ∪ list_to_set b))))%Q.
Proof.
  intros Ha Hb. unfold _calculate_similarity.
  destruct a as [|x a]; [congruence|]. destruct b as [|y b]; [congruence|].
  cbn [is_nil orb].
  pose proof (union_size_pos (x :: a) (y :: b) ltac:(discriminate)) as Hpos.
  apply Nat.ltb_lt in Hpos. rewrite Hpos. reflexivity.
Qed.

Lemma similarity_empty_l b : _calculate_similarity [] b = 0%Q.
Proof. reflexivity. Qed.

Lemma similarity_empty_r a : _calculate_similarity a [] = 0%Q.
Proof. unfold _calculate_similarity. destruct a; reflexivity. Qed.

Lemma similarity_sym a b : _calculate_similarity a b = _calculate_similarity b a.
Proof.
  unfold _calculate_similarity. rewrite (orb_comm (is_nil a)).
  rewrite (inter_comm (list_to_set a)), (union_comm (list_to_set a)). reflexivity.
Qed.

Lemma similarity_range a b :
  (0 <= _calculate_similarity a b /\ _calculate_similarity a b <= 1)%Q.
Proof.
  destruct a as [|x a]; [rewrite similarity_empty_l; split; discriminate|].
  destruct b as [|y b]; [rewrite similarity_empty_r; split; discriminate|].
  rewrite similarity_nonempty by discriminate.
  apply ratio_range; [apply inter_le_union | apply union_size_pos; discriminate].
Qed.

Lemma similarity_self a : a <> [] -> (_calculate_similarity a a == 1)%Q.
Proof.
  intros Ha. rewrite similarity_nonempty by assumption.
  pose proof (union_size_pos a a Ha) as Hpos.
  rewrite union_idemp in Hpos. rewrite inter_idemp, union_idemp.
  apply Qmult_inv_r. intros H.
  unfold Qeq in H. simpl in H. lia.
Qed.

(** The value depends on the lists through their sets of tokens only. *)
Lemma similarity_sets a a' b b' :
  list_to_set (C := gset string) a = list_to_set a' ->
  list_to_set (C := gset string) b = list_to_set b' ->
  _calculate_similarity a b = _calculate_similarity a' b'.
Proof.
  intros Ha Hb. unfold _calculate_similarity.
  rewrite !is_nil_set, Ha, Hb. reflexivity.
Qed.

(** A similarity of 1 means the same non-empty set of tokens. *)
Lemma similarity_one a b :
  (_calculate_similarity a b == 1)%Q ->
  a <> [] /\ list_to_set (C := gset string) a = list_to_set b.
Proof.
  intros H.
  destruct a as [|x a]; [rewrite similarity_empty_l in H; discriminate H|].
  destruct b as [|y b]; [rewrite similarity_empty_r in H; discriminate H|].
  split; [discriminate|].
  rewrite similarity_nonempty in H by discriminate.
  set (s1 := list_to_set (x :: a) : gset string) in *.
  set (s2 := list_to_set (y :: b) : gset string) in *.
  pose proof (union_size_pos (x :: a) (y :: b) ltac:(discriminate)) as Hpos.
  fold s1 s2 in Hpos.
  assert (size (s1 ∩ s2) = size (s1 ∪ s2)) as Hsize.
  { assert (~ inject_Z (Z.of_nat (size (s1 ∪ s2))) == 0)%Q as Hnz.
    { intros Hz. unfold Qeq in Hz. simpl in Hz. lia. }
    pose proof (Qmult_div_r (inject_Z (Z.of_nat (size (s1 ∩ s2)))) _ Hnz) as Hm.
    rewrite H, Qmult_1_r in Hm. unfold Qeq in Hm. simpl in Hm. lia. }
  assert (s1 ∩ s2 = s1 ∪ s2) as Heq.
  { apply set_subseteq_size_eq; [|lia].
    intros z. rewrite elem_of_intersection, elem_of_union. tauto. }
  apply set_eq. intros z.
  assert (z ∈ s1 ∩ s2 <-> z ∈ s1 ∪ s2) as Hz by (rewrite Heq; reflexivity).
  rewrite elem_of_intersection, elem_of_union in Hz. tauto.
Qed.

End SimilarityProofs.

(** ** Clusterer *)

Module ClusterProofs.
Import ClusterSpec.

(** *** [enumerate] *)

Lemma enumerate_fst {A} (l : list A) : forall k,
  map fst (enumerate_from k l) = seq k (length l).
Proof. induction l as [|x l IH]; intros k; simpl; [|rewrite IH]; reflexivity. Qed.

Lemma enumerate_snd {A} (l : list A) : forall k, map snd (enumerate_from k l) = l.
Proof. induction l as [|x l IH]; intros k; simpl; [|rewrite IH]; reflexivity. Qed.

Lemma enumerate_In {A} (l : list A) : forall k j x,
  In (j, x) (enumerate_from k l) <-> (k <= j)%nat /\ l !! (j - k)%nat = Some x.
Proof.
  induction l as [|y l IH]; intros k j x; simpl.
  - split; [tauto | intros [_ H]; discriminate].
  - rewrite IH. split.
    + intros [[= <- <-] | [Hk Hl]].
      * rewrite Nat.sub_diag. split; [lia | reflexivity].
      * split; [lia|]. replace (j - k)%nat with (S (j - S k)) by lia. exact Hl.
    + intros [Hk Hl]. destruct (decide (j = k)) as [-> | Hne].
      * rewrite Nat.sub_diag in Hl. simpl in Hl. left. congruence.
      * right. split; [lia|].
        replace (j - k)%nat with (S (j - S k)) in Hl by lia. exact Hl.
Qed.

Lemma candidates_In all_entries i j x :
  In (j, x) (candidates all_entries i) <-> (i < j)%nat /\ all_entries !! j = Some x.
Proof.
  unfold candidates. rewrite enumerate_In, lookup_drop.
  split; intros [Hj Hx]; (split; [lia|]).
  - replace (S i + (j - S i))%nat with j in Hx by lia. exact Hx.
  - replace (S i + (j - S i))%nat with j by lia. exact Hx.
Qed.

Lemma enumerate_drop {A} (l : list A) i x :
  l !! i = Some x ->
  enumerate_from i (drop i l) = (i, x) :: enumerate_from (S i) (drop (S i) l).
Proof. intros H. rewrite (drop_S l x i H). reflexivity. Qed.

(** *** The inner loop *)

Lemma picked_ext seed used used' items :
  (forall j x, In (j, x) items -> j ∈ used <-> j ∈ used') ->
  picked seed used items = picked seed used' items.
Proof.
  intros H. unfold picked. apply filter_ext_in. intros [j x] Hin. simpl.
  f_equal. f_equal. apply bool_decide_ext. exact (H j x Hin).
Qed.

Lemma scan_fold seed items : forall cluster used,
  NoDup (map fst items) ->
  fold_left (scan_step seed) items (cluster, used)
  = (grow cluster (picked seed used items),
     used ∪ list_to_set (map fst (picked seed used items))).
Proof.
  induction items as [|[j other] items IH]; intros cluster used Hnd.
  - simpl. f_equal. apply set_eq. intros x.
    rewrite elem_of_union, elem_of_empty. tauto.
  - simpl in Hnd. apply NoDup_cons in Hnd as [Hj Hnd].
    cbn [fold_left scan_step].
    unfold picked at 1 2. cbn [List.filter fst snd].
    destruct (decide (j ∈ used)) as [Hin | Hout].
    + rewrite (bool_decide_eq_true_2 _ Hin). cbn [negb andb].
      apply IH. exact Hnd.
    + rewrite (bool_decide_eq_false_2 _ Hout). cbn [negb andb].
      destruct (similar seed other).
      * rewrite IH by exact Hnd.
        assert (picked seed (used ∪ {[j]}) items = picked seed used items) as ->.
        { apply picked_ext. intros j' x Hin. rewrite elem_of_union, elem_of_singleton.
          split; [|tauto]. intros [H | ->]; [exact H|].
          exfalso. apply Hj. apply list_elem_of_In.
          change j with (fst (j, x)). apply in_map. exact Hin. }
        f_equal. cbn [map fst list_to_set]. apply set_eq. intros x.
        rewrite !elem_of_union, elem_of_singleton. tauto.
      * apply IH. exact Hnd.
Qed.

(** *** The fields of a grown cluster *)

Lemma grow_cons c p ps : grow c (p :: ps) = grow (add_entry c (fst p) (snd p)) ps.
Proof. reflexivity. Qed.

Lemma grow_refs ps : forall c, c_refs (grow c ps) = c_refs c ++ map fst ps.
Proof.
  induction ps as [|p ps IH]; intros c.
  - simpl. rewrite app_nil_r. reflexivity.
  - rewrite grow_cons, IH. simpl. rewrite <- app_assoc. reflexivity.
Qed.

Lemma grow_entries ps : forall c, c_entries (grow c ps) = c_entries c ++ map snd ps.
Proof.
  induction ps as [|p ps IH]; intros c.
  - simpl. rewrite app_nil_r. reflexivity.
  - rewrite grow_cons, IH. simpl. rewrite <- app_assoc. reflexivity.
Qed.

Lemma grow_sources ps : forall c,
  c_sources (grow c ps) = c_sources c ∪ list_to_set (map (fun p => source (snd p)) ps).
Proof.
  induction ps as [|p ps IH]; intros c.
  - simpl. apply set_eq. intros x. rewrite elem_of_union, elem_of_empty. tauto.
  - rewrite grow_cons, IH. simpl. apply set_eq. intros x.
    rewrite !elem_of_union. tauto.
Qed.

Lemma grow_topics ps : forall c,
  c_topics (grow c ps)
  = c_topics c ∪ list_to_set (concat (map (fun p => source_topics (snd p)) ps)).
Proof.
  induction ps as [|p ps IH]; intros c.
  - simpl. apply set_eq. intros x. rewrite elem_of_union, elem_of_empty. tauto.
  - rewrite grow_cons, IH. simpl. apply set_eq. intros x.
    rewrite list_to_set_app, !elem_of_union. tauto.
Qed.

Lemma grow_keywords ps : forall c,
  c_keywords (grow c ps)
  = counter_update (c_keywords c) (concat (map (fun p => keywords (snd p)) ps)).
Proof.
  induction ps as [|p ps IH]; intros c; [reflexivity|].
  rewrite grow_cons, IH. simpl.
  unfold counter_update. rewrite fold_left_app. reflexivity.
Qed.

(** *** The outer loop *)

Lemma candidates_NoDup all_entries i : NoDup (map fst (candidates all_entries i)).
Proof. unfold candidates. rewrite enumerate_fst. apply NoDup_seq. Qed.

Lemma used_by_snoc cs c : used_by (cs ++ [c]) = used_by cs ∪ list_to_set (c_refs c).
Proof.
  unfold used_by. rewrite map_app, concat_app, list_to_set_app_L.
  simpl. rewrite app_nil_r. reflexivity.
Qed.

Lemma cluster_at_refs all_entries earlier s seed :
  c_refs (cluster_at all_entries earlier s seed)
  = s :: map fst (picked seed earlier (candidates all_entries s)).
Proof. unfold cluster_at. rewrite grow_refs. reflexivity. Qed.

Lemma cluster_step_spec all_entries cs used i entry :
  cluster_step all_entries (cs, used) (i, entry)
  = if decide (i ∈ used) then (cs, used)
    else (cs ++ [cluster_at all_entries used i entry],
          used ∪ list_to_set (c_refs (cluster_at all_entries used i entry))).
Proof.
  unfold cluster_step. destruct (decide (i ∈ used)) as [Hin | Hout]; [reflexivity|].
  fold (candidates all_entries i).
  rewrite scan_fold by apply candidates_NoDup.
  assert (picked entry (used ∪ {[i]}) (candidates all_entries i)
          = picked entry used (candidates all_entries i)) as ->.
  { apply picked_ext. intros j x Hin. apply candidates_In in Hin as [Hlt _].
    rewrite elem_of_union, elem_of_singleton. split; [|tauto].
    intros [H | ->]; [exact H | lia]. }
  f_equal. rewrite cluster_at_refs. cbn [list_to_set]. apply set_eq. intros x.
  rewrite !elem_of_union, elem_of_singleton. tauto.
Qed.

Lemma inv_step all_entries cs used i entry :
  all_entries !! i = Some entry ->
  inv all_entries i (cs, used) ->
  inv all_entries (S i) (cluster_step all_entries (cs, used) (i, entry)).
Proof.
  intros Hi (Hused & Hbelow & Hcs). simpl in Hused, Hbelow, Hcs.
  rewrite cluster_step_spec. destruct (decide (i ∈ used)) as [Hin | Hout].
  - split; [exact Hused|]. split; simpl.
    + intros j Hj. destruct (decide (j = i)) as [-> | Hne]; [exact Hin|].
      apply Hbelow. lia.
    + intros k c Hk. destruct (Hcs k c Hk) as (s & seed & Hs & Hseed).
      exists s, seed. split; [lia | exact Hseed].
  - split; [|split]; simpl.
    + rewrite used_by_snoc, Hused. reflexivity.
    + intros j Hj. rewrite elem_of_union. destruct (decide (j = i)) as [-> | Hne].
      * right. rewrite cluster_at_refs. apply elem_of_list_to_set. left.
      * left. apply Hbelow. lia.
    + intros k c Hk. apply lookup_app_Some in Hk as [Hk | [Hlen Hk]].
      * destruct (Hcs k c Hk) as (s & seed & Hs & Hseed).
        exists s, seed. split; [lia|].
        rewrite take_app_le by (apply lookup_lt_Some in Hk; lia). exact Hseed.
      * destruct (k - length cs)%nat eqn:E; [|destruct n; discriminate].
        simpl in Hk. injection Hk as <-.
        assert (k = length cs) as -> by lia.
        exists i, entry. split; [lia|].
        rewrite take_app_length, <- Hused.
        repeat split; auto.
Qed.

Lemma inv_fold all_entries : forall m i st,
  (i + m = length all_entries)%nat ->
  inv all_entries i st ->
  inv all_entries (length all_entries)
      (fold_left (cluster_step all_entries)
                 (enumerate_from i (drop i all_entries)) st).
Proof.
  induction m as [|m IH]; intros i st Hm Hinv.
  - assert (i = length all_entries) as -> by lia.
    rewrite drop_all. exact Hinv.
  - destruct (lookup_lt_is_Some_2 all_entries i ltac:(lia)) as [entry Hi].
    rewrite (enumerate_drop _ _ _ Hi). cbn [fold_left].
    apply IH; [lia|]. destruct st as [cs used]. apply inv_step; assumption.
Qed.

Lemma inv_init all_entries : inv all_entries 0 ([], ∅).
Proof.
  split; [reflexivity|]. split; simpl.
  - intros j Hj. lia.
  - intros k c Hk. discriminate.
Qed.

(** Every cluster of the result is the one seeded at some position [s],
    given the positions held by the clusters before it, and every position
    is held by some cluster. *)
Lemma cluster_entries_inv all_entries :
  let cs := cluster_entries all_entries in
  (forall j, (j < length all_entries)%nat -> j ∈ used_by cs) /\
  (forall k c, cs !! k = Some c ->
     exists s seed, seeded all_entries (used_by (take k cs)) c s seed).
Proof.
  pose proof (inv_fold all_entries (length all_entries) 0 ([], ∅)
                ltac:(lia) (inv_init all_entries)) as (Hused & Hbelow & Hcs).
  rewrite drop_0 in Hused, Hbelow, Hcs.
  unfold cluster_entries. cbv zeta. split.
  - intros j Hj. rewrite <- Hused. apply Hbelow. exact Hj.
  - intros k c Hk. destruct (Hcs k c Hk) as (s & seed & _ & Hseed).
    exists s, seed. exact Hseed.
Qed.

(** *** Members of a cluster *)

Lemma similar_spec seed other :
  similar seed other = true
  <-> (0.15 < _calculate_similarity (keywords seed) (keywords other))%Q.
Proof.
  unfold similar. rewrite negb_true_iff. split.
  - intros H. apply Qnot_le_lt. intros Hle. apply Qle_bool_iff in Hle. congruence.
  - intros H. destruct (Qle_bool _ _) eqn:E; [|reflexivity].
    apply Qle_bool_iff in E. exfalso. exact (Qlt_not_le _ _ H E).
Qed.

Lemma picked_In seed used items j other :
  In (j, other) (picked seed used items)
  <-> In (j, other) items /\ (j ∉ used) /\ similar seed other = true.
Proof.
  unfold picked. rewrite filter_In. cbn [fst snd].
  rewrite andb_true_iff, negb_true_iff, bool_decide_eq_false. tauto.
Qed.

Lemma cluster_at_member all_entries earlier s seed j :
  j ∈ c_refs (cluster_at all_entries earlier s seed)
  <-> j = s \/ ((s < j)%nat /\ (j ∉ earlier) /\
                exists other, all_entries !! j = Some other
                              /\ similar seed other = true).
Proof.
  rewrite cluster_at_refs, elem_of_cons, list_elem_of_In, in_map_iff.
  split; (intros [H | H]; [left; exact H | right]).
  - destruct H as ([j' other] & <- & Hin). simpl.
    apply picked_In in Hin as (Hc & Hout & Hsim).
    apply candidates_In in Hc as [Hlt Hlook]. eauto.
  - destruct H as (Hlt & Hout & other & Hlook & Hsim).
    exists (j, other). split; [reflexivity|].
    apply picked_In. split; [|auto]. apply candidates_In. auto.
Qed.

Lemma filter_fst_NoDup {A} (f : nat * A -> bool) (l : list (nat * A)) :
  NoDup (map fst l) -> NoDup (map fst (List.filter f l)).
Proof.
  induction l as [|p l IH]; simpl; [auto|].
  intros H. apply NoDup_cons in H as [Hp Hl]. destruct (f p); simpl; [|auto].
  apply NoDup_cons. split; [|auto].
  intros Hin. apply Hp. apply list_elem_of_In in Hin. apply list_elem_of_In.
  apply in_map_iff in Hin as (q & Hq & Hin). apply in_map_iff.
  exists q. split; [exact Hq|]. apply filter_In in Hin. tauto.
Qed.

Lemma cluster_at_NoDup all_entries earlier s seed :
  NoDup (c_refs (cluster_at all_entries earlier s seed)).
Proof.
  rewrite cluster_at_refs. apply NoDup_cons. split.
  - intros Hin. apply list_elem_of_In, in_map_iff in Hin as ([j o] & Hj & Hin).
    simpl in Hj. subst j. apply picked_In in Hin as (Hc & _).
    apply candidates_In in Hc. lia.
  - apply filter_fst_NoDup, candidates_NoDup.
Qed.

Lemma cluster_at_entries all_entries earlier s seed :
  all_entries !! s = Some seed ->
  Forall2 (fun j e => all_entries !! j = Some e)
          (c_refs (cluster_at all_entries earlier s seed))
          (c_entries (cluster_at all_entries earlier s seed)).
Proof.
  intros Hs. rewrite cluster_at_refs. unfold cluster_at. rewrite grow_entries.
  simpl. constructor; [exact Hs|].
  assert (forall p, In p (picked seed earlier (candidates all_entries s)) ->
                    all_entries !! (fst p) = Some (snd p)) as Hall.
  { intros [j o] Hin. apply picked_In in Hin as (Hc & _).
    apply candidates_In in Hc. tauto. }
  induction (picked seed earlier (candidates all_entries s)) as [|p ps IH];
    simpl; constructor.
  - apply Hall. left. reflexivity.
  - apply IH. intros q Hq. apply Hall. right. exact Hq.
Qed.

(** *** The clusters of a run *)

Section Run.
Variable all_entries : list Entry.

Let cs := cluster_entries all_entries.

Lemma run_seeded k c :
  cs !! k = Some c ->
  exists s seed, seeded all_entries (used_by (take k cs)) c s seed.
Proof. apply (cluster_entries_inv all_entries). Qed.

Lemma run_covered j : (j < length all_entries)%nat -> j ∈ used_by cs.
Proof. apply (cluster_entries_inv all_entries). Qed.

Lemma used_by_elem (l : list Cluster) j :
  j ∈ used_by l <-> exists k c, l !! k = Some c /\ j ∈ c_refs c.
Proof.
  unfold used_by. rewrite elem_of_list_to_set, list_elem_of_In, in_concat.
  split.
  - intros (r & Hr & Hj). apply in_map_iff in Hr as (c & <- & Hc).
    apply list_elem_of_In, list_elem_of_lookup in Hc as [k Hk].
    exists k, c. split; [exact Hk | apply list_elem_of_In; exact Hj].
  - intros (k & c & Hk & Hj). exists (c_refs c). split.
    + apply in_map, list_elem_of_In, list_elem_of_lookup. eauto.
    + apply list_elem_of_In. exact Hj.
Qed.

Lemma used_by_take k j :
  j ∈ used_by (take k cs)
  <-> exists k' c', (k' < k)%nat /\ cs !! k' = Some c' /\ j ∈ c_refs c'.
Proof.
  rewrite used_by_elem. split.
  - intros (k' & c' & Hk' & Hj). apply lookup_take_Some in Hk' as [Hk' Hlt].
    eauto.
  - intros (k' & c' & Hlt & Hk' & Hj). exists k', c'.
    split; [|exact Hj]. apply lookup_take_Some. auto.
Qed.

(** A position held by a cluster is held by no earlier cluster. *)
Lemma run_fresh k c j :
  cs !! k = Some c -> j ∈ c_refs c -> j ∉ used_by (take k cs).
Proof.
  intros Hk Hj. destruct (run_seeded k c Hk) as (s & seed & Hs & Hout & _ & ->).
  apply cluster_at_member in Hj as [-> | (_ & Hj & _)]; assumption.
Qed.

Lemma run_unique k k' c c' j :
  cs !! k = Some c -> cs !! k' = Some c' ->
  j ∈ c_refs c -> j ∈ c_refs c' -> k = k'.
Proof.
  intros Hk Hk' Hj Hj'.
  destruct (Nat.lt_trichotomy k k') as [Hlt | [Heq | Hlt]]; [|exact Heq|]; exfalso.
  - apply (run_fresh k' c' j Hk' Hj'). apply used_by_take. eauto.
  - apply (run_fresh k c j Hk Hj). apply used_by_take. eauto.
Qed.

Lemma run_in_range k c j :
  cs !! k = Some c -> j ∈ c_refs c -> (j < length all_entries)%nat.
Proof.
  intros Hk Hj. destruct (run_seeded k c Hk) as (s & seed & Hs & _ & _ & ->).
  apply cluster_at_member in Hj as [-> | (_ & _ & o & Ho & _)];
    eapply lookup_lt_Some; eassumption.
Qed.

Lemma run_NoDup_take k : NoDup (concat (map c_refs (take k cs))).
Proof.
  induction k as [|k IH]; [constructor|].
  destruct (cs !! k) as [c|] eqn:Hk.
  - rewrite (take_S_r _ _ _ Hk), map_app, concat_app. simpl. rewrite app_nil_r.
    apply NoDup_app. split; [exact IH|]. split.
    + intros j Hin Hj. apply (run_fresh k c j Hk Hj).
      unfold used_by. apply elem_of_list_to_set. exact Hin.
    + destruct (run_seeded k c Hk) as (s & seed & _ & _ & _ & ->).
      apply cluster_at_NoDup.
  - apply lookup_ge_None in Hk.
    rewrite take_ge in IH |- * by lia. exact IH.
Qed.

Lemma run_NoDup : NoDup (concat (map c_refs cs)).
Proof.
  pose proof (run_NoDup_take (length cs)) as H.
  rewrite take_ge in H by lia. exact H.
Qed.

Lemma run_refs_perm : concat (map c_refs cs) ≡ₚ seq 0 (length all_entries).
Proof.
  apply NoDup_Permutation; [apply run_NoDup | apply NoDup_seq |].
  intros j. rewrite elem_of_seq. split.
  - intros Hj. assert (j ∈ used_by cs) as Hu
      by (unfold used_by; apply elem_of_list_to_set; exact Hj).
    apply used_by_elem in Hu as (k & c & Hk & Hjc).
    pose proof (run_in_range k c j Hk Hjc). lia.
  - intros [_ Hj]. pose proof (run_covered j ltac:(lia)) as Hu.
    unfold used_by in Hu. apply elem_of_list_to_set in Hu. exact Hu.
Qed.

Lemma run_entries k c :
  cs !! k = Some c ->
  Forall2 (fun j e => all_entries !! j = Some e) (c_refs c) (c_entries c).
Proof.
  intros Hk. destruct (run_seeded k c Hk) as (s & seed & Hs & _ & _ & ->).
  apply cluster_at_entries. exact Hs.
Qed.

(** Seeds come in increasing order. *)
Lemma run_seeds_increase k k' c c' s s' seed seed' :
  cs !! k = Some c -> cs !! k' = Some c' -> (k' < k)%nat ->
  seeded all_entries (used_by (take k cs)) c s seed ->
  seeded all_entries (used_by (take k' cs)) c' s' seed' ->
  (s' < s)%nat.
Proof.
  intros Hk Hk' Hlt (_ & Hout & _ & _) (_ & _ & Hbelow' & ->).
  destruct (Nat.lt_trichotomy s' s) as [H | [H | H]]; [exact H| |]; exfalso.
  - subst s'. apply Hout. apply used_by_take. exists k'. eexists.
    repeat split; [exact Hlt | exact Hk' |].
    apply cluster_at_member. left. reflexivity.
  - apply Hout. specialize (Hbelow' s H).
    apply used_by_take in Hbelow' as (k'' & c'' & Hlt'' & Hk'' & Hj).
    apply used_by_take. exists k'', c''. split; [lia | auto].
Qed.

End Run.

(** *** Entries with the same tokens, entries without tokens *)

Lemma similar_same_tokens seed a b :
  list_to_set (C := gset string) (keywords a) = list_to_set (keywords b) ->
  similar seed a = similar seed b.
Proof.
  intros H. unfold similar.
  rewrite (SimilarityProofs.similarity_sets (keywords seed) (keywords seed)
             (keywords a) (keywords b) eq_refl H).
  reflexivity.
Qed.

Lemma similar_equal_tokens a b :
  list_to_set (C := gset string) (keywords a) = list_to_set (keywords b) ->
  keywords a <> [] -> similar a b = true.
Proof.
  intros H Hne. apply similar_spec.
  rewrite (SimilarityProofs.similarity_sets (keywords a) (keywords a)
             (keywords b) (keywords a) eq_refl (eq_sym H)).
  rewrite (SimilarityProofs.similarity_self _ Hne). reflexivity.
Qed.

Lemma similar_no_tokens_r seed other : keywords other = [] -> similar seed other = false.
Proof.
  intros H. unfold similar. rewrite H, SimilarityProofs.similarity_empty_r.
  reflexivity.
Qed.

Lemma similar_no_tokens_l seed other : keywords seed = [] -> similar seed other = false.
Proof.
  intros H. unfold similar. rewrite H, SimilarityProofs.similarity_empty_l.
  reflexivity.
Qed.

Lemma picked_no_tokens seed used items : keywords seed = [] -> picked seed used items = [].
Proof.
  intros H. unfold picked. induction items as [|p items IH]; [reflexivity|].
  simpl. rewrite (similar_no_tokens_l seed (snd p) H), andb_false_r. exact IH.
Qed.

Section RunPairs.
Variable all_entries : list Entry.

Let cs := cluster_entries all_entries.

(** The later of two entries with the same non-empty set of tokens is in
    the cluster of the earlier one. *)
Lemma run_same_tokens p q e_p e_q k c :
  all_entries !! p = Some e_p -> all_entries !! q = Some e_q -> (p < q)%nat ->
  list_to_set (C := gset string) (keywords e_p) = list_to_set (keywords e_q) ->
  keywords e_p <> [] ->
  cs !! k = Some c -> p ∈ c_refs c -> q ∈ c_refs c.
Proof.
  intros Hp Hq Hlt Hset Hne Hk Hpc.
  destruct (run_seeded all_entries k c Hk) as (s & seed & Hseed).
  pose proof Hseed as (Hs & Hout & Hbelow & Hc).
  rewrite Hc in Hpc |- *.
  apply cluster_at_member. right.
  assert ((s <= p)%nat /\ similar seed e_q = true) as [Hsp Hsim].
  { apply cluster_at_member in Hpc as [-> | (Hlt' & _ & o & Ho & Hsim)].
    - split; [lia|]. assert (seed = e_p) as -> by congruence.
      apply similar_equal_tokens; assumption.
    - split; [lia|]. assert (o = e_p) as -> by congruence.
      rewrite <- (similar_same_tokens seed e_p e_q Hset). exact Hsim. }
  split; [lia|]. split; [|eauto].
  intros Hin. apply used_by_take in Hin as (k' & c' & Hlt' & Hk' & Hqc').
  destruct (run_seeded all_entries k' c' Hk') as (s' & seed' & Hseed').
  pose proof (run_seeds_increase all_entries k k' c c' s s' seed seed'
                Hk Hk' Hlt' Hseed Hseed') as Hss.
  pose proof Hseed' as (Hs' & Hout' & Hbelow' & Hc').
  assert (p ∈ c_refs c') as Hpc'.
  { rewrite Hc' in Hqc' |- *.
    apply cluster_at_member in Hqc' as [-> | (_ & _ & o & Ho & Hsim')]; [lia|].
    assert (o = e_q) as -> by congruence.
    apply cluster_at_member. right. split; [lia|]. split.
    - intros Hin. apply used_by_take in Hin as (k'' & c'' & Hlt'' & Hk'' & Hpc'').
      rewrite <- Hc in Hpc.
      pose proof (run_unique all_entries k k'' c c'' p Hk Hk'' Hpc Hpc''). lia.
    - exists e_p. split; [exact Hp|].
      rewrite (similar_same_tokens seed' e_p e_q Hset). exact Hsim'. }
  rewrite <- Hc in Hpc.
  pose proof (run_unique all_entries k k' c c' p Hk Hk' Hpc Hpc'). lia.
Qed.

(** An entry without tokens is alone in its cluster. *)
Lemma run_no_tokens i e k c :
  all_entries !! i = Some e -> keywords e = [] ->
  cs !! k = Some c -> i ∈ c_refs c -> c = new_cluster i e.
Proof.
  intros Hi He Hk Hic.
  destruct (run_seeded all_entries k c Hk) as (s & seed & Hs & _ & _ & ->).
  apply cluster_at_member in Hic as [-> | (_ & _ & o & Ho & Hsim)].
  - assert (seed = e) as -> by congruence.
    unfold cluster_at. rewrite (picked_no_tokens e _ _ He). reflexivity.
  - assert (o = e) as -> by congruence.
    rewrite (similar_no_tokens_r seed e He) in Hsim. discriminate.
Qed.

End RunPairs.

End ClusterProofs.

(** ** Doubles: rounding keeps the sign and the order of magnitude *)

Module FloatFacts.
Import Binary64.

Local Open Scope Z_scope.

Lemma digits2_pos_size p : digits2_pos p = Pos.size p.
Proof. induction p as [p IH|p IH|]; simpl; [rewrite IH..|]; reflexivity. Qed.

Lemma digits_log2 (p : positive) : Zdigits2 (Z.pos p) = Z.log2 (Z.pos p) + 1.
Proof.
  unfold Zdigits2. rewrite digits2_pos_size.
  destruct p as [p|p|]; simpl; try reflexivity; rewrite Pos2Z.inj_succ; lia.
Qed.

Lemma digits_pos m : 0 < m -> Zdigits2 m = Z.log2 m + 1.
Proof. destruct m as [|p|p]; try lia. intros _. apply digits_log2. Qed.

Lemma digits_ge_1 m : 0 < m -> 1 <= Zdigits2 m.
Proof. intros H. rewrite digits_pos by exact H. pose proof (Z.log2_nonneg m). lia. Qed.

Lemma digits_mono a b : 0 < a -> a <= b -> Zdigits2 a <= Zdigits2 b.
Proof.
  intros Ha Hab. rewrite !digits_pos by lia.
  pose proof (Z.log2_le_mono a b Hab). lia.
Qed.

Lemma digits_succ a : 0 < a -> Zdigits2 (a + 1) <= Zdigits2 a + 1.
Proof.
  intros Ha. rewrite !digits_pos by lia.
  pose proof (Z.log2_succ_le a). unfold Z.succ in *. lia.
Qed.

Lemma digits_shiftr a n :
  0 < a -> 0 <= n -> n < Zdigits2 a -> 
  0 < Z.shiftr a n /\ Zdigits2 (Z.shiftr a n) = Zdigits2 a - n.
Proof.
  intros Ha Hn Hlt. rewrite digits_pos in Hlt by exact Ha.
  assert (0 < Z.shiftr a n) as Hpos.
  { rewrite Z.shiftr_div_pow2 by exact Hn.
    apply Z.div_str_pos. split; [apply Z.pow_pos_nonneg; lia|].
    apply Z.log2_le_pow2; [exact Ha | lia]. }
  split; [exact Hpos|].
  rewrite !digits_pos by assumption.
  rewrite Z.log2_shiftr by exact Ha. lia.
Qed.

Lemma digits_mul_pow2 a n : 0 < a -> 0 <= n -> Zdigits2 (a * 2 ^ n) = Zdigits2 a + n.
Proof.
  intros Ha Hn.
  assert (0 < a * 2 ^ n) by (apply Z.mul_pos_pos; [exact Ha | apply Z.pow_pos_nonneg; lia]).
  rewrite !digits_pos by assumption. rewrite Z.log2_mul_pow2 by lia. lia.
Qed.

Lemma digits_mul a b :
  0 < a -> 0 < b ->
  Zdigits2 a + Zdigits2 b - 1 <= Zdigits2 (a * b) <= Zdigits2 a + Zdigits2 b.
Proof.
  intros Ha Hb. assert (0 < a * b) by lia.
  rewrite !digits_pos by assumption.
  pose proof (Z.log2_mul_below a b Ha Hb).
  pose proof (Z.log2_mul_above a b ltac:(lia) ltac:(lia)). lia.
Qed.

Lemma digits_add a b :
  0 < a -> 0 < b ->
  Z.max (Zdigits2 a) (Zdigits2 b) <= Zdigits2 (a + b)
  <= Z.max (Zdigits2 a) (Zdigits2 b) + 1.
Proof.
  intros Ha Hb. split.
  - apply Z.max_lub; apply digits_mono; lia.
  - destruct (Z.le_ge_cases a b) as [Hab | Hab].
    + rewrite (Z.max_r (Zdigits2 a)) by (apply digits_mono; lia).
      transitivity (Zdigits2 (b * 2 ^ 1)).
      * apply digits_mono; lia.
      * rewrite digits_mul_pow2 by lia. lia.
    + rewrite (Z.max_l (Zdigits2 a)) by (apply digits_mono; lia).
      transitivity (Zdigits2 (a * 2 ^ 1)).
      * apply digits_mono; lia.
      * rewrite digits_mul_pow2 by lia. lia.
Qed.

(** Shifting right. *)
Lemma shr_1_m mrs : 0 <= shr_m mrs -> shr_m (shr_1 mrs) = Z.shiftr (shr_m mrs) 1.
Proof.
  destruct mrs as [m r s]. cbn [shr_m].
  destruct m as [|[p|p|]|p]; try lia; intros _; reflexivity.
Qed.

Lemma iter_shr_m p : forall mrs,
  0 <= shr_m mrs -> shr_m (SpecFloat.iter_pos shr_1 p mrs) = Z.shiftr (shr_m mrs) (Z.pos p).
Proof.
  induction p as [p IH|p IH|]; intros mrs Hm; cbn [SpecFloat.iter_pos].
  - assert (0 <= shr_m (shr_1 mrs)) as H1
      by (rewrite shr_1_m by exact Hm; apply Z.shiftr_nonneg; exact Hm).
    assert (0 <= shr_m (SpecFloat.iter_pos shr_1 p (shr_1 mrs))) as H2
      by (rewrite IH by exact H1; apply Z.shiftr_nonneg; exact H1).
    rewrite IH by exact H2. rewrite IH by exact H1. rewrite shr_1_m by exact Hm.
    rewrite !Z.shiftr_shiftr by lia. f_equal. lia.
  - assert (0 <= shr_m (SpecFloat.iter_pos shr_1 p mrs)) as H2
      by (rewrite IH by exact Hm; apply Z.shiftr_nonneg; exact Hm).
    rewrite IH by exact H2. rewrite IH by exact Hm.
    rewrite !Z.shiftr_shiftr by lia. f_equal. lia.
  - apply shr_1_m. exact Hm.
Qed.

Lemma shr_record_m m l : shr_m (shr_record_of_loc m l) = m.
Proof. destruct l as [|[]]; reflexivity. Qed.

Lemma loc_of_shr_record_of_loc m l : loc_of_shr_record (shr_record_of_loc m l) = l.
Proof. destruct l as [|[]]; reflexivity. Qed.

Lemma shr_m_shift mrs e n :
  0 <= shr_m mrs ->
  shr_m (fst (shr mrs e n)) = Z.shiftr (shr_m mrs) (Z.max 0 n)
  /\ snd (shr mrs e n) = e + Z.max 0 n.
Proof.
  intros Hm. destruct n as [|p|p]; cbn [shr fst snd].
  - rewrite Z.shiftr_0_r. split; [reflexivity | lia].
  - rewrite iter_shr_m by exact Hm. split; [f_equal; lia | lia].
  - rewrite Z.shiftr_0_r. split; [reflexivity | lia].
Qed.

Lemma round_nearest_even_bounds m l :
  m <= round_nearest_even m l <= m + 1.
Proof. destruct l as [|[]]; simpl; [| destruct (Z.even m) | |]; lia. Qed.

(** The sign of a rounded number is the sign given: no mantissa that is not
    negative rounds to NaN. *)
Lemma binary_round_aux_sign s mx ex lx :
  0 <= mx ->
  match binary_round_aux prec emax s mx ex lx with
  | S754_zero s' | S754_infinity s' | S754_finite s' _ _ => s' = s
  | S754_nan => False
  end.
Proof.
  intros Hm. unfold binary_round_aux, shr_fexp.
  destruct (shr (shr_record_of_loc mx lx) ex _) as [mrs' e'] eqn:E1.
  pose proof (shr_m_shift (shr_record_of_loc mx lx) ex
                (fexp prec emax (Zdigits2 mx + ex) - ex)) as [H1 _].
  { rewrite shr_record_m. exact Hm. }
  rewrite E1, shr_record_m in H1. cbn [fst] in H1.
  assert (0 <= shr_m mrs') as Hm' by (rewrite H1; apply Z.shiftr_nonneg; exact Hm).
  pose proof (round_nearest_even_bounds (shr_m mrs') (loc_of_shr_record mrs')) as Hr.
  set (m1 := round_nearest_even _ _) in *.
  destruct (shr (shr_record_of_loc m1 loc_Exact) e' _) as [mrs'' e''] eqn:E2.
  pose proof (shr_m_shift (shr_record_of_loc m1 loc_Exact) e'
                (fexp prec emax (Zdigits2 m1 + e') - e')) as [H2 _].
  { rewrite shr_record_m. lia. }
  rewrite E2, shr_record_m in H2. cbn [fst] in H2.
  assert (0 <= shr_m mrs'') as Hm'' by (rewrite H2; apply Z.shiftr_nonneg; lia).
  destruct (shr_m mrs'') as [|p|p]; [reflexivity | | lia].
  destruct (_ <=? _); reflexivity.
Qed.

(** A positive number in the range of the normal doubles rounds to a
    positive finite double, of the same binary order of magnitude or the
    next one. *)
Lemma binary_round_aux_finite s mx ex lx :
  0 < mx -> -1021 <= Zdigits2 mx + ex <= 1023 -> ex <= 971 ->
  exists m e,
    binary_round_aux prec emax s mx ex lx = S754_finite s m e
    /\ Zdigits2 mx + ex <= Zdigits2 (Z.pos m) + e <= Zdigits2 mx + ex + 1.
Proof.
  intros Hm Hd Hex. unfold binary_round_aux, shr_fexp.
  set (d := Zdigits2 mx) in *.
  assert (1 <= d) as Hd1 by (apply digits_ge_1; exact Hm).
  assert (fexp prec emax (d + ex) = d + ex - 53) as ->
    by (unfold fexp, emin, prec, emax; lia).
  destruct (shr (shr_record_of_loc mx lx) ex _) as [mrs' e'] eqn:E1.
  pose proof (shr_m_shift (shr_record_of_loc mx lx) ex (d + ex - 53 - ex)) as [H1 H1e].
  { rewrite shr_record_m. lia. }
  rewrite E1 in H1, H1e. rewrite shr_record_m in H1. cbn [fst snd] in H1, H1e.
  set (n := Z.max 0 (d + ex - 53 - ex)) in *.
  assert (0 <= n /\ n < d) as [Hn0 Hnd] by lia.
  destruct (digits_shiftr mx n Hm Hn0 Hnd) as [Hq Hdq]. fold d in Hdq.
  rewrite <- H1 in Hq, Hdq.
  pose proof (round_nearest_even_bounds (shr_m mrs') (loc_of_shr_record mrs')) as Hr.
  set (m1 := round_nearest_even _ _) in *.
  assert (0 < m1) as Hm1 by lia.
  assert (d - n <= Zdigits2 m1 <= d - n + 1) as Hd1'.
  { split.
    - rewrite <- Hdq. apply digits_mono; lia.
    - rewrite <- Hdq. transitivity (Zdigits2 (shr_m mrs' + 1)).
      + apply digits_mono; lia.
      + apply digits_succ. exact Hq. }
  set (d1 := Zdigits2 m1) in *.
  assert (fexp prec emax (d1 + e') = d1 + e' - 53) as ->
    by (unfold fexp, emin, prec, emax; lia).
  destruct (shr (shr_record_of_loc m1 loc_Exact) e' _) as [mrs'' e''] eqn:E2.
  pose proof (shr_m_shift (shr_record_of_loc m1 loc_Exact) e' (d1 + e' - 53 - e'))
    as [H2 H2e].
  { rewrite shr_record_m. lia. }
  rewrite E2 in H2, H2e. rewrite shr_record_m in H2. cbn [fst snd] in H2, H2e.
  set (n2 := Z.max 0 (d1 + e' - 53 - e')) in *.
  assert (0 <= n2 /\ n2 < d1) as [Hn20 Hn2d] by lia.
  destruct (digits_shiftr m1 n2 Hm1 Hn20 Hn2d) as [Hq2 Hdq2]. fold d1 in Hdq2.
  rewrite <- H2 in Hq2, Hdq2.
  destruct (shr_m mrs'') as [|p|p] eqn:Ep; [lia | | lia].
  assert ((e'' <=? emax - prec) = true) as ->.
  { apply Z.leb_le. unfold emax, prec. lia. }
  exists p, e''. split; [reflexivity|]. lia.
Qed.

Lemma iter_xO m k : Z.pos (Pos.iter xO m k) = Z.pos m * 2 ^ Z.pos k.
Proof.
  revert m. induction k as [|k IH] using Pos.peano_ind; intros m.
  - simpl. lia.
  - rewrite Pos.iter_succ, Pos2Z.inj_succ, Z.pow_succ_r by lia.
    rewrite Pos2Z.inj_xO, IH. lia.
Qed.

(** [shl_align] keeps the value, hence the order of magnitude. *)
Lemma shl_align_digits m e e' :
  Zdigits2 (Z.pos (fst (shl_align m e e'))) + snd (shl_align m e e') = Zdigits2 (Z.pos m) + e
  /\ snd (shl_align m e e') = Z.min e e'.
Proof.
  unfold shl_align. destruct (e' - e) as [|k|k] eqn:E; cbn [fst snd]; try lia.
  rewrite iter_xO, digits_mul_pow2 by lia. lia.
Qed.

Lemma shl_align_value m e e' :
  e' <= e -> Z.pos (fst (shl_align m e e')) = Z.pos m * 2 ^ (e - e').
Proof.
  intros H. unfold shl_align. destruct (e' - e) as [|k|k] eqn:E; cbn [fst]; try lia.
  - replace (e - e') with 0 by lia. lia.
  - rewrite iter_xO. f_equal. f_equal. lia.
Qed.

Lemma binary_round_sign s m e :
  match binary_round prec emax s m e with
  | S754_zero s' | S754_infinity s' | S754_finite s' _ _ => s' = s
  | S754_nan => False
  end.
Proof.
  unfold binary_round. destruct (shl_align _ _ _) as [mz ez].
  apply binary_round_aux_sign. lia.
Qed.

Lemma binary_round_finite s m e :
  -1021 <= Zdigits2 (Z.pos m) + e <= 1023 -> e <= 971 ->
  exists m' e',
    binary_round prec emax s m e = S754_finite s m' e'
    /\ Zdigits2 (Z.pos m) + e <= Zdigits2 (Z.pos m') + e' <= Zdigits2 (Z.pos m) + e + 1.
Proof.
  intros Hd He. unfold binary_round.
  pose proof (shl_align_digits m e (fexp prec emax (Z.pos (digits2_pos m) + e))) as [H1 H2].
  destruct (shl_align _ _ _) as [mz ez]. cbn [fst snd] in H1, H2.
  destruct (binary_round_aux_finite s (Z.pos mz) ez loc_Exact) as (m' & e' & Hr & Hb);
    [lia | lia | lia |].
  exists m', e'. split; [exact Hr | lia].
Qed.

Lemma positive_finite_weaken lo hi lo' hi' x :
  lo' <= lo -> hi <= hi' -> positive_finite lo hi x -> positive_finite lo' hi' x.
Proof. destruct x as [| | |[] m e]; unfold positive_finite; lia. Qed.

Lemma of_Z_finite z k :
  0 < z < 2 ^ k -> 0 <= k <= 1000 -> positive_finite 1 (k + 1) (of_Z z).
Proof.
  intros Hz Hk. destruct z as [|p|p]; try lia.
  unfold of_Z, binary_normalize.
  assert (1 <= Zdigits2 (Z.pos p) <= k) as Hd.
  { split; [apply digits_ge_1; lia|]. rewrite digits_pos by lia.
    pose proof (proj1 (Z.log2_lt_pow2 (Z.pos p) k ltac:(lia)) ltac:(lia)). lia. }
  destruct (binary_round_finite false p 0) as (m' & e' & -> & Hb); [lia | lia |].
  unfold positive_finite. lia.
Qed.

Lemma mul_finite lo1 hi1 lo2 hi2 x y :
  positive_finite lo1 hi1 x -> positive_finite lo2 hi2 y ->
  -1020 <= lo1 + lo2 -> hi1 + hi2 <= 973 ->
  positive_finite (lo1 + lo2 - 1) (hi1 + hi2 + 1) (mul x y).
Proof.
  destruct x as [| | |[] m1 e1], y as [| | |[] m2 e2]; unfold positive_finite; try tauto.
  intros H1 H2 Hlo Hhi.
  pose proof (digits_mul (Z.pos m1) (Z.pos m2) ltac:(lia) ltac:(lia)) as Hd.
  pose proof (digits_ge_1 (Z.pos m1) ltac:(lia)).
  pose proof (digits_ge_1 (Z.pos m2) ltac:(lia)).
  destruct (binary_round_aux_finite false (Z.pos (m1 * m2)) (e1 + e2) loc_Exact)
    as (m' & e' & Hr & Hb); [lia | rewrite Pos2Z.inj_mul; lia | lia |].
  unfold mul, SFmul. cbn [xorb]. rewrite Hr.
  rewrite Pos2Z.inj_mul in Hb. lia.
Qed.

Lemma add_finite lo hi x y :
  positive_finite lo hi x -> positive_finite lo hi y ->
  -1021 <= lo -> hi <= 970 ->
  positive_finite lo (hi + 2) (add x y).
Proof.
  destruct x as [| | |[] m1 e1], y as [| | |[] m2 e2]; unfold positive_finite; try tauto.
  intros H1 H2 Hlo Hhi. unfold add, SFadd. cbn [cond_Zopp].
  set (ez := Z.min e1 e2).
  pose proof (shl_align_digits m1 e1 ez) as [Ha1 Ha1'].
  pose proof (shl_align_digits m2 e2 ez) as [Ha2 Ha2'].
  set (a := fst (shl_align m1 e1 ez)) in *. set (b := fst (shl_align m2 e2 ez)) in *.
  rewrite Ha1' in Ha1. rewrite Ha2' in Ha2.
  replace (Z.min e1 ez) with ez in Ha1 by lia.
  replace (Z.min e2 ez) with ez in Ha2 by lia.
  pose proof (digits_add (Z.pos a) (Z.pos b) ltac:(lia) ltac:(lia)) as Hd.
  pose proof (digits_ge_1 (Z.pos m1) ltac:(lia)).
  pose proof (digits_ge_1 (Z.pos m2) ltac:(lia)).
  change (Z.pos a + Z.pos b) with (Z.pos (a + b)) in *. cbn [binary_normalize].
  destruct (binary_round_finite false (a + b) ez) as (m' & e' & -> & Hb); [lia | lia |].
  lia.
Qed.

Lemma zero_le_cases w :
  zero_le w -> match w with
               | S754_zero _ | S754_infinity false | S754_finite false _ _ => True
               | _ => False
               end.
Proof. destruct w as [[]|[]| |[] m e]; unfold zero_le; simpl; try tauto; discriminate. Qed.


Lemma round_aux_not_negative mx ex lx :
  0 <= mx -> not_negative (binary_round_aux prec emax false mx ex lx).
Proof.
  intros H. pose proof (binary_round_aux_sign false mx ex lx H) as Hs.
  destruct (binary_round_aux _ _ _ _ _ _) as [s|s| |s m e]; simpl; subst; tauto.
Qed.

Lemma add_not_negative x w : not_negative x -> zero_le w -> not_negative (add x w).
Proof.
  intros Hx Hw. apply zero_le_cases in Hw.
  destruct x as [[]|[]| |[] m1 e1], w as [[]|[]| |[] m2 e2]; simpl in *; try tauto.
  unfold add, SFadd. cbn [cond_Zopp].
  change (Z.pos ?a + Z.pos ?b) with (Z.pos (a + b)). cbn [binary_normalize].
  pose proof (binary_round_sign false
                (fst (shl_align m1 e1 (Z.min e1 e2)) + fst (shl_align m2 e2 (Z.min e1 e2)))
                (Z.min e1 e2)) as Hs.
  destruct (binary_round _ _ _ _ _) as [s|s| |s m e]; simpl; subst; tauto.
Qed.

Lemma mul_not_negative lo hi x y :
  not_negative x -> positive_finite lo hi y -> not_negative (mul x y).
Proof.
  destruct x as [[]|[]| |[] m1 e1], y as [| | |[] m2 e2]; simpl; try tauto.
  intros _ _. apply round_aux_not_negative. lia.
Qed.

Lemma div_core_nonneg m1 e1 m2 e2 :
  0 < m1 -> 0 < m2 -> 0 <= fst (fst (SFdiv_core_binary prec emax m1 e1 m2 e2)).
Proof.
  intros H1 H2. unfold SFdiv_core_binary.
  set (s := _ - _ - _).
  set (m' := match s with Z.pos _ => Z.shiftl m1 s | Z0 => m1 | Z.neg _ => 0 end).
  assert (0 <= m') as Hm'.
  { unfold m'. destruct s; try lia. apply Z.shiftl_nonneg. lia. }
  pose proof (Z_div_mod m' m2 ltac:(lia)) as Hdm.
  destruct (Z.div_eucl m' m2) as [q r]. cbn [fst]. nia.
Qed.

Lemma div_not_negative lo hi x y :
  not_negative x -> positive_finite lo hi y -> not_negative (div x y).
Proof.
  destruct x as [[]|[]| |[] m1 e1], y as [| | |[] m2 e2]; simpl; try tauto.
  intros _ _.
  pose proof (div_core_nonneg (Z.pos m1) e1 (Z.pos m2) e2 ltac:(lia) ltac:(lia)) as Hq.
  destruct (SFdiv_core_binary _ _ _ _ _ _) as [[q e] l]. cbn [fst] in Hq.
  apply round_aux_not_negative. exact Hq.
Qed.

Lemma nearest_not_negative n d : 0 < d -> not_negative (nearest false n d).
Proof.
  intros Hd. unfold nearest. destruct n as [|p|p]; simpl; try tauto.
  pose proof (div_core_nonneg (Z.pos p) 0 d 0 ltac:(lia) Hd) as Hq.
  destruct (SFdiv_core_binary _ _ _ _ _ _) as [[q e] l]. cbn [fst] in Hq.
  apply round_aux_not_negative. exact Hq.
Qed.

Lemma round2_not_negative x : not_negative x -> not_negative (round2 x).
Proof.
  destruct x as [[]|[]| |[] m e]; simpl; try tauto.
  intros _. apply nearest_not_negative. lia.
Qed.


Lemma not_negative_not_nan x : not_negative x -> x <> S754_nan.
Proof. intros H ->. exact H. Qed.

Lemma positive_finite_not_negative lo hi x : positive_finite lo hi x -> not_negative x.
Proof. destruct x as [| | |[] m e]; simpl; tauto. Qed.

Local Close Scope Z_scope.

End FloatFacts.

(** ** Relevance scorer *)

Module ScoreProofs.
Import Binary64 ScoreSpec FloatFacts.



Lemma lit_3_10_finite : positive_finite (-3) (-1) (lit 3 10).
Proof. vm_compute. split; discriminate. Qed.

Lemma lit_1_10_finite : positive_finite (-3) (-1) (lit 1 10).
Proof. vm_compute. split; discriminate. Qed.

Lemma one_finite : positive_finite (-3) 64 (of_Z 1).
Proof. vm_compute. split; discriminate. Qed.

Lemma topic_weight_zero_le tw t : non_negative tw -> zero_le (topic_weight tw t).
Proof.
  intros H. unfold topic_weight. destruct (tw !! t) as [w|] eqn:E; simpl.
  - exact (H t w E).
  - reflexivity.
Qed.

(** The count of a set or list that is not empty is a positive finite
    double. *)
Lemma count_finite (n : nat) :
  (0 < n)%nat -> (Z.of_nat n <= max_size)%Z -> positive_finite 1 64 (of_Z (Z.of_nat n)).
Proof.
  intros Hn Hmax. apply (of_Z_finite (Z.of_nat n) 63); [|lia].
  unfold max_size in Hmax. lia.
Qed.

(** [1.0 + (n - 1) * step] is a positive finite double, for [step] one of
    the two steps of the scorer and a count [n] of any feasible size. *)
Lemma multiplier_finite (n : nat) (step : spec_float) :
  step = lit 3 10 \/ step = lit 1 10 ->
  (Z.of_nat n <= max_size)%Z ->
  positive_finite (-3) 66 (multiplier (Z.of_nat n) step).
Proof.
  intros Hstep Hmax. unfold multiplier.
  destruct n as [|[|n]].
  - destruct Hstep as [-> | ->]; vm_compute; split; discriminate.
  - destruct Hstep as [-> | ->]; vm_compute; split; discriminate.
  - assert (positive_finite (-3) (-1) step) as Hs
      by (destruct Hstep as [-> | ->]; [apply lit_3_10_finite | apply lit_1_10_finite]).
    assert (positive_finite 1 64 (of_Z (Z.of_nat (S (S n)) - 1))) as Hz.
    { apply (of_Z_finite _ 63); [|lia]. unfold max_size in Hmax. lia. }
    pose proof (mul_finite 1 64 (-3) (-1) _ _ Hz Hs ltac:(lia) ltac:(lia)) as Hm.
    apply (add_finite (-3) 64).
    + exact one_finite.
    + eapply positive_finite_weaken; [| |exact Hm]; lia.
    + lia.
    + lia.
Qed.

Lemma source_multiplier_finite c :
  sized c -> positive_finite (-3) 66 (source_multiplier c).
Proof.
  intros (_ & Hs & _). apply (multiplier_finite _ (lit 3 10)); [left; reflexivity | exact Hs].
Qed.

Lemma entry_multiplier_finite c :
  sized c -> positive_finite (-3) 66 (entry_multiplier c).
Proof.
  intros (He & _ & _). apply (multiplier_finite _ (lit 1 10)); [right; reflexivity | exact He].
Qed.

(** The loop of [score_cluster] adds up the weights in the order of the
    iteration. *)
Lemma fold_weights tw ts : forall acc,
  fold_left (fun acc topic => add acc (topic_weight tw topic)) ts acc
  = fold_left add (map (topic_weight tw) ts) acc.
Proof. induction ts as [|t ts IH]; intros acc; simpl; [reflexivity | apply IH]. Qed.

Lemma sum_not_negative tw ts : non_negative tw -> forall acc,
  not_negative acc ->
  not_negative (fold_left (fun acc topic => add acc (topic_weight tw topic)) ts acc).
Proof.
  intros Hw. induction ts as [|t ts IH]; intros acc Hacc; simpl; [exact Hacc|].
  apply IH. apply add_not_negative; [exact Hacc | apply topic_weight_zero_le; exact Hw].
Qed.

Lemma score_cluster_product tw iteration c :
  score_cluster tw iteration c = round2 (product tw iteration c).
Proof. reflexivity. Qed.

Lemma product_not_negative tw iteration c :
  non_negative tw -> sized c -> not_negative (product tw iteration c).
Proof.
  intros Hw Hc. unfold product.
  eapply mul_not_negative; [|apply entry_multiplier_finite; exact Hc].
  eapply mul_not_negative; [|apply source_multiplier_finite; exact Hc].
  destruct (decide (c_topics c = ∅)) as [He | Hne].
  - exact (positive_finite_not_negative _ _ _ lit_3_10_finite).
  - eapply div_not_negative.
    + apply sum_not_negative; [exact Hw | exact I].
    + apply count_finite; [|apply Hc].
      destruct (size (c_topics c)) eqn:E; [|lia].
      apply size_empty_iff in E. apply leibniz_equiv in E. contradiction.
Qed.

(** With weights that are not negative the score is not negative; it is no
    NaN in particular. *)
Lemma score_not_negative tw iteration c :
  non_negative tw -> sized c -> not_negative (score_cluster tw iteration c).
Proof.
  intros Hw Hc. rewrite score_cluster_product.
  apply round2_not_negative, product_not_negative; assumption.
Qed.




End ScoreProofs.

(** ** Stable sort and the suggestion list *)

Module SortProofs.

Section Sort.
Context {A : Type} (before : A -> A -> bool).

Lemma insert_sorted_perm x l : insert_sorted before x l ≡ₚ x :: l.
Proof.
  induction l as [|y l IH]; simpl; [reflexivity|].
  destruct (before x y); [reflexivity|].
  rewrite IH. apply Permutation_swap.
Qed.

Lemma stable_sort_perm l : stable_sort before l ≡ₚ l.
Proof.
  induction l as [|x l IH]; simpl; [reflexivity|].
  rewrite insert_sorted_perm, IH. reflexivity.
Qed.

Hypothesis before_total : forall x y, before x y = false -> before y x = true.
Hypothesis before_trans :
  forall x y z, before x y = true -> before y z = true -> before x z = true.

Let ordered (x y : A) : Prop := before x y = true.

Lemma insert_sorted_sorted x l :
  StronglySorted ordered l -> StronglySorted ordered (insert_sorted before x l).
Proof.
  induction 1 as [|y l Hl IH Hy]; simpl.
  - repeat constructor.
  - destruct (before x y) eqn:Hxy.
    + constructor; [constructor; assumption|].
      constructor; [exact Hxy|].
      eapply Forall_impl; [exact Hy|]. intros z Hz.
      exact (before_trans x y z Hxy Hz).
    + constructor; [exact IH|].
      apply Forall_forall. intros z Hz.
      rewrite insert_sorted_perm in Hz. apply elem_of_cons in Hz as [-> | Hz].
      * apply before_total. exact Hxy.
      * rewrite Forall_forall in Hy. apply Hy. exact Hz.
Qed.

Lemma stable_sort_sorted l : StronglySorted ordered (stable_sort before l).
Proof.
  induction l as [|x l IH]; simpl; [constructor|].
  apply insert_sorted_sorted. exact IH.
Qed.

(** Stability: the elements of a class [P] whose members may stand before
    one another keep their order. *)
Variable P : A -> bool.
Hypothesis P_class : forall x y, P x = true -> P y = true -> before x y = true.

Lemma insert_sorted_filter x l :
  List.filter P (insert_sorted before x l) = List.filter P (x :: l).
Proof.
  induction l as [|y l IH]; [reflexivity|].
  cbn [insert_sorted]. destruct (before x y) eqn:Hxy; [reflexivity|].
  cbn [List.filter] in *. rewrite IH.
  destruct (P x) eqn:Hx, (P y) eqn:Hy; try reflexivity.
  rewrite (P_class x y Hx Hy) in Hxy. discriminate.
Qed.

Lemma stable_sort_filter l :
  List.filter P (stable_sort before l) = List.filter P l.
Proof.
  induction l as [|x l IH]; [reflexivity|].
  cbn [stable_sort]. rewrite insert_sorted_filter. cbn [List.filter].
  rewrite IH. reflexivity.
Qed.
End Sort.

Lemma take_sorted {A} (R : A -> A -> Prop) n : forall l,
  StronglySorted R l -> StronglySorted R (take n l).
Proof.
  induction n as [|n IH]; intros l Hl; [constructor|].
  destruct Hl as [|x l Hl Hx]; simpl; [constructor|].
  constructor; [apply IH; exact Hl|].
  apply Forall_forall. intros y Hy. rewrite Forall_forall in Hx.
  apply Hx. exact (subseteq_take n l y Hy).
Qed.

Lemma take_filter_prefix {A} (P : A -> bool) n : forall l,
  List.filter P (take n l) `prefix_of` List.filter P l.
Proof.
  induction n as [|n IH]; intros l; simpl; [apply prefix_nil|].
  destruct l as [|x l]; simpl; [reflexivity|].
  destruct (P x); [apply prefix_cons|]; apply IH.
Qed.

(** The same for an order that is transitive through the elements of a class
    [ok] only, on lists of such elements. *)
Section SortOn.
Context {A : Type} (before : A -> A -> bool) (ok : A -> Prop).
Hypothesis before_total : forall x y, before x y = false -> before y x = true.
Hypothesis before_trans :
  forall x y z, ok y -> before x y = true -> before y z = true -> before x z = true.

Let ordered (x y : A) : Prop := before x y = true.

Lemma insert_sorted_sorted_on x l :
  Forall ok l ->
  StronglySorted ordered l -> StronglySorted ordered (insert_sorted before x l).
Proof.
  intros Hok. induction 1 as [|y l Hl IH Hy]; simpl.
  - repeat constructor.
  - apply Forall_cons in Hok as [Hoky Hok]. destruct (before x y) eqn:Hxy.
    + constructor; [constructor; assumption|].
      constructor; [exact Hxy|].
      eapply Forall_impl; [exact Hy|]. intros z Hz.
      exact (before_trans x y z Hoky Hxy Hz).
    + constructor; [exact (IH Hok)|].
      apply Forall_forall. intros z Hz.
      rewrite insert_sorted_perm in Hz. apply elem_of_cons in Hz as [-> | Hz].
      * apply before_total. exact Hxy.
      * rewrite Forall_forall in Hy. apply Hy. exact Hz.
Qed.

Lemma stable_sort_sorted_on l :
  Forall ok l -> StronglySorted ordered (stable_sort before l).
Proof.
  induction l as [|x l IH]; intros Hok; simpl; [constructor|].
  apply Forall_cons in Hok as [_ Hok].
  apply insert_sorted_sorted_on; [|exact (IH Hok)].
  rewrite stable_sort_perm. exact Hok.
Qed.
End SortOn.

Lemma sorted_weaken_on {A} (ok : A -> Prop) (R R' : A -> A -> Prop) (l : list A) :
  (forall x y, ok x -> ok y -> R x y -> R' x y) ->
  Forall ok l -> StronglySorted R l -> StronglySorted R' l.
Proof.
  intros HR Hok Hs. induction Hs as [|x l Hl IH Hx]; constructor.
  - apply IH. apply Forall_cons in Hok as [_ Hok]. exact Hok.
  - apply Forall_cons in Hok as [Hokx Hok].
    rewrite Forall_forall in Hx, Hok. apply Forall_forall. intros y Hy.
    exact (HR x y Hokx (Hok y Hy) (Hx y Hy)).
Qed.

(** The comparison of doubles: [<] is asymmetric, and on doubles that are
    not NaN "not less than" is a total preorder. *)
Ltac compare_cases :=
  repeat match goal with
  | H : context [(?a ?= ?b)%Z] |- _ => destruct (Z.compare_spec a b)
  | |- context [(?a ?= ?b)%Z] => destruct (Z.compare_spec a b)
  | H : context [Pos.compare_cont Eq ?a ?b] |- _ =>
      change (Pos.compare_cont Eq a b) with (Pos.compare a b) in *;
      destruct (Pos.compare_spec a b)
  | |- context [Pos.compare_cont Eq ?a ?b] =>
      change (Pos.compare_cont Eq a b) with (Pos.compare a b) in *;
      destruct (Pos.compare_spec a b)
  end.

Ltac compare_solve :=
  unfold SFltb, SFleb, SFeqb, SFcompare;
  intros; compare_cases; cbn [CompOpp] in *;
  try reflexivity; try discriminate; try congruence; try (exfalso; lia).

Lemma ltb_asym x y : SFltb x y = true -> SFltb y x = false.
Proof.
  destruct x as [[]|[]| |[] m1 e1], y as [[]|[]| |[] m2 e2]; compare_solve.
Qed.

Lemma not_ltb_leb x y :
  x <> S754_nan -> y <> S754_nan -> SFltb x y = false -> SFleb y x = true.
Proof.
  destruct x as [[]|[]| |[] m1 e1], y as [[]|[]| |[] m2 e2]; compare_solve.
Qed.

Lemma leb_not_ltb x y : SFleb y x = true -> SFltb x y = false.
Proof.
  destruct x as [[]|[]| |[] m1 e1], y as [[]|[]| |[] m2 e2]; compare_solve.
Qed.

Lemma not_ltb_trans x y z :
  y <> S754_nan ->
  SFltb x y = false -> SFltb y z = false -> SFltb x z = false.
Proof.
  intros Hy. destruct y as [[]|[]| |[] m2 e2]; [| | | |congruence| |]; clear Hy;
    destruct x as [[]|[]| |[] m1 e1], z as [[]|[]| |[] m3 e3]; compare_solve.
Qed.

Lemma eqb_not_ltb v x y : SFeqb x v = true -> SFeqb y v = true -> SFltb x y = false.
Proof.
  destruct v as [[]|[]| |[] m2 e2];
    destruct x as [[]|[]| |[] m1 e1], y as [[]|[]| |[] m3 e3]; compare_solve.
Qed.

Lemma score_before_total x y : score_before x y = false -> score_before y x = true.
Proof.
  unfold score_before. intros H. apply negb_false_iff in H.
  apply negb_true_iff. apply ltb_asym. exact H.
Qed.

Lemma score_before_trans x y z :
  score y <> S754_nan ->
  score_before x y = true -> score_before y z = true -> score_before x z = true.
Proof.
  unfold score_before. rewrite !negb_true_iff. apply not_ltb_trans.
Qed.

Lemma score_class v x y :
  SFeqb (score x) v = true -> SFeqb (score y) v = true ->
  score_before x y = true.
Proof.
  unfold score_before. rewrite negb_true_iff. apply eqb_not_ltb.
Qed.

Lemma score_before_leb x y :
  score x <> S754_nan -> score y <> S754_nan ->
  score_before x y = true -> SFleb (score y) (score x) = true.
Proof.
  unfold score_before. rewrite negb_true_iff. apply not_ltb_leb.
Qed.

End SortProofs.

(** ** The statements about the clusterer *)

Module PartitionProofs.
Import ClusterSpec ClusterProofs.

Lemma collect_length feeds_data :
  length (collect_entries feeds_data) = total_entries feeds_data.
Proof.
  unfold collect_entries, total_entries.
  induction feeds_data as [|[name feed] fd IH]; [reflexivity|].
  cbn [map concat sum_list_with]. rewrite length_app, IH.
  unfold collect_feed. rewrite length_map. reflexivity.
Qed.

Lemma collect_keywords feeds_data i e :
  collect_entries feeds_data !! i = Some e ->
  keywords e = _extract_keywords (title e ++ " " ++ summary e).
Proof.
  intros H. apply list_elem_of_lookup_2, list_elem_of_In in H.
  unfold collect_entries in H. apply in_concat in H as (l & Hl & He).
  apply in_map_iff in Hl as ([name feed] & <- & _).
  unfold collect_feed in He. apply in_map_iff in He as (raw & <- & _).
  reflexivity.
Qed.

Lemma lookups_of_refs (all_entries : list Entry) js es :
  Forall2 (fun j e => all_entries !! j = Some e) js es ->
  map Some es = map (fun j => all_entries !! j) js.
Proof. induction 1 as [|j e js es H _ IH]; simpl; [|rewrite H, IH]; reflexivity. Qed.

Lemma lookups_of_seq (all_entries : list Entry) :
  map (fun j => all_entries !! j) (seq 0 (length all_entries)) = map Some all_entries.
Proof.
  apply list_eq. intros i. change (@map) with (@fmap list list_fmap).
  rewrite !list_lookup_fmap.
  destruct (decide (i < length all_entries)%nat) as [Hlt | Hge].
  - rewrite (lookup_seq_lt 0 _ i Hlt). simpl.
    destruct (lookup_lt_is_Some_2 all_entries i Hlt) as [e He].
    rewrite He. reflexivity.
  - rewrite lookup_seq_ge by lia. rewrite lookup_ge_None_2 by lia. reflexivity.
Qed.

Lemma map_Some_inj {A} (l k : list A) : map Some l = map Some k -> l = k.
Proof.
  revert k. induction l as [|x l IH]; intros [|y k]; simpl; try discriminate.
  - reflexivity.
  - intros [= -> H]. rewrite (IH k H). reflexivity.
Qed.

Lemma entries_of_refs_perm (all_entries : list Entry) js es :
  Forall2 (fun j e => all_entries !! j = Some e) js es ->
  js ≡ₚ seq 0 (length all_entries) -> es ≡ₚ all_entries.
Proof.
  intros HF Hperm. apply lookups_of_refs in HF.
  apply (Permutation_map (fun j => all_entries !! j)) in Hperm.
  rewrite <- HF, lookups_of_seq in Hperm.
  apply Permutation_sym, Permutation_map_inv in Hperm as (l & Hl & Hperm).
  apply map_Some_inj in Hl. subst l. exact Hperm.
Qed.

Lemma Forall2_concat_refs (all_entries : list Entry) (cs : list Cluster) :
  (forall c, c ∈ cs ->
     Forall2 (fun j e => all_entries !! j = Some e) (c_refs c) (c_entries c)) ->
  Forall2 (fun j e => all_entries !! j = Some e)
          (concat (map c_refs cs)) (concat (map c_entries cs)).
Proof.
  induction cs as [|c cs IH]; intros H; simpl; [constructor|].
  apply Forall2_app.
  - apply H. left.
  - apply IH. intros c' Hc'. apply H. right. exact Hc'.
Qed.

Lemma sum_lengths (cs : list Cluster) :
  sum_list_with (fun c => length (c_entries c)) cs
  = length (concat (map c_entries cs)).
Proof.
  induction cs as [|c cs IH]; simpl; [reflexivity|].
  rewrite length_app, IH. reflexivity.
Qed.

End PartitionProofs.

(** C1.  The clusters returned by [cluster_topics] partition the collected
    entries: the sizes of the clusters add up to the number of input entries,
    the entries of the clusters are the input entries (each cluster holding
    the entries at the positions it records), no position is held twice, and
    every position is held by exactly one cluster. *)
Theorem cluster_topics_partition (feeds_data : FeedsData) :
  let all_entries := collect_entries feeds_data in
  let clusters := cluster_topics feeds_data in
  sum_list_with (fun c => length (c_entries c)) clusters = total_entries feeds_data
  /\ concat (map c_entries clusters) ≡ₚ all_entries
  /\ (forall c, c ∈ clusters ->
        Forall2 (fun j e => all_entries !! j = Some e) (c_refs c) (c_entries c))
  /\ NoDup (concat (map c_refs clusters))
  /\ (forall i, (i < length all_entries)%nat ->
        exists k c, clusters !! k = Some c /\ i ∈ c_refs c /\
          forall k' c', clusters !! k' = Some c' -> i ∈ c_refs c' -> k' = k).
Proof.
  intros all_entries clusters.
  assert (forall c, c ∈ clusters ->
            Forall2 (fun j e => all_entries !! j = Some e) (c_refs c) (c_entries c))
    as Hrefs.
  { intros c Hc. apply list_elem_of_lookup in Hc as [k Hk].
    exact (ClusterProofs.run_entries all_entries k c Hk). }
  assert (concat (map c_entries clusters) ≡ₚ all_entries) as Hperm.
  { apply (PartitionProofs.entries_of_refs_perm all_entries
             (concat (map c_refs clusters))).
    - apply PartitionProofs.Forall2_concat_refs. exact Hrefs.
    - apply ClusterProofs.run_refs_perm. }
  split; [|split; [exact Hperm | split; [exact Hrefs | split]]].
  - rewrite PartitionProofs.sum_lengths, Hperm.
    apply PartitionProofs.collect_length.
  - apply ClusterProofs.run_NoDup.
  - intros i Hi.
    pose proof (ClusterProofs.run_covered all_entries i Hi) as Hu.
    apply ClusterProofs.used_by_elem in Hu as (k & c & Hk & Hic).
    exists k, c. split; [exact Hk|]. split; [exact Hic|].
    intros k' c' Hk' Hic'.
    exact (ClusterProofs.run_unique all_entries k' k c' c i Hk' Hk Hic' Hic).
Qed.

(** C7.  In the clustering pass a candidate that is not yet used joins the
    current cluster if and only if its similarity to the seed of the cluster
    strictly exceeds 0.15, whatever the other members are; an added candidate
    is appended to the entries, its keywords are counted into the keyword
    counts, and its source and source topics are added to the sets. *)
Theorem seed_decides_membership (feeds_data : FeedsData) (k : nat) (c : Cluster) :
  cluster_topics feeds_data !! k = Some c ->
  ClusterSpec.formed_from_seed (collect_entries feeds_data) (cluster_topics feeds_data) k c.
Proof.
  intros Hk. set (all_entries := collect_entries feeds_data).
  destruct (ClusterProofs.run_seeded all_entries k c Hk)
    as (s & seed & Hs & Hout & _ & Hc).
  exists s, seed. split; [exact Hs|]. cbv zeta. split; [exact Hout|]. split.
  - intros j other. rewrite ClusterProofs.picked_In, ClusterProofs.candidates_In,
      ClusterProofs.similar_spec. tauto.
  - rewrite Hc. unfold ClusterSpec.cluster_at.
    rewrite ClusterProofs.grow_refs, ClusterProofs.grow_entries,
      ClusterProofs.grow_keywords, ClusterProofs.grow_sources,
      ClusterProofs.grow_topics.
    repeat split.
Qed.

Lemma seed_decides_membership_witness :
  let c := ClusterSpec.cluster_at (collect_entries Scenario.feeds_data) ∅ 0
             {| title := "AI voice agents rise"; link := "";
                summary := "AI agents transform telecom"; published := "";
                source := "A"; source_topics := ["ai"; "telecom"];
                keywords := ["voice"; "agents"; "rise"; "agents"; "transform";
                             "telecom"] |} in
  cluster_topics Scenario.feeds_data !! 0%nat = Some c
  /\ ClusterSpec.formed_from_seed (collect_entries Scenario.feeds_data)
                      (cluster_topics Scenario.feeds_data) 0 c.
Proof.
  intros c.
  assert (cluster_topics Scenario.feeds_data !! 0%nat = Some c) as H
    by (vm_compute; reflexivity).
  split; [exact H | exact (seed_decides_membership Scenario.feeds_data 0 c H)].
Defined.

(** C10.  Two entries whose keyword lists have the same non-empty set of
    distinct tokens are in the same cluster, wherever they stand in the
    input. *)
Theorem same_tokens_same_cluster (feeds_data : FeedsData) (p q : nat) (e_p e_q : Entry) :
  collect_entries feeds_data !! p = Some e_p ->
  collect_entries feeds_data !! q = Some e_q ->
  list_to_set (C := gset string) (keywords e_p) = list_to_set (keywords e_q) ->
  keywords e_p <> [] ->
  exists k c, cluster_topics feeds_data !! k = Some c /\ p ∈ c_refs c /\ q ∈ c_refs c.
Proof.
  intros Hp Hq Hset Hne. set (all_entries := collect_entries feeds_data) in *.
  assert (keywords e_q <> []) as Hne'.
  { intros H. apply Hne. apply SimilarityProofs.list_to_set_nil_iff.
    rewrite Hset, H. reflexivity. }
  pose proof (ClusterProofs.run_covered all_entries p (lookup_lt_Some _ _ _ Hp)) as Hu.
  apply ClusterProofs.used_by_elem in Hu as (k & c & Hk & Hpc).
  pose proof (ClusterProofs.run_covered all_entries q (lookup_lt_Some _ _ _ Hq)) as Hu.
  apply ClusterProofs.used_by_elem in Hu as (k' & c' & Hk' & Hqc').
  destruct (Nat.lt_trichotomy p q) as [Hlt | [Heq | Hlt]].
  - exists k, c. split; [exact Hk|]. split; [exact Hpc|].
    exact (ClusterProofs.run_same_tokens all_entries p q e_p e_q k c
             Hp Hq Hlt Hset Hne Hk Hpc).
  - subst q. exists k, c. auto.
  - exists k', c'. split; [exact Hk'|]. split; [|exact Hqc'].
    exact (ClusterProofs.run_same_tokens all_entries q p e_q e_p k' c'
             Hq Hp Hlt (eq_sym Hset) Hne' Hk' Hqc').
Qed.

(** The same with the similarity as the hypothesis. *)
Corollary similarity_one_same_cluster (feeds_data : FeedsData) (p q : nat)
    (e_p e_q : Entry) :
  collect_entries feeds_data !! p = Some e_p ->
  collect_entries feeds_data !! q = Some e_q ->
  (_calculate_similarity (keywords e_p) (keywords e_q) == 1)%Q ->
  exists k c, cluster_topics feeds_data !! k = Some c /\ p ∈ c_refs c /\ q ∈ c_refs c.
Proof.
  intros Hp Hq H. apply SimilarityProofs.similarity_one in H as [Hne Hset].
  destruct (Nat.lt_trichotomy p q) as [Hlt | [Heq | Hlt]].
  - pose proof (ClusterProofs.run_covered _ p (lookup_lt_Some _ _ _ Hp)) as Hu.
    apply ClusterProofs.used_by_elem in Hu as (k & c & Hk & Hpc).
    exists k, c. split; [exact Hk|]. split; [exact Hpc|].
    exact (ClusterProofs.run_same_tokens _ p q e_p e_q k c Hp Hq Hlt Hset Hne Hk Hpc).
  - subst q.
    pose proof (ClusterProofs.run_covered _ p (lookup_lt_Some _ _ _ Hp)) as Hu.
    apply ClusterProofs.used_by_elem in Hu as (k & c & Hk & Hpc). eauto.
  - assert (keywords e_q <> []) as Hne'.
    { intros E. apply Hne. apply SimilarityProofs.list_to_set_nil_iff.
      rewrite Hset, E. reflexivity. }
    pose proof (ClusterProofs.run_covered _ q (lookup_lt_Some _ _ _ Hq)) as Hu.
    apply ClusterProofs.used_by_elem in Hu as (k & c & Hk & Hqc).
    exists k, c. split; [exact Hk|]. split; [|exact Hqc].
    exact (ClusterProofs.run_same_tokens _ q p e_q e_p k c Hq Hp Hlt
             (eq_sym Hset) Hne' Hk Hqc).
Qed.

Lemma same_tokens_same_cluster_witness :
  exists k c, cluster_topics SameTokens.feeds_data !! k = Some c
              /\ 0%nat ∈ c_refs c /\ 2%nat ∈ c_refs c.
Proof.
  eapply (same_tokens_same_cluster SameTokens.feeds_data 0 2).
  - vm_compute. reflexivity.
  - vm_compute. reflexivity.
  - vm_compute. reflexivity.
  - vm_compute. discriminate.
Defined.

(** C2, as stated, does not hold: a letter run that touches a digit is not
    extracted. *)
Lemma letter_runs_reading_fails : ~ letter_runs_reading "gpt4 model".
Proof. intros H. vm_compute in H. discriminate H. Qed.

Lemma string_of_list_length (r : list ascii) :
  String.length (string_of_list_ascii r) = length r.
Proof. induction r as [|c r IH]; simpl; [|rewrite IH]; reflexivity. Qed.

(** C2, amended.  [_extract_keywords] returns, in order of occurrence, the
    words of the lowercased text (maximal runs of word characters: letters,
    digits, underscore) that consist of the letters a to z only and have
    length at least 3, with the stop words removed; a letter run that touches
    a digit or another non-letter word character is dropped whole.  Every
    returned token is made of lowercase letters, has length at least 3 and is
    not a stop word. *)
Theorem extract_keywords_whole_words (text : string) :
  _extract_keywords text = KeywordSpec.whole_word_keywords text
  /\ forall w, w ∈ _extract_keywords text ->
       forallb Regex.is_az (list_ascii_of_string w) = true
       /\ (3 <= String.length w)%nat /\ (w ∉ stop_words).
Proof.
  split; [apply KeywordProofs.extract_whole_words|].
  intros w. rewrite KeywordProofs.extract_whole_words.
  unfold KeywordSpec.whole_word_keywords, KeywordSpec.drop_stop_words.
  rewrite list_elem_of_filter. intros [Hstop Hw].
  apply list_elem_of_In, in_map_iff in Hw as (r & <- & Hr).
  apply filter_In in Hr as [_ Hgood]. apply andb_true_iff in Hgood as [Haz Hlen].
  rewrite list_ascii_of_string_of_list_ascii, string_of_list_length.
  repeat split; [exact Haz | | exact Hstop].
  unfold KeywordSpec.long_enough in Hlen. apply Nat.leb_le in Hlen. exact Hlen.
Qed.

Lemma extract_keywords_whole_words_witness :
  "model" ∈ _extract_keywords "gpt4 model"
  /\ forallb Regex.is_az (list_ascii_of_string "model") = true
  /\ (3 <= String.length "model")%nat /\ ("model" ∉ stop_words).
Proof.
  assert ("model" ∈ _extract_keywords "gpt4 model") as H.
  { apply list_elem_of_In. vm_compute. left. reflexivity. }
  split; [exact H|].
  exact (proj2 (extract_keywords_whole_words "gpt4 model") "model" H).
Defined.

(** C6.  [_calculate_similarity] returns a value between 0 and 1, is
    symmetric, is 0 when either list is empty, is 1 on a non-empty list and
    itself, and on non-empty lists is the Jaccard index of the sets of
    distinct tokens, so that repeated tokens do not count. *)
Theorem similarity_jaccard (a b : list string) :
  (0 <= _calculate_similarity a b /\ _calculate_similarity a b <= 1)%Q
  /\ _calculate_similarity a b = _calculate_similarity b a
  /\ _calculate_similarity [] b = 0%Q
  /\ _calculate_similarity a [] = 0%Q
  /\ (a <> [] -> (_calculate_similarity a a == 1)%Q)
  /\ (a <> [] -> b <> [] ->
      _calculate_similarity a b = jaccard (list_to_set a) (list_to_set b))
  /\ (forall a' b',
        list_to_set (C := gset string) a = list_to_set a' ->
        list_to_set (C := gset string) b = list_to_set b' ->
        _calculate_similarity a b = _calculate_similarity a' b').
Proof.
  split; [apply SimilarityProofs.similarity_range|].
  split; [apply SimilarityProofs.similarity_sym|].
  split; [apply SimilarityProofs.similarity_empty_l|].
  split; [apply SimilarityProofs.similarity_empty_r|].
  split; [apply SimilarityProofs.similarity_self|].
  split; [apply SimilarityProofs.similarity_nonempty|].
  intros a' b'. apply SimilarityProofs.similarity_sets.
Qed.

Lemma similarity_jaccard_witness :
  let a := ["voice"; "agents"; "voice"] in
  let b := ["agents"; "tools"] in
  (_calculate_similarity a a == 1)%Q
  /\ _calculate_similarity a b = jaccard (list_to_set a) (list_to_set b)
  /\ (_calculate_similarity a b == 1 # 3)%Q.
Proof.
  intros a b.
  destruct (similarity_jaccard a a) as (_ & _ & _ & _ & Hself & _).
  destruct (similarity_jaccard a b) as (_ & _ & _ & _ & _ & Hj & _).
  split; [apply Hself; discriminate|].
  split; [apply Hj; discriminate|].
  rewrite Hj by discriminate. vm_compute. reflexivity.
Defined.

(** C9, as stated, does not hold: an entry with an empty summary still gets
    the keywords of its title, and is clustered by them. *)
Lemma empty_summary_reading_fails : ~ empty_summary_reading EmptySummaries.feeds_data.
Proof.
  intros H. destruct (H 0%nat _ eq_refl eq_refl) as [Hk _].
  vm_compute in Hk. discriminate Hk.
Qed.

Example empty_summaries_one_cluster :
  map c_refs (cluster_topics EmptySummaries.feeds_data) = [[0; 1]]%nat.
Proof. vm_compute. reflexivity. Qed.

Section Pipeline.
Variable str_title : string -> string.
Variable topic_weights : gmap string spec_float.
Variable iterations : nat -> list string.

(** C9, amended.  When the input has no entries the pipeline yields no
    suggestion.  An entry whose title and summary together yield no keyword
    (as when both are empty) has an empty keyword list, whose similarity to
    every keyword list is 0, and it is alone in its cluster. *)
Theorem no_keywords_isolated (feeds_data : FeedsData) :
  (total_entries feeds_data = 0%nat ->
   generate_suggestions str_title topic_weights iterations (cluster_topics feeds_data)
   = [])
  /\ _extract_keywords ("" ++ " " ++ "") = []
  /\ (forall i e,
        collect_entries feeds_data !! i = Some e ->
        _extract_keywords (title e ++ " " ++ summary e) = [] ->
        keywords e = []
        /\ (forall kws, _calculate_similarity (keywords e) kws = 0%Q
                        /\ _calculate_similarity kws (keywords e) = 0%Q)
        /\ exists k, cluster_topics feeds_data !! k = Some (new_cluster i e)
             /\ forall k' c', cluster_topics feeds_data !! k' = Some c' ->
                              i ∈ c_refs c' -> k' = k).
Proof.
  split; [|split; [reflexivity|]].
  - intros Hn. rewrite <- PartitionProofs.collect_length in Hn.
    unfold cluster_topics. destruct (collect_entries feeds_data); [|discriminate].
    reflexivity.
  - intros i e Hi Hnone.
    assert (keywords e = []) as He
      by (rewrite (PartitionProofs.collect_keywords _ _ _ Hi); exact Hnone).
    split; [exact He|]. split.
    + intros kws. rewrite He. split;
        [apply SimilarityProofs.similarity_empty_l
        | apply SimilarityProofs.similarity_empty_r].
    + pose proof (ClusterProofs.run_covered _ i (lookup_lt_Some _ _ _ Hi)) as Hu.
      apply ClusterProofs.used_by_elem in Hu as (k & c & Hk & Hic).
      exists k. split.
      * rewrite <- (ClusterProofs.run_no_tokens _ i e k c Hi He Hk Hic). exact Hk.
      * intros k' c' Hk' Hic'.
        exact (ClusterProofs.run_unique _ k' k c' c i Hk' Hk Hic' Hic).
Qed.

End Pipeline.

Lemma no_keywords_isolated_witness :
  let fd := NoKeywords.feeds_data in
  exists e,
    collect_entries fd !! 0%nat = Some e
    /\ _extract_keywords (title e ++ " " ++ summary e) = []
    /\ exists k, cluster_topics fd !! k = Some (new_cluster 0 e)
         /\ forall k' c', cluster_topics fd !! k' = Some c' ->
                          0%nat ∈ c_refs c' -> k' = k.
Proof.
  intros fd. eexists. split; [reflexivity|].
  assert (_extract_keywords ("AI 2.0" ++ " " ++ "") = []) as Hnone
    by (vm_compute; reflexivity).
  split; [exact Hnone|].
  destruct (no_keywords_isolated (fun s => s) ∅ (fun _ => []) fd) as (_ & _ & H).
  destruct (H 0%nat _ eq_refl Hnone) as (_ & _ & Hk). exact Hk.
Defined.

Lemma sorted_weaken {A} (R R' : A -> A -> Prop) (l : list A) :
  (forall x y, R x y -> R' x y) -> StronglySorted R l -> StronglySorted R' l.
Proof.
  intros HR. induction 1 as [|x l Hl IH Hx]; constructor; [exact IH|].
  eapply Forall_impl; [exact Hx | exact (HR x)].
Qed.

Lemma sorted_app_order {A} (R : A -> A -> Prop) (l1 l2 : list A) :
  StronglySorted R (l1 ++ l2) -> forall x y, x ∈ l1 -> y ∈ l2 -> R x y.
Proof.
  induction l1 as [|z l1 IH]; simpl; intros Hs x y Hx Hy.
  - apply elem_of_nil in Hx. contradiction.
  - apply StronglySorted_inv in Hs as [Hs Hz].
    apply elem_of_cons in Hx as [-> | Hx].
    + rewrite Forall_forall in Hz. apply Hz. apply elem_of_app. right. exact Hy.
    + exact (IH Hs x y Hx Hy).
Qed.

(** C8.  With topic weights that are not negative, [generate_suggestions]
    returns the first five suggestions of the list sorted by score, all of
    them when there are fewer: as many suggestions as there are clusters, up
    to 5, in descending order of score; suggestions of equal score come in
    the order of their clusters; none of those left out has a higher score.
    [iterations] gives the order in which the topics of each cluster are
    visited when it is scored. *)
Theorem suggestions_top_five (str_title : string -> string)
    (topic_weights : gmap string spec_float) (iterations : nat -> list string)
    (clusters : list Cluster) :
  ScoreSpec.non_negative topic_weights ->
  Forall sized clusters ->
  let suggestions :=
    imap (fun i c => suggestion_of str_title topic_weights (iterations i) c) clusters in
  let out := generate_suggestions str_title topic_weights iterations clusters in
  length out = Nat.min 5 (length clusters)
  /\ (length out <= 5)%nat
  /\ StronglySorted (fun x y => SFleb (score y) (score x) = true) out
  /\ (forall v,
        List.filter (fun x => SFeqb (score x) v) out
        `prefix_of` List.filter (fun x => SFeqb (score x) v) suggestions)
  /\ (exists rest, out ++ rest ≡ₚ suggestions
                   /\ forall x y, x ∈ out -> y ∈ rest ->
                                  SFleb (score y) (score x) = true).
Proof.
  intros Hw Hsized suggestions out.
  assert (Forall (fun s => score s <> S754_nan) suggestions) as Hok.
  { apply Forall_forall. intros s Hs.
    apply elem_of_lookup_imap in Hs as (i & c & -> & Hc).
    apply FloatFacts.not_negative_not_nan. cbn [suggestion_of score].
    apply ScoreProofs.score_not_negative; [exact Hw|].
    rewrite Forall_forall in Hsized. apply Hsized.
    apply list_elem_of_lookup. exists i. exact Hc. }
  pose proof (SortProofs.stable_sort_perm score_before suggestions) as Hperm.
  assert (Forall (fun s => score s <> S754_nan) (stable_sort score_before suggestions))
    as Hok' by (rewrite Hperm; exact Hok).
  pose proof (SortProofs.stable_sort_sorted_on score_before _
                SortProofs.score_before_total SortProofs.score_before_trans
                suggestions Hok) as Hsorted.
  apply (SortProofs.sorted_weaken_on _ _
           (fun x y => SFleb (score y) (score x) = true)
           _ SortProofs.score_before_leb Hok') in Hsorted.
  split; [|split; [|split; [|split]]].
  - unfold out, generate_suggestions. cbv zeta. fold suggestions.
    rewrite length_take, (Permutation_length Hperm). unfold suggestions.
    rewrite length_imap. reflexivity.
  - unfold out, generate_suggestions. rewrite length_take. lia.
  - unfold out, generate_suggestions. apply SortProofs.take_sorted. exact Hsorted.
  - intros v. unfold out, generate_suggestions. cbv zeta. fold suggestions.
    rewrite <- (SortProofs.stable_sort_filter score_before
                  (fun x => SFeqb (score x) v) (SortProofs.score_class v)
                  suggestions).
    apply SortProofs.take_filter_prefix.
  - exists (drop 5 (stable_sort score_before suggestions)).
    unfold out, generate_suggestions. cbv zeta. fold suggestions. split.
    + rewrite take_drop. exact Hperm.
    + apply (sorted_app_order (fun x y => SFleb (score y) (score x) = true)).
      rewrite take_drop. exact Hsorted.
Qed.

Lemma suggestions_top_five_witness :
  let tw := SixFeeds.topic_weights in
  let clusters := cluster_topics SixFeeds.feeds_data in
  let out := generate_suggestions (fun s => s) tw SixFeeds.iterations clusters in
  ScoreSpec.non_negative tw
  /\ Forall sized clusters
  /\ length clusters = 6%nat
  /\ length out = 5%nat
  /\ StronglySorted (fun x y => SFleb (score y) (score x) = true) out.
Proof.
  intros tw clusters out.
  assert (ScoreSpec.non_negative tw) as Hw.
  { unfold tw, SixFeeds.topic_weights. repeat apply map_Forall_insert_2.
    - vm_compute. reflexivity.
    - vm_compute. reflexivity.
    - vm_compute. reflexivity.
    - apply map_Forall_empty. }
  assert (Forall sized clusters) as Hs.
  { let l := eval vm_compute in clusters in
    assert (clusters = l) as -> by (vm_compute; reflexivity).
    repeat constructor; vm_compute; discriminate. }
  destruct (suggestions_top_five (fun s => s) tw SixFeeds.iterations clusters Hw Hs)
    as (Hlen & _ & Hsorted & _).
  split; [exact Hw|]. split; [exact Hs|]. split; [vm_compute; reflexivity|].
  split; [exact Hlen | exact Hsorted].
Defined.



(** C4.  On the two-entry scenario with no topic weight, the pipeline yields
    one cluster holding both entries, with 2 sources, a source multiplier of
    1.3, an entry multiplier of 1.1 and a score of 0.43 (the doubles of these
    decimals), in whatever order the three topics of the cluster are
    visited. *)
Theorem scenario_score (str_title : string -> string)
    (iterations : nat -> list string) :
  iterations 0%nat ≡ₚ ["ai"; "telecom"; "dev-tools"] ->
  (exists c,
      cluster_topics Scenario.feeds_data = [c]
      /\ c_refs c = [0; 1]%nat
      /\ c_entries c = collect_entries Scenario.feeds_data
      /\ c_sources c = {[ "A"; "B" ]}
      /\ size (c_sources c) = 2%nat
      /\ c_topics c = {[ "ai"; "telecom"; "dev-tools" ]}
      /\ source_multiplier c = Binary64.lit 13 10
      /\ entry_multiplier c = Binary64.lit 11 10
      /\ score_cluster Scenario.topic_weights (iterations 0%nat) c
         = Binary64.lit 43 100)
  /\ map score (generate_suggestions str_title Scenario.topic_weights iterations
                  (cluster_topics Scenario.feeds_data))
     = [Binary64.lit 43 100].
Proof.
  intros Hp.
  assert (exists a b c, iterations 0%nat = [a; b; c]) as (a & b & c & Hi).
  { apply Permutation_length in Hp.
    destruct (iterations 0%nat) as [|a [|b [|c [|d l]]]]; try discriminate. eauto. }
  assert (forall cl,
            size (c_sources cl) = 2%nat -> length (c_entries cl) = 2%nat ->
            size (c_topics cl) = 3%nat ->
            score_cluster Scenario.topic_weights (iterations 0%nat) cl
            = Binary64.lit 43 100) as Hscore.
  { intros cl Hs He Ht.
    unfold score_cluster, source_multiplier, entry_multiplier, topic_weight,
      Scenario.topic_weights.
    rewrite Hi, Hs, He, Ht. cbn [fold_left]. rewrite !lookup_empty.
    destruct (decide (c_topics cl = ∅)) as [Hemp | _].
    - rewrite Hemp, size_empty in Ht. discriminate.
    - vm_compute. reflexivity. }
  split.
  - eexists. split; [vm_compute; reflexivity|].
    do 7 (split; [vm_compute; reflexivity|]).
    apply Hscore; vm_compute; reflexivity.
  - assert (exists cl, cluster_topics Scenario.feeds_data = [cl]
                       /\ size (c_sources cl) = 2%nat
                       /\ length (c_entries cl) = 2%nat
                       /\ size (c_topics cl) = 3%nat) as (cl & -> & Hs & He & Ht).
    { eexists. split; [vm_compute; reflexivity|].
      repeat split; vm_compute; reflexivity. }
    unfold generate_suggestions. cbn [imap stable_sort insert_sorted take map].
    cbn [suggestion_of score]. rewrite (Hscore cl Hs He Ht). reflexivity.
Qed.

Lemma scenario_score_witness :
  let iterations := fun _ : nat => ["telecom"; "dev-tools"; "ai"] in
  iterations 0%nat ≡ₚ ["ai"; "telecom"; "dev-tools"]
  /\ map score (generate_suggestions (fun s => s) Scenario.topic_weights iterations
                  (cluster_topics Scenario.feeds_data))
     = [Binary64.lit 43 100].
Proof.
  intros iterations.
  assert (iterations 0%nat ≡ₚ ["ai"; "telecom"; "dev-tools"]) as Hp.
  { unfold iterations. symmetry.
    apply Permutation_cons_append with (l := ["telecom"; "dev-tools"]). }
  split; [exact Hp|].
  exact (proj2 (scenario_score (fun s => s) iterations Hp)).
Defined.

(** C5, as stated, does not hold: the angle of the scenario's cluster is not
    the AI/telecom-bridge string. *)
Lemma scenario_angle_not_bridge :
  ~ (map _generate_angle (cluster_topics Scenario.feeds_data) = [angle_ai_bridge]).
Proof. intros H. vm_compute in H. discriminate H. Qed.

(** C5, amended.  The cluster of the scenario has the topics ai, telecom and
    dev-tools, and its angle is the cross-domain AI/voice string: the
    telecom rule comes first and "ai" is among the topics. *)
Theorem scenario_angle :
  map c_topics (cluster_topics Scenario.feeds_data)
  = [ ({[ "ai"; "telecom"; "dev-tools" ]} : gset string) ]
  /\ map _generate_angle (cluster_topics Scenario.feeds_data) = [angle_telecom_ai].
Proof. split; vm_compute; reflexivity. Qed.

(** ** Doubles and exact arithmetic *)

(** On doubles the product of the scenario is one unit in the last place
    above the double of 0.429, and rounds to the double of 0.43. *)
Example scenario_product_binary64 :
  map (ScoreSpec.product ∅ ["ai"; "telecom"; "dev-tools"])
      (cluster_topics Scenario.feeds_data)
  = [S754_finite false 7728176960567772 (-54)]
  /\ Binary64.lit 429 1000 = S754_finite false 7728176960567771 (-54).
Proof. vm_compute. split; reflexivity. Qed.

(** A cluster of 6 entries from 4 sources, with one topic without weight:
    the exact product 0.3 * 1.9 * 1.5 is 0.855, an exact tie that rounds to
    0.86; the product of the doubles lies below 0.855, and the score is the
    double of 0.85. *)
Example score_below_exact_tie :
  let e := {| title := ""; link := ""; summary := ""; published := "";
              source := "A"; source_topics := ["x"]; keywords := [] |} in
  let c := {| c_entries := replicate 6 e; c_refs := seq 0 6; c_keywords := [];
              c_sources := {[ "A"; "B"; "C"; "D" ]}; c_topics := {[ "x" ]} |} in
  score_cluster ∅ ["x"] c = Binary64.lit 85 100
  /\ round_half_even (3 / 10 * (19 / 10) * (15 / 10) * 100) = 86%Z.
Proof. vm_compute. split; reflexivity. Qed.

(** The score depends on the order in which the topics are visited: with the
    weights 0.1 and 0.35 and a third topic without weight, 1 source and 2
    entries, two orders of the same set give 0.28 and 0.27. *)
Example score_depends_on_iteration :
  let tw : gmap string spec_float :=
    {[ "alpha" := Binary64.lit 1 10; "beta" := Binary64.lit 35 100 ]} in
  let e := {| title := ""; link := ""; summary := ""; published := "";
              source := "A"; source_topics := ["alpha"; "beta"; "gamma"];
              keywords := [] |} in
  let c := add_entry (new_cluster 0 e) 1 e in
  score_cluster tw ["alpha"; "beta"; "gamma"] c = Binary64.lit 28 100
  /\ score_cluster tw ["beta"; "gamma"; "alpha"] c = Binary64.lit 27 100.
Proof. vm_compute. split; reflexivity. Qed.

(** ** The similarity scorer on IEEE 754 doubles *)

Example scenario_similar_binary64 :
  match collect_entries Scenario.feeds_data with
  | [e0; e1] =>
      SimilarityBinary64._calculate_similarity (keywords e0) (keywords e1)
      = Binary64.div (Binary64.of_Z 3) (Binary64.of_Z 7)
      /\ SimilarityBinary64.similar e0 e1 = true
  | _ => False
  end.
Proof. vm_compute. split; reflexivity. Qed.

(** On doubles too, a ratio of exactly 3/20 does not exceed [0.15]. *)
Example threshold_strict_binary64 :
  SFltb (Binary64.lit 15 100) (Binary64.div (Binary64.of_Z 3) (Binary64.of_Z 20)) = false.
Proof. vm_compute. reflexivity. Qed.

(** * Further properties of the code *)

(** ** Keyword extractor: composition and round trip *)

Module KeywordFacts.
Import Regex KeywordSpec.

Lemma runs_from_split p c l2 : forall l1 cur,
  p c = false ->
  runs_from p cur (l1 ++ c :: l2) = runs_from p cur l1 ++ runs p l2.
Proof.
  induction l1 as [|d l1 IH]; intros cur Hc; simpl.
  - rewrite Hc. reflexivity.
  - destruct (p d); [apply IH; exact Hc|].
    rewrite (IH [] Hc), app_assoc. reflexivity.
Qed.

Lemma list_of_string_app (a b : string) :
  list_ascii_of_string (a ++ b) = list_ascii_of_string a ++ list_ascii_of_string b.
Proof. induction a as [|c a IH]; simpl; [|rewrite IH]; reflexivity. Qed.

Lemma drop_stop_words_app l1 l2 :
  drop_stop_words (l1 ++ l2) = drop_stop_words l1 ++ drop_stop_words l2.
Proof. unfold drop_stop_words. rewrite map_app, filter_app. reflexivity. Qed.

Lemma whole_words_space (a b : string) :
  whole_word_keywords (a ++ " " ++ b) = whole_word_keywords a ++ whole_word_keywords b.
Proof.
  unfold whole_word_keywords.
  rewrite !list_of_string_app. unfold lower. rewrite !map_app.
  change (map lower_char (list_ascii_of_string " ")) with [" "%char].
  cbn [app]. unfold runs at 1.
  rewrite (runs_from_split is_word " "%char _ _ [] eq_refl).
  rewrite List.filter_app, drop_stop_words_app. reflexivity.
Qed.

Lemma lower_az c : is_az c = true -> lower_char c = c.
Proof.
  unfold is_az, lower_char, between. intros H.
  apply andb_true_iff in H as [H1 H2]. apply N.leb_le in H1, H2.
  destruct ((65 <=? code c)%N && (code c <=? 90)%N) eqn:E1.
  { apply andb_true_iff in E1 as [_ E]. apply N.leb_le in E. lia. }
  destruct ((192 <=? code c)%N && (code c <=? 222)%N) eqn:E2.
  { apply andb_true_iff in E2 as [E _]. apply N.leb_le in E. lia. }
  reflexivity.
Qed.

Lemma lower_letters r : forallb is_az r = true -> lower r = r.
Proof.
  induction r as [|c r IH]; simpl; [reflexivity|].
  intros H. apply andb_true_iff in H as [Hc Hr].
  unfold lower in *. cbn [map]. rewrite (lower_az c Hc), (IH Hr). reflexivity.
Qed.

Lemma runs_from_all p r : forall cur,
  forallb p r = true -> runs_from p cur r = emit (rev r ++ cur).
Proof.
  induction r as [|c r IH]; intros cur; simpl; [reflexivity|].
  intros H. apply andb_true_iff in H as [Hc Hr].
  rewrite Hc, (IH _ Hr), <- app_assoc. reflexivity.
Qed.

Lemma whole_words_keyword w : keyword w -> whole_word_keywords w = [w].
Proof.
  intros (Haz & Hlen & Hstop). unfold whole_word_keywords.
  rewrite (lower_letters _ Haz).
  set (r := list_ascii_of_string w) in *.
  assert (length r = String.length w) as Hr
    by (unfold r; rewrite <- string_of_list_length,
          string_of_list_ascii_of_string; reflexivity).
  unfold runs. rewrite (runs_from_all is_word r []
                          (KeywordProofs.forallb_az_word r Haz)).
  rewrite app_nil_r. destruct r as [|c r'] eqn:E; [simpl in Hr; lia|].
  rewrite KeywordProofs.emit_rev_cons. cbn [List.filter].
  unfold letters_only, long_enough. rewrite Haz.
  assert ((3 <=? length (c :: r'))%nat = true) as -> by (apply Nat.leb_le; lia).
  cbn [andb]. unfold drop_stop_words. cbn [map]. rewrite <- E. unfold r.
  rewrite string_of_list_ascii_of_string.
  rewrite filter_cons_True by exact Hstop. reflexivity.
Qed.

End KeywordFacts.

(** X1.  The keywords of two texts joined by a space are the keywords of the
    first followed by the keywords of the second: no token spans the space.
    This is how [cluster_topics] combines the title and the summary. *)
Theorem extract_keywords_space (a b : string) :
  _extract_keywords (a ++ " " ++ b) = _extract_keywords a ++ _extract_keywords b.
Proof.
  rewrite !KeywordProofs.extract_whole_words. apply KeywordFacts.whole_words_space.
Qed.

(** X2.  Joining the extracted keywords with spaces and extracting again
    returns the same keywords. *)
Theorem extract_keywords_round_trip (text : string) :
  _extract_keywords (join_space (_extract_keywords text)) = _extract_keywords text.
Proof.
  assert (forall ws, Forall KeywordSpec.keyword ws ->
                     _extract_keywords (join_space ws) = ws) as Hjoin.
  { induction ws as [|w ws IH]; intros Hws; [reflexivity|].
    apply Forall_cons in Hws as [Hw Hws]. destruct ws as [|w' ws].
    - cbn [join_space]. rewrite KeywordProofs.extract_whole_words.
      apply KeywordFacts.whole_words_keyword. exact Hw.
    - change (join_space (w :: w' :: ws))
        with (w ++ " " ++ join_space (w' :: ws))%string.
      rewrite !KeywordProofs.extract_whole_words, KeywordFacts.whole_words_space.
      rewrite (KeywordFacts.whole_words_keyword w Hw).
      rewrite <- KeywordProofs.extract_whole_words, (IH Hws). reflexivity. }
  apply Hjoin. apply Forall_forall. intros w Hw.
  rewrite KeywordProofs.extract_whole_words in Hw.
  unfold KeywordSpec.whole_word_keywords, KeywordSpec.drop_stop_words in Hw.
  apply list_elem_of_filter in Hw as [Hstop Hw].
  apply list_elem_of_In, in_map_iff in Hw as (r & <- & Hr).
  apply filter_In in Hr as [_ Hgood]. apply andb_true_iff in Hgood as [Haz Hlen].
  unfold KeywordSpec.keyword.
  rewrite list_ascii_of_string_of_list_ascii, string_of_list_length.
  repeat split; [exact Haz | | exact Hstop].
  unfold KeywordSpec.long_enough in Hlen. apply Nat.leb_le in Hlen. exact Hlen.
Qed.

(** ** Similarity scorer: the extreme values *)

Module SimilarityFacts.
Import SimilarityProofs.

Lemma ratio_zero (i u : nat) :
  (0 < u)%nat ->
  (inject_Z (Z.of_nat i) / inject_Z (Z.of_nat u) == 0)%Q <-> i = 0%nat.
Proof.
  intros Hu.
  assert (~ inject_Z (Z.of_nat u) == 0)%Q as Hnz.
  { intros Hz. unfold Qeq in Hz. simpl in Hz. lia. }
  split.
  - intros H. pose proof (Qmult_div_r (inject_Z (Z.of_nat i)) _ Hnz) as Hm.
    rewrite H, Qmult_0_r in Hm. unfold Qeq in Hm. simpl in Hm. lia.
  - intros ->. unfold Qdiv. apply Qmult_0_l.
Qed.

Lemma no_common_token (a b : list string) :
  list_to_set (C := gset string) a ∩ list_to_set b = ∅
  <-> (forall w, w ∈ a -> w ∉ b).
Proof.
  split.
  - intros H w Ha Hb.
    apply (not_elem_of_empty (C := gset string) w). rewrite <- H.
    apply elem_of_intersection. split; apply elem_of_list_to_set; assumption.
  - intros H. apply set_eq. intros w.
    rewrite elem_of_intersection, !elem_of_list_to_set, elem_of_empty.
    split; [intros [Ha Hb]; exact (H w Ha Hb) | tauto].
Qed.

End SimilarityFacts.

(** X3.  The similarity of two keyword lists is 0 exactly when they have no
    token in common (as when one of them is empty). *)
Theorem similarity_zero_iff (a b : list string) :
  (_calculate_similarity a b == 0)%Q <-> (forall w, w ∈ a -> w ∉ b).
Proof.
  destruct a as [|x a].
  { rewrite SimilarityProofs.similarity_empty_l. split; [|reflexivity].
    intros _ w Hw. apply elem_of_nil in Hw. contradiction. }
  destruct b as [|y b].
  { rewrite SimilarityProofs.similarity_empty_r. split; [|reflexivity].
    intros _ w _ Hw. apply elem_of_nil in Hw. contradiction. }
  rewrite SimilarityProofs.similarity_nonempty by discriminate.
  rewrite SimilarityFacts.ratio_zero
    by (apply SimilarityProofs.union_size_pos; discriminate).
  rewrite <- SimilarityFacts.no_common_token.
  rewrite size_empty_iff. split; [apply leibniz_equiv | intros ->; reflexivity].
Qed.

(** X4.  The similarity of two keyword lists is 1 exactly when they are not
    empty and have the same set of distinct tokens. *)
Theorem similarity_one_iff (a b : list string) :
  (_calculate_similarity a b == 1)%Q
  <-> a <> [] /\ list_to_set (C := gset string) a = list_to_set b.
Proof.
  split; [apply SimilarityProofs.similarity_one|].
  intros [Hne Hset].
  rewrite (SimilarityProofs.similarity_sets a a b a eq_refl (eq_sym Hset)).
  apply SimilarityProofs.similarity_self. exact Hne.
Qed.

(** ** Clusterer: order, fields and keyword counts of the clusters *)

Module ClusterFacts.
Import ClusterSpec ClusterProofs.

Lemma filter_enumerate_sorted {A} (f : nat * A -> bool) (l : list A) : forall k,
  StronglySorted lt (map fst (List.filter f (enumerate_from k l)))
  /\ Forall (fun j => (k <= j)%nat) (map fst (List.filter f (enumerate_from k l))).
Proof.
  induction l as [|x l IH]; intros k; simpl; [split; constructor|].
  destruct (IH (S k)) as [Hs Hf].
  assert (Forall (fun j => (k < j)%nat)
            (map fst (List.filter f (enumerate_from (S k) l)))) as Hlt
    by (eapply Forall_impl; [exact Hf | intros j Hj; simpl in Hj; lia]).
  destruct (f (k, x)); simpl.
  - split; constructor; auto.
    eapply Forall_impl; [exact Hlt | intros j Hj; simpl in Hj; lia].
  - split; [exact Hs|]. eapply Forall_impl; [exact Hlt | intros j Hj; simpl in Hj; lia].
Qed.

Lemma cluster_at_sorted all_entries earlier s seed :
  StronglySorted lt (c_refs (cluster_at all_entries earlier s seed)).
Proof.
  rewrite cluster_at_refs. unfold picked, candidates.
  destruct (filter_enumerate_sorted
              (fun jo => negb (bool_decide (fst jo ∈ earlier)) && similar seed (snd jo))
              (drop (S s) all_entries) (S s)) as [Hs Hf].
  constructor; [exact Hs|].
  eapply Forall_impl; [exact Hf | intros j Hj; simpl in Hj; lia].
Qed.

Lemma cluster_at_sources all_entries earlier s seed :
  let c := cluster_at all_entries earlier s seed in
  c_sources c = list_to_set (map source (c_entries c))
  /\ c_topics c = list_to_set (concat (map source_topics (c_entries c))).
Proof.
  cbv zeta. unfold cluster_at.
  rewrite grow_sources, grow_topics, grow_entries. cbn [new_cluster c_sources c_topics
    c_entries app map concat list_to_set].
  rewrite list_to_set_app_L, !map_map. split; reflexivity.
Qed.

(** *** Counters *)

Lemma counter_get_incr w c w' :
  counter_get (counter_incr w c) w'
  = if decide (w = w') then S (counter_get c w') else counter_get c w'.
Proof.
  induction c as [|[k n] c IH]; simpl.
  - destruct (decide (w = w')); reflexivity.
  - destruct (decide (k = w)) as [-> | Hkw]; simpl.
    + destruct (decide (w = w')); reflexivity.
    + rewrite IH. destruct (decide (k = w')) as [-> | Hkw'];
        [|reflexivity].
      destruct (decide (w = w')); [congruence | reflexivity].
Qed.

Lemma counter_incr_keys w c :
  map fst (counter_incr w c)
  = if decide (w ∈ map fst c) then map fst c else map fst c ++ [w].
Proof.
  induction c as [|[k n] c IH]; simpl.
  - destruct (decide (w ∈ [])) as [H | _]; [|reflexivity].
    apply elem_of_nil in H. contradiction.
  - destruct (decide (k = w)) as [-> | Hkw]; simpl.
    + rewrite decide_True by left. reflexivity.
    + rewrite IH. destruct (decide (w ∈ map fst c)) as [Hin | Hout].
      * rewrite decide_True by (right; exact Hin). reflexivity.
      * rewrite decide_False; [reflexivity|].
        intros H. apply elem_of_cons in H as [-> | H]; [congruence | contradiction].
Qed.

Lemma counter_incr_NoDup w c : NoDup (map fst c) -> NoDup (map fst (counter_incr w c)).
Proof.
  intros H. rewrite counter_incr_keys. destruct (decide _) as [Hin | Hout]; [exact H|].
  apply NoDup_app. split; [exact H|]. split.
  - intros x Hx Hw. apply list_elem_of_singleton in Hw. subst x. contradiction.
  - apply NoDup_singleton.
Qed.

Lemma counter_update_get ws w : forall c,
  counter_get (counter_update c ws) w
  = (counter_get c w + count_occ string_dec ws w)%nat.
Proof.
  unfold counter_update. induction ws as [|x ws IH]; intros c; simpl; [lia|].
  rewrite IH, counter_get_incr.
  destruct (decide (x = w)) as [-> | Hne].
  - destruct (string_dec w w); [lia | congruence].
  - destruct (string_dec x w); [congruence | lia].
Qed.

Lemma counter_update_NoDup ws : forall c,
  NoDup (map fst c) -> NoDup (map fst (counter_update c ws)).
Proof.
  unfold counter_update. induction ws as [|x ws IH]; intros c H; simpl; [exact H|].
  apply IH, counter_incr_NoDup. exact H.
Qed.

Lemma cluster_at_keywords all_entries earlier s seed :
  let c := cluster_at all_entries earlier s seed in
  c_keywords c = counter_of (concat (map keywords (c_entries c))).
Proof.
  cbv zeta. unfold cluster_at. rewrite grow_keywords, grow_entries.
  cbn [new_cluster c_keywords c_entries app map concat].
  unfold counter_of, counter_update. rewrite fold_left_app, map_map. reflexivity.
Qed.

End ClusterFacts.

(** X5.  Every cluster starts with its seed and lists its entries in input
    order; the seeds come in input order along the list of clusters, and the
    seed of a cluster is the first entry that no earlier cluster holds. *)
Theorem clusters_in_input_order (feeds_data : FeedsData) :
  let clusters := cluster_topics feeds_data in
  Forall (fun c => c_refs c <> [] /\ StronglySorted lt (c_refs c)) clusters
  /\ (forall k k' c c' s s',
        clusters !! k = Some c -> clusters !! k' = Some c' ->
        head (c_refs c) = Some s -> head (c_refs c') = Some s' ->
        (k' < k)%nat -> (s' < s)%nat)
  /\ (forall k c s j,
        clusters !! k = Some c -> head (c_refs c) = Some s -> (j < s)%nat ->
        exists k' c', (k' < k)%nat /\ clusters !! k' = Some c' /\ j ∈ c_refs c').
Proof.
  intros clusters. split; [|split].
  - apply Forall_lookup. intros k c Hk.
    destruct (ClusterProofs.run_seeded _ k c Hk) as (s & seed & _ & _ & _ & ->).
    split; [rewrite ClusterProofs.cluster_at_refs; discriminate|].
    apply ClusterFacts.cluster_at_sorted.
  - intros k k' c c' s s' Hk Hk' Hs Hs' Hlt.
    destruct (ClusterProofs.run_seeded _ k c Hk) as (t & seed & Hseed).
    destruct (ClusterProofs.run_seeded _ k' c' Hk') as (t' & seed' & Hseed').
    pose proof (ClusterProofs.run_seeds_increase _ k k' c c' t t' seed seed'
                  Hk Hk' Hlt Hseed Hseed') as Htt.
    destruct Hseed as (_ & _ & _ & Hc). destruct Hseed' as (_ & _ & _ & Hc').
    rewrite Hc, ClusterProofs.cluster_at_refs in Hs.
    rewrite Hc', ClusterProofs.cluster_at_refs in Hs'.
    simpl in Hs, Hs'. congruence.
  - intros k c s j Hk Hs Hj.
    destruct (ClusterProofs.run_seeded _ k c Hk) as (t & seed & _ & _ & Hbelow & Hc).
    rewrite Hc, ClusterProofs.cluster_at_refs in Hs. simpl in Hs.
    injection Hs as <-. apply ClusterProofs.used_by_take. apply Hbelow. exact Hj.
Qed.

(** X6.  The sources of a cluster are the feed names of its entries, and its
    topics are the topics of the feeds of its entries. *)
Theorem cluster_sources_of_entries (feeds_data : FeedsData) :
  Forall (fun c =>
            c_sources c = list_to_set (map source (c_entries c))
            /\ c_topics c = list_to_set (concat (map source_topics (c_entries c))))
         (cluster_topics feeds_data).
Proof.
  apply Forall_lookup. intros k c Hk.
  destruct (ClusterProofs.run_seeded _ k c Hk) as (s & seed & _ & _ & _ & ->).
  apply ClusterFacts.cluster_at_sources.
Qed.

(** X7.  The keyword counter of a cluster has each token once as a key, and
    counts a token as many times as it occurs in the keyword lists of the
    entries of the cluster. *)
Theorem cluster_keyword_counts (feeds_data : FeedsData) :
  Forall (fun c =>
            NoDup (map fst (c_keywords c))
            /\ forall w,
                 counter_get (c_keywords c) w
                 = count_occ string_dec (concat (map keywords (c_entries c))) w)
         (cluster_topics feeds_data).
Proof.
  apply Forall_lookup. intros k c Hk.
  destruct (ClusterProofs.run_seeded _ k c Hk) as (s & seed & _ & _ & _ & ->).
  rewrite ClusterFacts.cluster_at_keywords. unfold counter_of. split.
  - apply ClusterFacts.counter_update_NoDup. constructor.
  - intros w. rewrite ClusterFacts.counter_update_get. reflexivity.
Qed.

(** ** Clusterer: which cluster an entry joins *)

Module JoinFacts.
Import ClusterSpec ClusterProofs.

Lemma seeded_head all_entries earlier c s seed t :
  seeded all_entries earlier c s seed -> head (c_refs c) = Some t -> t = s.
Proof.
  intros (_ & _ & _ & ->) H. rewrite cluster_at_refs in H. simpl in H. congruence.
Qed.

Lemma used_by_take_mono (cs : list Cluster) k k' j :
  (k' <= k)%nat -> j ∈ used_by (take k' cs) -> j ∈ used_by (take k cs).
Proof.
  intros Hle Hj. apply used_by_elem in Hj as (i & c & Hi & Hjc).
  apply lookup_take_Some in Hi as [Hi Hlt].
  apply used_by_elem. exists i, c. split; [|exact Hjc].
  apply lookup_take_Some. split; [exact Hi | lia].
Qed.

Lemma similar_keywords e e' o o' :
  keywords e = keywords e' -> keywords o = keywords o' -> similar e o = similar e' o'.
Proof. unfold similar. intros -> ->. reflexivity. Qed.

Lemma picked_keywords seed seed' used (l l' : list Entry) :
  keywords seed = keywords seed' ->
  Forall2 (fun e e' => keywords e = keywords e') l l' ->
  forall k,
    map fst (picked seed used (enumerate_from k l))
    = map fst (picked seed' used (enumerate_from k l')).
Proof.
  intros Hs. unfold picked. induction 1 as [|e e' l l' He _ IH]; intros k; simpl;
    [reflexivity|].
  rewrite (similar_keywords seed seed' e e' Hs He).
  destruct (negb _ && similar seed' e'); simpl; rewrite IH; reflexivity.
Qed.

(** The runs on two lists of entries with the same keywords go through
    states with the same used positions and the same positions in the
    clusters. *)
Lemma fold_keywords all_entries all_entries' :
  Forall2 (fun e e' => keywords e = keywords e') all_entries all_entries' ->
  forall m i st st',
    (i + m = length all_entries)%nat ->
    snd st = snd st' -> map c_refs (fst st) = map c_refs (fst st') ->
    let r := fold_left (cluster_step all_entries)
                       (enumerate_from i (drop i all_entries)) st in
    let r' := fold_left (cluster_step all_entries')
                        (enumerate_from i (drop i all_entries')) st' in
    snd r = snd r' /\ map c_refs (fst r) = map c_refs (fst r').
Proof.
  intros Hall. pose proof (Forall2_length _ _ _ Hall) as Hlen.
  induction m as [|m IH]; intros i st st' Hm Hu Hc; cbv zeta.
  - assert (i = length all_entries) as -> by lia.
    rewrite drop_all. rewrite Hlen, drop_all. simpl. auto.
  - destruct (lookup_lt_is_Some_2 all_entries i ltac:(lia)) as [e He].
    destruct (lookup_lt_is_Some_2 all_entries' i ltac:(lia)) as [e' He'].
    pose proof (Forall2_lookup_lr _ _ _ i e e' Hall He He') as Hk.
    rewrite (enumerate_drop _ _ _ He), (enumerate_drop _ _ _ He').
    cbn [fold_left]. apply IH; [lia | |];
      destruct st as [cs used], st' as [cs' used']; simpl in Hu, Hc; subst used';
      rewrite !cluster_step_spec; destruct (decide (i ∈ used)); simpl; auto.
    + rewrite !cluster_at_refs. unfold candidates.
      rewrite (picked_keywords e e' used _ _ Hk (Forall2_drop _ _ _ (S i) Hall)).
      reflexivity.
    + rewrite !map_app, Hc. simpl. rewrite !cluster_at_refs. unfold candidates.
      rewrite (picked_keywords e e' used _ _ Hk (Forall2_drop _ _ _ (S i) Hall)).
      reflexivity.
Qed.

Lemma cluster_entries_keywords all_entries all_entries' :
  map keywords all_entries = map keywords all_entries' ->
  map c_refs (cluster_entries all_entries) = map c_refs (cluster_entries all_entries').
Proof.
  intros H.
  assert (Forall2 (fun e e' => keywords e = keywords e') all_entries all_entries')
    as Hall.
  { revert all_entries' H. induction all_entries as [|e l IH]; intros [|e' l'] H;
      try discriminate; constructor; injection H as He Hl; auto. }
  pose proof (fold_keywords _ _ Hall (length all_entries) 0 ([], ∅) ([], ∅)
                ltac:(lia) eq_refl eq_refl) as [_ Hc].
  rewrite !drop_0 in Hc. exact Hc.
Qed.

(** With no entry similar to a later one, every scan adds nothing. *)
Lemma picked_none seed used items :
  (forall j o, In (j, o) items -> similar seed o = false) ->
  picked seed used items = [].
Proof.
  unfold picked. induction items as [|[j o] items IH]; intros H; [reflexivity|].
  simpl. rewrite (H j o (or_introl eq_refl)), andb_false_r.
  apply IH. intros j' o' Hin. apply (H j' o'). right. exact Hin.
Qed.

Lemma fold_dissimilar all_entries :
  (forall i j e_i e_j,
      (i < j)%nat -> all_entries !! i = Some e_i -> all_entries !! j = Some e_j ->
      similar e_i e_j = false) ->
  forall m i,
    (i + m = length all_entries)%nat ->
    fold_left (cluster_step all_entries) (enumerate_from i (drop i all_entries))
              (imap new_cluster (take i all_entries), list_to_set (seq 0 i))
    = (imap new_cluster all_entries, list_to_set (seq 0 (length all_entries))).
Proof.
  intros Hd. induction m as [|m IH]; intros i Hm.
  - assert (i = length all_entries) as -> by lia.
    rewrite drop_all, firstn_all. reflexivity.
  - destruct (lookup_lt_is_Some_2 all_entries i ltac:(lia)) as [e He].
    rewrite (enumerate_drop _ _ _ He). cbn [fold_left].
    rewrite cluster_step_spec.
    rewrite decide_False
      by (rewrite elem_of_list_to_set, elem_of_seq; lia).
    unfold cluster_at at 1 2. rewrite picked_none.
    2:{ intros j o Hin. apply candidates_In in Hin as [Hlt Ho].
        exact (Hd i j e o Hlt He Ho). }
    cbn [grow fold_left new_cluster c_refs].
    rewrite <- (IH (S i)) by lia. f_equal. f_equal.
    + rewrite (take_S_r _ _ _ He), imap_app. cbn [imap].
      rewrite length_take_le by (apply lookup_lt_Some in He; lia).
      rewrite Nat.add_0_r. reflexivity.
    + rewrite seq_S, list_to_set_app_L. reflexivity.
Qed.

End JoinFacts.

(** X8.  When no entry is similar to a later entry, every entry is a cluster of
    its own, in input order. *)
Theorem dissimilar_entries_stay_alone (feeds_data : FeedsData) :
  (forall i j e_i e_j,
      (i < j)%nat ->
      collect_entries feeds_data !! i = Some e_i ->
      collect_entries feeds_data !! j = Some e_j ->
      (_calculate_similarity (keywords e_i) (keywords e_j) <= 0.15)%Q) ->
  cluster_topics feeds_data = imap new_cluster (collect_entries feeds_data).
Proof.
  intros H. unfold cluster_topics, cluster_entries.
  rewrite <- (drop_0 (collect_entries feeds_data)) at 2.
  change ([], ∅) with (imap new_cluster (take 0 (collect_entries feeds_data)),
                        list_to_set (C := gset nat) (seq 0 0)).
  rewrite (JoinFacts.fold_dissimilar _) with (m := length (collect_entries feeds_data));
    [reflexivity | | lia].
  intros i j e_i e_j Hlt Hi Hj. unfold similar.
  apply negb_false_iff, Qle_bool_iff. exact (H i j e_i e_j Hlt Hi Hj).
Qed.

Lemma dissimilar_entries_stay_alone_witness :
  cluster_topics Unrelated.feeds_data
  = imap new_cluster (collect_entries Unrelated.feeds_data).
Proof.
  apply dissimilar_entries_stay_alone.
  intros i j e_i e_j Hlt Hi Hj.
  destruct i as [|[|[|i]]]; destruct j as [|[|[|j]]];
    try lia; try discriminate Hi; try discriminate Hj;
    vm_compute in Hi, Hj; injection Hi as <-; injection Hj as <-;
    vm_compute; discriminate.
Defined.

(** X9.  An entry after the seed of a cluster is in that cluster exactly when
    its similarity to that seed exceeds 0.15 and its similarity to the seed
    of every earlier cluster does not: an entry joins the first cluster, in
    order, whose seed it is similar to. *)
Theorem joins_first_similar_seed (feeds_data : FeedsData)
    (k s j : nat) (c : Cluster) (seed other : Entry) :
  cluster_topics feeds_data !! k = Some c ->
  head (c_refs c) = Some s ->
  collect_entries feeds_data !! s = Some seed ->
  collect_entries feeds_data !! j = Some other ->
  (s < j)%nat ->
  j ∈ c_refs c
  <-> (0.15 < _calculate_similarity (keywords seed) (keywords other))%Q
      /\ forall k' c' s' seed',
           (k' < k)%nat -> cluster_topics feeds_data !! k' = Some c' ->
           head (c_refs c') = Some s' ->
           collect_entries feeds_data !! s' = Some seed' ->
           ~ (0.15 < _calculate_similarity (keywords seed') (keywords other))%Q.
Proof.
  intros Hk Hs Hseed Hj Hlt.
  set (all_entries := collect_entries feeds_data) in *.
  destruct (ClusterProofs.run_seeded all_entries k c Hk) as (t & seed0 & Hsd).
  pose proof (JoinFacts.seeded_head _ _ _ _ _ _ Hsd Hs) as ->.
  pose proof Hsd as (Ht & Hout & _ & Hc).
  assert (seed0 = seed) as -> by congruence.
  rewrite Hc, ClusterProofs.cluster_at_member. split.
  - intros [-> | (_ & Hfresh & o & Ho & Hsim)]; [lia|].
    assert (o = other) as -> by congruence.
    split; [apply ClusterProofs.similar_spec; exact Hsim|].
    intros k' c' s' seed' Hlt' Hk' Hs' Hseed' Hsim'.
    destruct (ClusterProofs.run_seeded all_entries k' c' Hk') as (t' & seed0' & Hsd').
    pose proof (JoinFacts.seeded_head _ _ _ _ _ _ Hsd' Hs') as ->.
    pose proof (ClusterProofs.run_seeds_increase all_entries k k' c c' t t' seed seed0'
                  Hk Hk' Hlt' Hsd Hsd') as Hss.
    pose proof Hsd' as (Ht' & _ & _ & Hc').
    assert (seed0' = seed') as -> by congruence.
    apply Hfresh. apply ClusterProofs.used_by_take. exists k', c'.
    split; [exact Hlt'|]. split; [exact Hk'|].
    rewrite Hc'. apply ClusterProofs.cluster_at_member. right.
    split; [lia|]. split.
    + intros Hin. apply Hfresh.
      exact (JoinFacts.used_by_take_mono _ k k' j ltac:(lia) Hin).
    + exists other. split; [exact Hj|]. apply ClusterProofs.similar_spec. exact Hsim'.
  - intros [Hsim Hfirst]. right. split; [exact Hlt|]. split.
    + intros Hin. apply ClusterProofs.used_by_take in Hin as (k' & c' & Hlt' & Hk' & Hjc').
      destruct (ClusterProofs.run_seeded all_entries k' c' Hk') as (t' & seed' & Hsd').
      pose proof (ClusterProofs.run_seeds_increase all_entries k k' c c' t t' seed seed'
                    Hk Hk' Hlt' Hsd Hsd') as Hss.
      pose proof Hsd' as (Ht' & _ & _ & Hc').
      rewrite Hc' in Hjc'.
      apply ClusterProofs.cluster_at_member in Hjc' as [-> | (_ & _ & o & Ho & Hsim')];
        [lia|].
      assert (o = other) as -> by congruence.
      apply (Hfirst k' c' t' seed' Hlt' Hk');
        [rewrite Hc', ClusterProofs.cluster_at_refs; reflexivity | exact Ht' |].
      apply ClusterProofs.similar_spec. exact Hsim'.
    + exists other. split; [exact Hj|]. apply ClusterProofs.similar_spec. exact Hsim.
Qed.

Lemma joins_first_similar_seed_witness :
  exists c seed other,
    cluster_topics SameTokens.feeds_data !! 0%nat = Some c
    /\ collect_entries SameTokens.feeds_data !! 0%nat = Some seed
    /\ collect_entries SameTokens.feeds_data !! 2%nat = Some other
    /\ (0.15 < _calculate_similarity (keywords seed) (keywords other))%Q
    /\ 2%nat ∈ c_refs c.
Proof.
  eexists. eexists. eexists.
  split; [vm_compute; reflexivity|].
  split; [vm_compute; reflexivity|].
  split; [vm_compute; reflexivity|].
  assert (0.15 < _calculate_similarity ["voice"; "agents"; "agents"; "voice"]
                   ["agents"; "voice"])%Q as Hsim by (vm_compute; reflexivity).
  split; [exact Hsim|].
  eapply (joins_first_similar_seed SameTokens.feeds_data 0 0 2).
  - vm_compute. reflexivity.
  - vm_compute. reflexivity.
  - vm_compute. reflexivity.
  - vm_compute. reflexivity.
  - lia.
  - split; [exact Hsim|]. intros k' c' s' seed' Hlt. lia.
Defined.

(** X10.  Which entries share a cluster depends on the keywords of the entries
    only: two inputs whose entries have, position by position, the same
    keyword lists are grouped in the same way, whatever their feed names,
    topics, links and dates. *)
Theorem grouping_depends_on_keywords (feeds_data feeds_data' : FeedsData) :
  map keywords (collect_entries feeds_data)
  = map keywords (collect_entries feeds_data') ->
  map c_refs (cluster_topics feeds_data) = map c_refs (cluster_topics feeds_data').
Proof. apply JoinFacts.cluster_entries_keywords. Qed.

Lemma grouping_depends_on_keywords_witness :
  map c_refs (cluster_topics Scenario.feeds_data)
  = map c_refs (cluster_topics Retagged.feeds_data).
Proof.
  apply grouping_depends_on_keywords. vm_compute. reflexivity.
Defined.

(** ** Relevance scorer: the order of the topics *)

(** X23.  When all the topics of a cluster have the same weight, as when none
    of them has a configured weight, the score does not depend on the order
    in which the set of topics is visited. *)
Theorem score_order_free (topic_weights : gmap string spec_float) (w : spec_float)
    (iteration iteration' : list string) (c : Cluster) :
  (forall t, t ∈ c_topics c -> topic_weight topic_weights t = w) ->
  iteration ≡ₚ elements (c_topics c) -> iteration' ≡ₚ elements (c_topics c) ->
  score_cluster topic_weights iteration c = score_cluster topic_weights iteration' c.
Proof.
  intros Hw Hp Hp'. unfold score_cluster. do 3 f_equal.
  destruct (decide _); [reflexivity|]. f_equal.
  assert (forall l, l ≡ₚ elements (c_topics c) ->
          map (topic_weight topic_weights) l = replicate (size (c_topics c)) w) as Hrep.
  { intros l Hl. change (size (c_topics c)) with (length (elements (c_topics c))).
    rewrite <- (Permutation_length Hl).
    assert (Forall (fun t => t ∈ c_topics c) l) as Hall.
    { apply Forall_forall. intros t Ht. rewrite Hl in Ht.
      apply elem_of_elements in Ht. exact Ht. }
    clear Hl. induction Hall as [|t l Ht _ IH]; [reflexivity|].
    cbn [map length replicate]. rewrite (Hw t Ht), IH. reflexivity. }
  rewrite !ScoreProofs.fold_weights, (Hrep _ Hp), (Hrep _ Hp'). reflexivity.
Qed.

Lemma score_order_free_witness :
  let e := {| title := "Voice agents"; link := ""; summary := ""; published := "";
              source := "A"; source_topics := ["ai"; "telecom"; "dev-tools"];
              keywords := ["voice"; "agents"] |} in
  let c := new_cluster 0 e in
  score_cluster ∅ ["ai"; "telecom"; "dev-tools"] c
  = score_cluster ∅ ["telecom"; "dev-tools"; "ai"] c.
Proof.
  intros e c. apply (score_order_free ∅ (Binary64.lit 3 10)).
  - intros t _. unfold topic_weight. rewrite lookup_empty. reflexivity.
  - vm_compute. reflexivity.
  - vm_compute. symmetry.
    apply Permutation_cons_append with (l := ["telecom"; "dev-tools"]).
Defined.

(** ** Suggestion builder: headlines and sorted fields *)

Module SuggestionFacts.
Import ClusterSpec ClusterProofs.

Lemma string_leb_trans s1 : forall s2 s3,
  String.leb s1 s2 = true -> String.leb s2 s3 = true -> String.leb s1 s3 = true.
Proof.
  unfold String.leb.
  induction s1 as [|a s1 IH]; intros [|b s2] [|c s3]; simpl; try reflexivity;
    try discriminate.
  unfold Ascii.compare.
  destruct (N.compare_spec (N_of_ascii a) (N_of_ascii b)) as [Hab | Hab | Hab];
    destruct (N.compare_spec (N_of_ascii b) (N_of_ascii c)) as [Hbc | Hbc | Hbc];
    destruct (N.compare_spec (N_of_ascii a) (N_of_ascii c)) as [Hac | Hac | Hac];
    try discriminate; try reflexivity; try lia.
  apply IH.
Qed.

Lemma string_leb_total s1 s2 : String.leb s1 s2 = false -> String.leb s2 s1 = true.
Proof. intros H. destruct (String.leb_total s1 s2) as [H' | H']; congruence. Qed.

Lemma sorted_strings_spec (s : gset string) :
  StronglySorted (fun a b => String.leb a b = true) (sorted_strings s)
  /\ NoDup (sorted_strings s)
  /\ forall x, x ∈ sorted_strings s <-> x ∈ s.
Proof.
  unfold sorted_strings.
  pose proof (SortProofs.stable_sort_perm String.leb (elements s)) as Hp.
  split; [|split].
  - apply SortProofs.stable_sort_sorted;
      [apply string_leb_total | intros x y z; apply string_leb_trans].
  - rewrite Hp. apply NoDup_elements.
  - intros x. rewrite Hp. apply elem_of_elements.
Qed.

Lemma suggestions_from_clusters str_title tw iterations clusters s :
  s ∈ generate_suggestions str_title tw iterations clusters ->
  exists i c, clusters !! i = Some c /\ s = suggestion_of str_title tw (iterations i) c.
Proof.
  unfold generate_suggestions. intros H. apply subseteq_take in H.
  rewrite SortProofs.stable_sort_perm in H.
  apply elem_of_lookup_imap in H as (i & c & -> & Hc).
  exists i, c. split; [exact Hc | reflexivity].
Qed.

Lemma stable_sort_length {A} (before : A -> A -> bool) l :
  length (stable_sort before l) = length l.
Proof. apply Permutation_length, SortProofs.stable_sort_perm. Qed.

End SuggestionFacts.

(** X13.  The pipeline returns as many suggestions as there are clusters, up
    to 5.  Every suggestion has at least one entry, and its headline is the
    title of its first entry: the headline built from keywords is never used
    on the clusters of [cluster_topics]. *)
Theorem pipeline_headlines (str_title : string -> string)
    (topic_weights : gmap string spec_float) (iterations : nat -> list string)
    (feeds_data : FeedsData) :
  let out := generate_suggestions str_title topic_weights iterations
               (cluster_topics feeds_data) in
  length out = Nat.min 5 (length (cluster_topics feeds_data))
  /\ Forall (fun s => exists e rest, s_entries s = e :: rest /\ headline s = title e) out.
Proof.
  intros out. split.
  - unfold out, generate_suggestions.
    rewrite length_take, SuggestionFacts.stable_sort_length, length_imap. reflexivity.
  - apply Forall_forall. intros s Hs.
    apply SuggestionFacts.suggestions_from_clusters in Hs as (k & c & Hk & ->).
    destruct (ClusterProofs.run_seeded _ k c Hk) as (t & seed & _ & _ & _ & ->).
    unfold suggestion_of, _generate_headline, ClusterSpec.cluster_at. cbn [s_entries headline].
    rewrite ClusterProofs.grow_entries. cbn [new_cluster c_entries app].
    eauto.
Qed.

(** X14.  In every suggestion the sources and the topics are listed in
    ascending order, each once, and they are the sources and the topics of
    the cluster. *)
Theorem suggestion_fields_sorted (str_title : string -> string)
    (topic_weights : gmap string spec_float) (iteration : list string) (c : Cluster) :
  let s := suggestion_of str_title topic_weights iteration c in
  (StronglySorted (fun a b => String.leb a b = true) (s_sources s)
   /\ NoDup (s_sources s) /\ forall x, x ∈ s_sources s <-> x ∈ c_sources c)
  /\ (StronglySorted (fun a b => String.leb a b = true) (s_topics s)
      /\ NoDup (s_topics s) /\ forall x, x ∈ s_topics s <-> x ∈ c_topics c).
Proof.
  cbv zeta. cbn [suggestion_of s_sources s_topics].
  split; apply SuggestionFacts.sorted_strings_spec.
Qed.

(** ** Feed collection: the configured feeds *)

Module CollectFacts.
Import FeedSpec.

Lemma collect_sources_ok category sources : forall feeds,
  Forall (fun s => ~ nameless s) sources ->
  collect_sources category sources feeds
  = Returned (feeds ++ omap (listed category) sources).
Proof.
  induction sources as [|s sources IH]; intros feeds H; simpl.
  - rewrite app_nil_r. reflexivity.
  - apply Forall_cons in H as [Hs H]. unfold listed at 1.
    destruct (src_feed s) as [feed|] eqn:Ef.
    + destruct (src_name s) as [name|] eqn:En.
      * rewrite (IH _ H), <- app_assoc. reflexivity.
      * exfalso. apply Hs. split; [rewrite Ef; eauto | exact En].
    + apply IH. exact H.
Qed.

Lemma collect_sources_error category sources : forall feeds,
  Exists nameless sources ->
  collect_sources category sources feeds = KeyError "name".
Proof.
  induction sources as [|s sources IH]; intros feeds H; [inversion H|].
  simpl. apply Exists_cons in H as [[[feed Ef] En] | H].
  - rewrite Ef, En. reflexivity.
  - destruct (src_feed s); [|apply IH; exact H].
    destruct (src_name s); [apply IH; exact H | reflexivity].
Qed.

#[export] Instance nameless_dec (s : Source) : Decision (nameless s).
Proof.
  unfold nameless. destruct (src_feed s), (src_name s).
  - right. intros [_ H]. discriminate.
  - left. split; [eauto | reflexivity].
  - right. intros [[x H] _]. discriminate.
  - right. intros [[x H] _]. discriminate.
Qed.

Lemma collect_categories_ok config : forall feeds,
  Forall (fun s => ~ nameless s) (concat (map snd config)) ->
  collect_categories config feeds
  = Returned (feeds ++ concat (map (fun p => omap (listed (fst p)) (snd p)) config)).
Proof.
  induction config as [|[category sources] config IH]; intros feeds H; simpl.
  - rewrite app_nil_r. reflexivity.
  - simpl in H. apply Forall_app in H as [Hs H].
    rewrite (collect_sources_ok _ _ _ Hs), (IH _ H), <- app_assoc. reflexivity.
Qed.

Lemma collect_categories_error config : forall feeds,
  Exists nameless (concat (map snd config)) ->
  collect_categories config feeds = KeyError "name".
Proof.
  induction config as [|[category sources] config IH]; intros feeds H;
    [inversion H|].
  simpl in *. apply Exists_app in H.
  destruct (decide (Exists nameless sources)) as [Hs | Hs].
  - rewrite (collect_sources_error _ _ _ Hs). reflexivity.
  - apply Forall_Exists_neg in Hs. rewrite (collect_sources_ok _ _ _ Hs).
    apply IH. destruct H as [H | H]; [|exact H].
    exfalso. apply Exists_exists in H as (s & Hin & Hbad).
    rewrite Forall_forall in Hs. exact (Hs s Hin Hbad).
Qed.

Lemma listed_feed category sources :
  Forall (fun s => ~ nameless s) sources ->
  map fi_feed (omap (listed category) sources) = omap src_feed sources.
Proof.
  induction 1 as [|s sources Hs _ IH]; [reflexivity|].
  change (omap (listed category) (s :: sources))
    with (match listed category s with
          | Some y => y :: omap (listed category) sources
          | None => omap (listed category) sources
          end).
  change (omap src_feed (s :: sources))
    with (match src_feed s with
          | Some y => y :: omap src_feed sources
          | None => omap src_feed sources
          end).
  unfold listed at 1.
  destruct (src_feed s) as [feed|] eqn:Ef; [|exact IH].
  destruct (src_name s) as [name|] eqn:En.
  - cbn [map fi_feed]. rewrite IH. reflexivity.
  - exfalso. apply Hs. split; [rewrite Ef; eauto | exact En].
Qed.

End CollectFacts.

(** X15.  [_collect_feeds] raises [KeyError] exactly when some source of the
    configuration has a feed URL but no name, and the key it reports is
    "name"; otherwise it returns. *)
Theorem collect_feeds_key_error (config_sources : option (Dict (list Source))) :
  (_collect_feeds config_sources = KeyError "name"
   <-> Exists FeedSpec.nameless (FeedSpec.all_sources config_sources))
  /\ (forall key, _collect_feeds config_sources = KeyError key -> key = "name").
Proof.
  unfold _collect_feeds, FeedSpec.all_sources.
  set (config := default [] config_sources).
  destruct (decide (Exists FeedSpec.nameless (concat (map snd config)))) as [H | H].
  - rewrite (CollectFacts.collect_categories_error _ _ H).
    split; [tauto | intros key [= <-]; reflexivity].
  - pose proof H as H'. apply Forall_Exists_neg in H'.
    rewrite (CollectFacts.collect_categories_ok _ _ H').
    split; [split; [discriminate | contradiction] | discriminate].
Qed.

(** X16.  When [_collect_feeds] returns, it lists one feed for each source
    that has a feed URL, in the order of the configuration and with the
    category under which the source stands, its name, its URL and its topics
    (none when the source gives no topics); sources without a feed URL are
    left out. *)
Theorem collect_feeds_lists_sources (config_sources : option (Dict (list Source)))
    (feeds : list FeedInfo) :
  _collect_feeds config_sources = Returned feeds ->
  feeds = concat (map (fun p => omap (FeedSpec.listed (fst p)) (snd p))
                      (default [] config_sources))
  /\ map fi_feed feeds = omap src_feed (FeedSpec.all_sources config_sources).
Proof.
  unfold _collect_feeds, FeedSpec.all_sources.
  set (config := default [] config_sources). intros Hr.
  destruct (decide (Exists FeedSpec.nameless (concat (map snd config)))) as [H | H].
  { rewrite (CollectFacts.collect_categories_error _ _ H) in Hr. discriminate. }
  apply Forall_Exists_neg in H.
  rewrite (CollectFacts.collect_categories_ok _ _ H) in Hr.
  injection Hr as <-. split; [reflexivity|]. cbn [app].
  induction config as [|[category sources] config IH]; [reflexivity|].
  simpl in *. apply Forall_app in H as [Hs H].
  rewrite map_app, omap_app, (CollectFacts.listed_feed _ _ Hs), (IH H). reflexivity.
Qed.

(** ** Feed collection: fetching with the cache *)

Module FetchFacts.
Import FeedSpec.

Section Dicts.
Context {V : Type}.
Implicit Types d : Dict V.

Lemma dict_get_set d k v k' :
  dict_get (dict_set d k v) k' = if decide (k = k') then Some v else dict_get d k'.
Proof.
  induction d as [|[k0 v0] d IH]; simpl.
  - destruct (decide (k = k')); reflexivity.
  - destruct (decide (k0 = k)) as [-> | Hne]; simpl.
    + destruct (decide (k = k')); reflexivity.
    + rewrite IH. destruct (decide (k0 = k')) as [-> | Hne']; [|reflexivity].
      destruct (decide (k = k')); [congruence | reflexivity].
Qed.

Lemma dict_set_keys d k v :
  map fst (dict_set d k v)
  = if decide (k ∈ map fst d) then map fst d else map fst d ++ [k].
Proof.
  induction d as [|[k0 v0] d IH]; simpl.
  - destruct (decide (k ∈ [])) as [H | _]; [|reflexivity].
    apply elem_of_nil in H. contradiction.
  - destruct (decide (k0 = k)) as [-> | Hne]; simpl.
    + rewrite decide_True by left. reflexivity.
    + rewrite IH. destruct (decide (k ∈ map fst d)) as [Hin | Hout].
      * rewrite decide_True by (right; exact Hin). reflexivity.
      * rewrite decide_False; [reflexivity|].
        intros H. apply elem_of_cons in H as [-> | H]; [congruence | contradiction].
Qed.

Lemma dict_get_keys d k : is_Some (dict_get d k) <-> k ∈ map fst d.
Proof.
  induction d as [|[k0 v0] d IH]; simpl.
  - split; [intros [x H]; discriminate | intros H; apply elem_of_nil in H; contradiction].
  - destruct (decide (k0 = k)) as [-> | Hne].
    + split; [intros _; left | eauto].
    + rewrite IH, elem_of_cons. split; [auto | intros [-> | H]; [congruence | exact H]].
Qed.



End Dicts.

Lemma keys_after_NoDup names : forall ks, NoDup ks -> NoDup (keys_after names ks).
Proof.
  unfold keys_after. induction names as [|n names IH]; intros ks H; simpl; [exact H|].
  apply IH. destruct (decide (n ∈ ks)) as [Hin | Hout]; [exact H|].
  apply NoDup_app. split; [exact H|]. split.
  - intros x Hx Hn. apply list_elem_of_singleton in Hn. subst x. contradiction.
  - apply NoDup_singleton.
Qed.

Lemma keys_after_elem names : forall ks n,
  n ∈ keys_after names ks <-> n ∈ ks \/ n ∈ names.
Proof.
  unfold keys_after. induction names as [|m names IH]; intros ks n; simpl.
  - rewrite elem_of_nil. tauto.
  - rewrite IH, elem_of_cons. destruct (decide (m ∈ ks)) as [Hin | Hout].
    + split; [tauto|]. intros [H | [-> | H]]; auto.
    + rewrite elem_of_app, list_elem_of_singleton. tauto.
Qed.

Lemma enumerate_app {A} (l1 l2 : list A) : forall k,
  enumerate_from k (l1 ++ l2)
  = enumerate_from k l1 ++ enumerate_from (k + length l1) l2.
Proof.
  induction l1 as [|x l1 IH]; intros k; simpl.
  - rewrite Nat.add_0_r. reflexivity.
  - rewrite IH. replace (S k + length l1)%nat with (k + S (length l1))%nat by lia.
    reflexivity.
Qed.

Section Run.
Context (StructTime : Type) (to_datetime : StructTime -> option Z)
        (isoformat : Z -> string)
        (download : nat -> string -> option (list (ParsedEntry StructTime))).

Abbreviation step := (fetch_step StructTime to_datetime isoformat download).
Abbreviation one := (fetch_one StructTime to_datetime isoformat download).

Lemma step_keys cache cutoff acc item :
  map fst (step cache cutoff acc item)
  = if decide (item_name item ∈ map fst acc) then map fst acc
    else map fst acc ++ [item_name item].
Proof.
  destruct item as [i fi]. unfold fetch_step, item_name. simpl.
  destruct (dict_get cache (fi_name fi)); apply dict_set_keys.
Qed.

Lemma run_keys cache cutoff items : forall acc,
  map fst (fold_left (step cache cutoff) items acc)
  = keys_after (map item_name items) (map fst acc).
Proof.
  unfold keys_after. induction items as [|item items IH]; intros acc;
    cbn [fold_left map]; [reflexivity|].
  rewrite IH, step_keys. reflexivity.
Qed.

Lemma step_get cache cutoff acc i fi n :
  dict_get (step cache cutoff acc (i, fi)) n
  = if decide (fi_name fi = n)
    then Some (default (one cutoff i fi) (dict_get cache (fi_name fi)))
    else dict_get acc n.
Proof.
  unfold fetch_step. destruct (dict_get cache (fi_name fi)); apply dict_get_set.
Qed.

Lemma run_get_other cache cutoff items n : forall acc,
  n ∉ map item_name items ->
  dict_get (fold_left (step cache cutoff) items acc) n = dict_get acc n.
Proof.
  induction items as [|[i fi] items IH]; intros acc H; cbn [fold_left];
    [reflexivity|].
  cbn [map] in H. apply not_elem_of_cons in H as [Hne H].
  rewrite (IH _ H), step_get. unfold item_name in Hne. cbn [snd] in Hne.
  rewrite decide_False by congruence. reflexivity.
Qed.

(** An invariant of the dict that every turn of the loop keeps holds at the
    end. *)
Lemma run_invariant (P : FeedsData -> Prop) cache cutoff items :
  (forall acc item, In item items -> P acc -> P (step cache cutoff acc item)) ->
  forall acc, P acc -> P (fold_left (step cache cutoff) items acc).
Proof.
  induction items as [|item items IH]; intros Hstep acc Hacc; cbn [fold_left];
    [exact Hacc|].
  apply IH.
  - intros acc' item' Hin. apply Hstep. right. exact Hin.
  - apply Hstep; [left; reflexivity | exact Hacc].
Qed.

Lemma recent_entries_fresh cutoff parsed : forall entries result,
  recent_entries StructTime to_datetime isoformat cutoff parsed entries = Some result ->
  Forall (fun e => exists d, (cutoff <= d)%Z /\ raw_published e = isoformat d) entries ->
  Forall (fun e => exists d, (cutoff <= d)%Z /\ raw_published e = isoformat d) result.
Proof.
  induction parsed as [|entry parsed IH]; intros entries result Hr He; simpl in Hr.
  - injection Hr as <-. exact He.
  - destruct (pub_date StructTime to_datetime entry) as [[d|]|]; [| |discriminate].
    + destruct (cutoff <=? d)%Z eqn:E; [|exact (IH _ _ Hr He)].
      apply (IH _ _ Hr). apply Forall_app. split; [exact He|].
      constructor; [|constructor]. exists d. split; [apply Z.leb_le; exact E|].
      reflexivity.
    + exact (IH _ _ Hr He).
Qed.

Lemma fetch_one_fresh cutoff i fi :
  Forall (fun e => exists d, (cutoff <= d)%Z /\ raw_published e = isoformat d)
         (f_entries (one cutoff i fi)).
Proof.
  unfold fetch_one. destruct (download i (fi_feed fi)) as [parsed|]; [|constructor].
  destruct (recent_entries _ _ _ cutoff parsed []) as [entries|] eqn:E; [|constructor].
  simpl. apply (recent_entries_fresh _ _ _ _ E). constructor.
Qed.

End Run.

End FetchFacts.

Section FetchTheorems.
Context (StructTime : Type) (to_datetime : StructTime -> option Z)
        (isoformat : Z -> string) (fromisoformat : string -> option Z)
        (download : nat -> string -> option (list (ParsedEntry StructTime)))
        (days cache_hours : Z) (feeds : list FeedInfo).

Abbreviation fetch :=
  (fetch_feeds StructTime to_datetime isoformat fromisoformat download
               days cache_hours feeds).
Abbreviation load := (_load_cache fromisoformat cache_hours).

Lemma fetch_names :
  map FeedSpec.item_name (enumerate_from 0 feeds) = map fi_name feeds.
Proof.
  unfold FeedSpec.item_name. rewrite <- (ClusterProofs.enumerate_snd feeds 0) at 2.
  rewrite map_map. reflexivity.
Qed.

Lemma fetch_keys (clock : Clock) (file : FileState) :
  NoDup (map fst (fst (fetch clock file)))
  /\ forall name, name ∈ map fst (fst (fetch clock file)) <-> name ∈ map fi_name feeds.
Proof.
  unfold fetch_feeds. cbn [fst].
  rewrite FetchFacts.run_keys, fetch_names. cbn [map]. split.
  - apply FetchFacts.keys_after_NoDup. constructor.
  - intros name. rewrite FetchFacts.keys_after_elem, elem_of_nil. tauto.
Qed.

(** X17.  The dict returned by [fetch_feeds] has exactly the names of the
    configured feeds as its keys, each once: a feed is present even when its
    download fails. *)
Theorem fetch_feeds_keys (clock : Clock) (file : FileState) :
  let feeds_data := fst (fetch clock file) in
  NoDup (map fst feeds_data)
  /\ forall name, name ∈ map fst feeds_data <-> name ∈ map fi_name feeds.
Proof. exact (fetch_keys clock file). Qed.

(** X18.  A configured feed that the loaded cache holds is returned as the
    cache holds it. *)
Theorem cached_feed_returned (clock : Clock) (file : FileState)
    (feed_info : FeedInfo) (cached : FeedData) :
  feed_info ∈ feeds ->
  dict_get (load (now_load clock) file) (fi_name feed_info) = Some cached ->
  dict_get (fst (fetch clock file)) (fi_name feed_info) = Some cached.
Proof.
  intros Hin Hc.
  assert (is_Some (dict_get (fst (fetch clock file)) (fi_name feed_info))) as [v Hv].
  { apply FetchFacts.dict_get_keys. apply (proj2 (fetch_keys clock file)).
    apply list_elem_of_In, in_map, list_elem_of_In. exact Hin. }
  rewrite Hv. f_equal. revert v Hv. unfold fetch_feeds. cbn [fst].
  apply (FetchFacts.run_invariant _ _ _ _
           (fun d => forall v, dict_get d (fi_name feed_info) = Some v -> v = cached)).
  - intros acc [i fi] _ Hacc v. rewrite FetchFacts.step_get.
    destruct (decide (fi_name fi = fi_name feed_info)) as [E | _]; [|apply Hacc].
    rewrite E, Hc. cbn [default from_option id]. congruence.
  - discriminate.
Qed.

(** X19.  The result of [fetch_feeds] does not depend on what the network
    would answer for the feeds that the loaded cache holds: these feeds are
    not downloaded. *)
Theorem cached_feeds_not_downloaded (clock : Clock) (file : FileState)
    (download' : nat -> string -> option (list (ParsedEntry StructTime))) :
  (forall i feed_info,
      feeds !! i = Some feed_info ->
      dict_get (load (now_load clock) file) (fi_name feed_info) = None ->
      download i (fi_feed feed_info) = download' i (fi_feed feed_info)) ->
  fetch clock file
  = fetch_feeds StructTime to_datetime isoformat fromisoformat download'
                days cache_hours feeds clock file.
Proof.
  intros H. unfold fetch_feeds.
  set (cache := load (now_load clock) file) in *.
  set (cutoff := (now_cutoff clock - days * 86400000000)%Z).
  assert (forall items acc,
             (forall i fi, In (i, fi) items -> feeds !! i = Some fi) ->
             fold_left (fetch_step StructTime to_datetime isoformat download
                                   cache cutoff) items acc
             = fold_left (fetch_step StructTime to_datetime isoformat download'
                                     cache cutoff) items acc) as Hfold.
  { induction items as [|[i fi] items IH]; intros acc Hitems; [reflexivity|].
    cbn [fold_left]. rewrite IH by (intros j fj Hj; apply Hitems; right; exact Hj).
    f_equal. unfold fetch_step.
    destruct (dict_get cache (fi_name fi)) eqn:E; [reflexivity|].
    unfold fetch_one.
    rewrite (H i fi (Hitems i fi (or_introl eq_refl)) E). reflexivity. }
  rewrite Hfold; [reflexivity|].
  intros i fi Hin. apply ClusterProofs.enumerate_In in Hin as [_ Hi].
  rewrite Nat.sub_0_r in Hi. exact Hi.
Qed.

(** X20.  Every entry of a feed that [fetch_feeds] did not take from the
    cache carries a publication date that is not before the cutoff, the
    instant of the call less [days] days. *)
Theorem fetched_entries_recent (clock : Clock) (file : FileState)
    (name : string) (feed : FeedData) :
  dict_get (fst (fetch clock file)) name = Some feed ->
  dict_get (load (now_load clock) file) name = None ->
  Forall (fun e => exists date,
              (now_cutoff clock - days * 86400000000 <= date)%Z
              /\ raw_published e = isoformat date)
         (f_entries feed).
Proof.
  intros Hr Hc. revert feed Hr. unfold fetch_feeds. cbn [fst].
  apply (FetchFacts.run_invariant _ _ _ _
           (fun d => forall feed, dict_get d name = Some feed ->
              Forall (fun e => exists date,
                          (now_cutoff clock - days * 86400000000 <= date)%Z
                          /\ raw_published e = isoformat date) (f_entries feed))).
  - intros acc [i fi] _ Hacc feed. rewrite FetchFacts.step_get.
    destruct (decide (fi_name fi = name)) as [E | _]; [|apply Hacc].
    rewrite E, Hc. cbn [default from_option id]. intros [= <-].
    apply FetchFacts.fetch_one_fresh.
  - discriminate.
Qed.

(** X21.  A feed that the cache does not hold gets what its own download
    gives, whatever happens to the other feeds (of several feeds with one
    name the last one counts); when its download fails it is returned with
    no entry and with its configured topics and category. *)
Theorem feed_fetched_on_its_own (clock : Clock) (file : FileState)
    (before after : list FeedInfo) (feed_info : FeedInfo) :
  feeds = before ++ feed_info :: after ->
  fi_name feed_info ∉ map fi_name after ->
  dict_get (load (now_load clock) file) (fi_name feed_info) = None ->
  dict_get (fst (fetch clock file)) (fi_name feed_info)
  = Some (fetch_one StructTime to_datetime isoformat download
                    (now_cutoff clock - days * 86400000000)
                    (length before) feed_info)
  /\ (download (length before) (fi_feed feed_info) = None ->
      dict_get (fst (fetch clock file)) (fi_name feed_info)
      = Some {| f_entries := []; f_topics := fi_topics feed_info;
                f_category := fi_category feed_info |}).
Proof.
  intros Hfeeds Hlast Hc.
  assert (dict_get (fst (fetch clock file)) (fi_name feed_info)
          = Some (fetch_one StructTime to_datetime isoformat download
                            (now_cutoff clock - days * 86400000000)
                            (length before) feed_info)) as Hget.
  { unfold fetch_feeds. cbn [fst]. rewrite Hfeeds, FetchFacts.enumerate_app.
    cbn [enumerate_from Nat.add]. rewrite fold_left_app. cbn [fold_left].
    rewrite FetchFacts.run_get_other.
    - rewrite FetchFacts.step_get, decide_True by reflexivity.
      rewrite Hc. reflexivity.
    - unfold FeedSpec.item_name.
      rewrite <- (ClusterProofs.enumerate_snd after (S (length before))) in Hlast.
      rewrite map_map in Hlast. exact Hlast. }
  split; [exact Hget|].
  intros Hfail. rewrite Hget. unfold fetch_one. rewrite Hfail. reflexivity.
Qed.


End FetchTheorems.

Lemma collect_feeds_lists_sources_witness :
  _collect_feeds SampleFetch.config_sources = Returned SampleFetch.feeds
  /\ map fi_feed SampleFetch.feeds
     = omap src_feed (FeedSpec.all_sources SampleFetch.config_sources).
Proof.
  assert (_collect_feeds SampleFetch.config_sources = Returned SampleFetch.feeds) as H
    by reflexivity.
  split; [exact H|].
  exact (proj2 (collect_feeds_lists_sources _ _ H)).
Defined.

Lemma cached_feed_returned_witness :
  let file := snd (SampleFetch.fetch SampleFetch.download SampleFetch.clock None) in
  exists cached,
    dict_get (_load_cache SampleFetch.fromisoformat SampleFetch.cache_hours
                          (now_load SampleFetch.later) file) "Alpha" = Some cached
    /\ dict_get (fst (SampleFetch.fetch SampleFetch.offline SampleFetch.later file))
                "Alpha" = Some cached.
Proof.
  intros file. eexists.
  assert (dict_get (_load_cache SampleFetch.fromisoformat SampleFetch.cache_hours
                                (now_load SampleFetch.later) file)
                   (fi_name SampleFetch.alpha) = Some _) as H
    by (vm_compute; reflexivity).
  split; [exact H|].
  apply (cached_feed_returned Z SampleFetch.to_datetime SampleFetch.isoformat
           SampleFetch.fromisoformat SampleFetch.offline SampleFetch.days
           SampleFetch.cache_hours SampleFetch.feeds SampleFetch.later file
           SampleFetch.alpha _ ltac:(left) H).
Defined.

Lemma cached_feeds_not_downloaded_witness :
  let file := snd (SampleFetch.fetch SampleFetch.download SampleFetch.clock None) in
  SampleFetch.fetch SampleFetch.download SampleFetch.later file
  = SampleFetch.fetch SampleFetch.offline SampleFetch.later file.
Proof.
  intros file. apply cached_feeds_not_downloaded.
  intros i fi Hi Hnone.
  destruct i as [|[|i]]; try discriminate Hi;
    vm_compute in Hi; injection Hi as <-; vm_compute in Hnone; discriminate Hnone.
Defined.

Lemma fetched_entries_recent_witness :
  exists feed,
    dict_get (fst (SampleFetch.fetch SampleFetch.download SampleFetch.clock None))
             "Alpha" = Some feed
    /\ length (f_entries feed) = 1%nat
    /\ Forall (fun e => exists date,
                  (now_cutoff SampleFetch.clock - SampleFetch.days * 86400000000
                   <= date)%Z
                  /\ raw_published e = SampleFetch.isoformat date)
              (f_entries feed).
Proof.
  eexists.
  assert (dict_get (fst (SampleFetch.fetch SampleFetch.download SampleFetch.clock None))
                   "Alpha" = Some _) as H by (vm_compute; reflexivity).
  split; [exact H|]. split; [reflexivity|].
  exact (fetched_entries_recent Z SampleFetch.to_datetime SampleFetch.isoformat
           SampleFetch.fromisoformat SampleFetch.download SampleFetch.days
           SampleFetch.cache_hours SampleFetch.feeds SampleFetch.clock None
           "Alpha" _ H eq_refl).
Defined.

Lemma feed_fetched_on_its_own_witness :
  dict_get (fst (SampleFetch.fetch SampleFetch.download SampleFetch.clock None)) "Beta"
  = Some {| f_entries := []; f_topics := []; f_category := "telecom" |}.
Proof.
  destruct (feed_fetched_on_its_own Z SampleFetch.to_datetime SampleFetch.isoformat
              SampleFetch.fromisoformat SampleFetch.download SampleFetch.days
              SampleFetch.cache_hours SampleFetch.feeds SampleFetch.clock None
              [SampleFetch.alpha] [] SampleFetch.beta eq_refl)
    as [_ Hfail].
  - apply not_elem_of_nil.
  - reflexivity.
  - apply Hfail. reflexivity.
Defined.

